(** * filetools: the cataloguing and organising pipeline of [file_cataloger.py]

    A shallow embedding of the class [FileCataloger] of
    src/file_cataloger.py, and the properties of its classifier, of its scan
    ([scan_directory], [scan_multiple_volumes]), of its organiser
    ([organize_files]), of its exclusions ([_is_path_excluded],
    [_load_folder_exclusions]) and of its reports ([print_summary], the
    tabular exports, [save_folders_list]).

    Modelling conventions.
    - A [pathlib.Path] is the list of the components of an absolute,
      normalised path; [Path.resolve()] is the identity on such paths (the
      file system below is a tree, it has no symbolic links). [str(p)] is
      computed where the source works on the text of a path.
    - The scan is given twice. [scan_directory] is the scan of a tree on
      which every [stat] is answered and no path is a link: its loop never
      meets an exception. [Guarded.scan_directory] is the scan with a [stat]
      that can be refused and with paths that resolve elsewhere, both given
      by oracles: there the exclusions are tested on the resolved path, an
      exception ends the scan of a root at the [except] of line 180, and an
      exception of [directory.exists()] leaves [scan_directory]. The two
      agree where nothing is refused and nothing is a link
      ([guarded_scan_plain]).
    - The file system is a tree of directories and files; the entries of a
      directory are in the order in which [os.scandir] lists them. The scan
      reads the tree, the organiser takes a tree and returns a tree.
    - [self.catalog] and [self.categories] are insertion-ordered Python
      dictionaries and are association lists here; [self.stats] is a
      [Counter] and is a [gmap] read with a default of 0; Python integers
      are in [Z].
    - The strings appended to [self.errors] are f-strings; an error is a
      constructor that carries the values the f-string interpolates (the
      text of the exception apart).
    - An exception of the operating system is a value of [os_error]; the
      failures that the tree does not determine are given by an oracle
      ([io_fault]). A file operation that fails leaves the tree as it was.
    - Output on the console ([print]) and the [verbose] flag, which only
      selects what is printed, are not part of the state.
    - Where the source resolves a text that the user gave (an argument, a
      line of [folder_exclusions.txt]), [Path(text).resolve()] is a function
      [resolve] from texts to paths that may fail. A text file is the
      string of its characters, read back by [readlines].
    - The category names are the source's: "fotos", "ebooks", "documents",
      "filmes", "musicas" and the fallback "outros" (the specification
      calls them photos, ebooks, documents, movies, music and other). *)

From Stdlib Require Import ZArith Ascii String List Lia.
From stdpp Require Import base decidable option list strings gmap pretty.

Open Scope string_scope.
Open Scope list_scope.

(** ** Strings *)

(** [str.lower()] on the characters A-Z (code points 65 to 90). *)
Definition ascii_lower (c : ascii) : ascii :=
  let n := nat_of_ascii c in
  if (65 <=? n)%nat && (n <=? 90)%nat then ascii_of_nat (n + 32) else c.

Fixpoint lower (s : string) : string :=
  match s with
  | EmptyString => EmptyString
  | String c s' => String (ascii_lower c) (lower s')
  end.

(** [s.rfind(c)]: the index of the last occurrence of [c], if any. *)
Fixpoint rfind (c : ascii) (s : string) : option nat :=
  match s with
  | EmptyString => None
  | String a s' =>
      match rfind c s' with
      | Some i => Some (S i)
      | None => if bool_decide (a = c) then Some 0%nat else None
      end
  end.

(** [s[i:]] and [s[:i]]. *)
Definition str_from (i : nat) (s : string) : string :=
  String.substring i (String.length s - i) s.
Definition str_upto (i : nat) (s : string) : string :=
  String.substring 0 i s.

(** [PurePath.suffix] and [PurePath.stem] of a final component:
    [i = name.rfind('.')], and the name is split at [i] when
    [0 < i < len(name) - 1]. *)
Definition name_suffix (name : string) : string :=
  match rfind "."%char name with
  | Some i =>
      if (0 <? i)%nat && (i <? String.length name - 1)%nat
      then str_from i name else ""
  | None => ""
  end.

Definition name_stem (name : string) : string :=
  match rfind "."%char name with
  | Some i =>
      if (0 <? i)%nat && (i <? String.length name - 1)%nat
      then str_upto i name else name
  | None => name
  end.

(** [s.count(c)] for a one-character [c]. *)
Fixpoint count_char (c : ascii) (s : string) : nat :=
  match s with
  | EmptyString => 0
  | String a s' => (if bool_decide (a = c) then 1 else 0) + count_char c s'
  end.

(** [prefix p s]: [s.startswith(p)]. *)
Fixpoint str_prefix (p s : string) : bool :=
  match p, s with
  | EmptyString, _ => true
  | String a p', String b s' => bool_decide (a = b) && str_prefix p' s'
  | String _ _, EmptyString => false
  end.

(** [s.replace(old, '')]: the occurrences of [old] are removed from left to
    right, without overlap; [skip] counts the characters of the occurrence
    being removed that are still to be dropped. An empty [old] removes
    nothing. *)
Fixpoint remove_occurrences (old : string) (skip : nat) (s : string) : string :=
  match s with
  | EmptyString => EmptyString
  | String a s' =>
      match skip with
      | S k => remove_occurrences old k s'
      | O =>
          match old with
          | EmptyString => String a (remove_occurrences old 0 s')
          | String _ old' =>
              if str_prefix old s
              then remove_occurrences old (String.length old') s'
              else String a (remove_occurrences old 0 s')
          end
      end
  end.

Definition str_remove (old s : string) : string := remove_occurrences old 0 s.

(** ** Paths *)

Definition path := list string.

(** [os.sep] on POSIX. *)
Definition sep : ascii := "/"%char.

(** [str(p)] *)
Fixpoint str_components (p : path) : string :=
  match p with
  | [] => ""
  | c :: rest => String sep (c +:+ str_components rest)
  end.

Definition str_path (p : path) : string :=
  match p with
  | [] => "/"
  | _ => str_components p
  end.

(** [p.name], [p.parent], [p / name], [p.suffix], [p.stem]. *)
Definition path_name (p : path) : string := List.last p "".
Definition parent (p : path) : path := removelast p.
Definition joinpath (p : path) (name : string) : path :=
  if bool_decide (name = "") then p else p ++ [name].
Definition suffix (p : path) : string := name_suffix (path_name p).
Definition stem (p : path) : string := name_stem (path_name p).

(** [p.relative_to(other)] succeeds exactly when the components of [other]
    are a prefix of those of [p]. *)
Fixpoint is_relative_to (p other : path) {struct other} : bool :=
  match other, p with
  | [], _ => true
  | o :: other', c :: p' => bool_decide (c = o) && is_relative_to p' other'
  | _ :: _, [] => false
  end.

(** ** Categories and the classifier *)

(** [self.categories], in the order of the dictionary literal of
    [__init__]. *)
Definition categories : list (string * list string) :=
  [ ("fotos",
      [".jpg"; ".jpeg"; ".png"; ".gif"; ".bmp"; ".tiff"; ".tif";
       ".webp"; ".raw"; ".cr2"; ".nef"; ".arw"; ".dng"; ".heic"; ".heif"]);
    ("ebooks",
      [".pdf"; ".epub"; ".mobi"; ".azw"; ".azw3"; ".fb2"; ".lit";
       ".pdb"; ".cbr"; ".cbz"]);
    ("documents",
      [".txt"; ".rtf"; ".doc"; ".docx"; ".xls"; ".xlsx"]);
    ("filmes",
      [".mp4"; ".avi"; ".mkv"; ".mov"; ".wmv"; ".flv"; ".webm";
       ".m4v"; ".3gp"; ".ogv"; ".ts"; ".m2ts"; ".vob"; ".iso"]);
    ("musicas",
      [".mp3"; ".flac"; ".wav"; ".aac"; ".ogg"; ".wma"; ".m4a";
       ".opus"; ".ape"; ".ac3"; ".dts"; ".aiff"]);
    ("outros", []) ].

Definition category_names : list string := map fst categories.

(** [d.get(k)] and [k in d] on an insertion-ordered dictionary. *)
Fixpoint dict_get {V} (k : string) (d : list (string * V)) : option V :=
  match d with
  | [] => None
  | (k', v) :: rest => if bool_decide (k' = k) then Some v else dict_get k rest
  end.

(** The loop of [categorize_file] over [self.categories.items()]. *)
Fixpoint categorize_loop (items : list (string * list string))
    (extension : string) : string :=
  match items with
  | [] => "outros"
  | (category, extensions) :: rest =>
      if bool_decide (extension ∈ extensions) then category
      else categorize_loop rest extension
  end.

Definition categorize_file (file_path : path) : string :=
  let extension := lower (suffix file_path) in
  categorize_loop categories extension.

(** ** The file system *)

(** What [os.stat] returns for a file, as far as the cataloguer reads it. *)
Record stat_result := { st_size : Z; st_mtime : Z; st_ctime : Z }.

(** A regular file. [f_stat = None] stands for a [stat] call that raises
    inside [get_file_info] (the failure its [try]/[except] absorbs);
    [f_md5] is the MD5 digest of the content, [None] when the file cannot be
    opened for reading. *)
Record file_data := { f_stat : option stat_result; f_md5 : option string }.

(** A directory carries its write permission ([os.access(d, os.W_OK)]) and
    its entries in listing order. *)
#[warnings="-register-all"]
Inductive node :=
| File (d : file_data)
| Dir (writable : bool) (entries : list (string * node)).

(** Induction on a tree, with the hypothesis for every entry of a
    directory. *)
Fixpoint node_ind_entries (P : node -> Prop)
    (HF : ∀ d, P (File d))
    (HD : ∀ w es, Forall (λ e, P e.2) es → P (Dir w es))
    (n : node) : P n :=
  match n with
  | File d => HF d
  | Dir w es =>
      HD w es
        ((fix entries (es : list (string * node)) : Forall (λ e, P e.2) es :=
            match es with
            | [] => @List.Forall_nil _ _
            | (name, c) :: rest =>
                @List.Forall_cons _ (λ e, P e.2) (name, c) rest
                  (node_ind_entries P HF HD c) (entries rest)
            end) es)
  end.

Fixpoint fs_lookup (n : node) (p : path) : option node :=
  match p with
  | [] => Some n
  | name :: rest =>
      match n with
      | Dir _ es =>
          match dict_get name es with
          | Some c => fs_lookup c rest
          | None => None
          end
      | File _ => None
      end
  end.

(** [p.exists()], [p.is_file()], [p.is_dir()] *)
Definition path_exists (fs : node) (p : path) : bool :=
  match fs_lookup fs p with Some _ => true | None => false end.
Definition is_file (fs : node) (p : path) : bool :=
  match fs_lookup fs p with Some (File _) => true | _ => false end.
Definition is_dir (fs : node) (p : path) : bool :=
  match fs_lookup fs p with Some (Dir _ _) => true | _ => false end.

(** The names of the entries of a directory that are not directories (the
    [files] of an [os.walk] triple). *)
Fixpoint nondirs (es : list (string * node)) : list string :=
  match es with
  | [] => []
  | (name, File _) :: rest => name :: nondirs rest
  | (_, Dir _ _) :: rest => nondirs rest
  end.

(** [os.walk(top)], top-down. It yields [(root, dirs, files)] for each
    directory it lists; the caller may empty [dirs] in place before the walk
    goes on, which is [prune root] here. The model returns the roots with
    their [files]; a [top] that is not a directory yields nothing. *)
Fixpoint os_walk (prune : path -> bool) (top : path) (n : node)
    : list (path * list string) :=
  match n with
  | File _ => []
  | Dir _ es =>
      (top, nondirs es) ::
      (if prune top then []
       else (fix walk_dirs (es : list (string * node)) :=
               match es with
               | [] => []
               | (name, c) :: rest =>
                   os_walk prune (top ++ [name]) c ++ walk_dirs rest
               end) es)
  end.

(** pathlib's recursive wildcard: every directory from [top] downwards is
    listed, parent first. The model returns each listed directory with its
    entries. *)
Fixpoint iterate_directories (top : path) (n : node)
    : list (path * list (string * node)) :=
  match n with
  | File _ => []
  | Dir _ es =>
      (top, es) ::
      (fix sub_dirs (es : list (string * node)) :=
         match es with
         | [] => []
         | (name, c) :: rest =>
             iterate_directories (top ++ [name]) c ++ sub_dirs rest
         end) es
  end.

(** [directory.rglob('*')]: the entries of every listed directory. *)
Definition rglob (fs : node) (directory : path) : list path :=
  match fs_lookup fs directory with
  | Some n =>
      flat_map (fun '(d, es) => map (fun e => d ++ [fst e]) es)
               (iterate_directories directory n)
  | None => []
  end.

(** ** The cataloguer *)

(** The messages appended to [self.errors]. *)
Inductive error_msg :=
| ErrAccess (file_path : path)           (* Erro ao acessar ... *)
| ErrMkdirPermission (category_dir : path) (* Erro de permissão ao criar diretório ... *)
| ErrMkdirOS (category_dir : path)       (* Erro do sistema ao criar diretório ... *)
| ErrSourceMissing (src_path : path)     (* Arquivo fonte não encontrado: ... *)
| ErrSourceDirNotWritable (d : path)     (* Sem permissão de escrita no diretório fonte: ... *)
| ErrDestDirNotWritable (d : path)       (* Sem permissão de escrita no diretório destino: ... *)
| ErrPermission (name : string)          (* Erro de permissão ao processar ... *)
| ErrNotFound (name : string)            (* Arquivo não encontrado ... *)
| ErrNoSpace (name : string)             (* Espaço insuficiente em disco para ... *)
| ErrNameTooLong (name : string)         (* Nome de arquivo muito longo ... *)
| ErrOS (name : string)                  (* Erro do sistema ao processar ... *)
| ErrUnexpected (name : string)          (* Erro inesperado ao processar ... *)
| ErrProcess (file_path : path)          (* Erro ao processar ... (line 178) *)
| ErrScan (directory : path).            (* Erro ao varrer diretório ... *)

(** The dictionary built by [get_file_info], with the keys ['hash'] (absent
    unless hashing was asked for, [None] when hashing failed) and
    ['category'] that [scan_directory] adds. *)
Record file_info := {
  fi_path : path;
  fi_name : string;
  fi_size : Z;
  fi_modified : Z;
  fi_created : Z;
  fi_extension : string;
  fi_parent_dir : path;
  fi_hash : option (option string);
  fi_category : string }.

Definition set_hash (h : option string) (r : file_info) : file_info :=
  {| fi_path := fi_path r; fi_name := fi_name r; fi_size := fi_size r;
     fi_modified := fi_modified r; fi_created := fi_created r;
     fi_extension := fi_extension r; fi_parent_dir := fi_parent_dir r;
     fi_hash := Some h; fi_category := fi_category r |}.

Definition set_category (c : string) (r : file_info) : file_info :=
  {| fi_path := fi_path r; fi_name := fi_name r; fi_size := fi_size r;
     fi_modified := fi_modified r; fi_created := fi_created r;
     fi_extension := fi_extension r; fi_parent_dir := fi_parent_dir r;
     fi_hash := fi_hash r; fi_category := c |}.

Record op_stats := {
  successful_operations : Z;
  failed_operations : Z;
  skipped_operations : Z }.

Definition op_stats_zero : op_stats :=
  {| successful_operations := 0; failed_operations := 0;
     skipped_operations := 0 |}.

(** The fields of a [FileCataloger] that the scan and the organiser use. *)
Record cataloger := {
  catalog : list (string * list file_info);
  stats : gmap string Z;
  errors : list error_msg;
  exclude_paths : list path;
  folders_with_files : gset path;
  operation_stats : op_stats }.

(** [FileCataloger(exclude_paths=...)]; the argument stands for the paths
    passed by the caller together with those read from
    [folder_exclusions.txt], already resolved. *)
Definition new_cataloger (excl : list path) : cataloger :=
  {| catalog := []; stats := ∅; errors := []; exclude_paths := excl;
     folders_with_files := ∅; operation_stats := op_stats_zero |}.

Definition add_error (e : error_msg) (st : cataloger) : cataloger :=
  {| catalog := catalog st; stats := stats st; errors := errors st ++ [e];
     exclude_paths := exclude_paths st;
     folders_with_files := folders_with_files st;
     operation_stats := operation_stats st |}.

Definition set_operation_stats (o : op_stats) (st : cataloger) : cataloger :=
  {| catalog := catalog st; stats := stats st; errors := errors st;
     exclude_paths := exclude_paths st;
     folders_with_files := folders_with_files st;
     operation_stats := o |}.

Definition set_catalog (c : list (string * list file_info)) (st : cataloger)
    : cataloger :=
  {| catalog := c; stats := stats st; errors := errors st;
     exclude_paths := exclude_paths st;
     folders_with_files := folders_with_files st;
     operation_stats := operation_stats st |}.

(** [self.catalog[category].append(file_info)] on the [defaultdict(list)]:
    an absent key is added at the end. *)
Fixpoint catalog_append (category : string) (r : file_info)
    (cat : list (string * list file_info)) : list (string * list file_info) :=
  match cat with
  | [] => [(category, [r])]
  | (k, l) :: rest =>
      if bool_decide (k = category) then (k, l ++ [r]) :: rest
      else (k, l) :: catalog_append category r rest
  end.

(** [c[k]] on a [Counter]: a missing key counts 0. *)
Definition counter_get (k : string) (c : gmap string Z) : Z :=
  default 0%Z (c !! k).

(** [self.stats[k] += n] on the [Counter]. *)
Definition counter_add (k : string) (n : Z) (c : gmap string Z) : gmap string Z :=
  <[k := (counter_get k c + n)%Z]> c.

(** The four updates that ingest one record (lines 162 to 168). *)
Definition ingest (r : file_info) (st : cataloger) : cataloger :=
  let category := fi_category r in
  {| catalog := catalog_append category r (catalog st);
     stats := counter_add "total_size" (fi_size r)
                (counter_add "total_files" 1
                   (counter_add category 1 (stats st)));
     errors := errors st;
     exclude_paths := exclude_paths st;
     folders_with_files := {[ fi_parent_dir r ]} ∪ folders_with_files st;
     operation_stats := operation_stats st |}.

Definition _is_path_excluded (st : cataloger) (file_path : path) : bool :=
  match exclude_paths st with
  | [] => false
  | excl => existsb (fun exclude_path => is_relative_to file_path exclude_path) excl
  end.

(** [get_file_info]: the record, or [None] with an error logged. It is
    called on regular files only. *)
Definition get_file_info (fs : node) (file_path : path) (st : cataloger)
    : option file_info * cataloger :=
  match fs_lookup fs file_path with
  | Some (File {| f_stat := Some s |}) =>
      (Some {| fi_path := file_path;
               fi_name := path_name file_path;
               fi_size := st_size s;
               fi_modified := st_mtime s;
               fi_created := st_ctime s;
               fi_extension := lower (suffix file_path);
               fi_parent_dir := parent file_path;
               fi_hash := None;
               fi_category := "" |}, st)
  | _ => (None, add_error (ErrAccess file_path) st)
  end.

Definition get_file_hash (fs : node) (file_path : path) : option string :=
  match fs_lookup fs file_path with
  | Some (File d) => f_md5 d
  | _ => None
  end.

(** Truth value of [target_extensions]: [None] and the empty set are false. *)
Definition truthy_set (target_extensions : option (list string)) : bool :=
  match target_extensions with
  | Some (_ :: _) => true
  | _ => false
  end.

Definition in_target (extension : string)
    (target_extensions : option (list string)) : bool :=
  match target_extensions with
  | Some exts => bool_decide (extension ∈ exts)
  | None => false
  end.

(** The body of the loop of [scan_directory] (lines 136 to 175). *)
Definition scan_file (fs : node) (include_hash : bool)
    (target_extensions : option (list string))
    (st : cataloger) (file_path : path) : cataloger :=
  if is_file fs file_path then
    if _is_path_excluded st file_path then st
    else if truthy_set target_extensions
            && negb (in_target (lower (suffix file_path)) target_extensions)
    then st
    else
      match get_file_info fs file_path st with
      | (None, st') => st'
      | (Some file_info, st') =>
          let file_info :=
            if include_hash
            then set_hash (get_file_hash fs file_path) file_info
            else file_info in
          let category := categorize_file file_path in
          ingest (set_category category file_info) st'
      end
  else st.

(** [level = root.replace(str(directory), '').count(os.sep)] *)
Definition level (directory root : path) : Z :=
  Z.of_nat (count_char sep (str_remove (str_path directory) (str_path root))).

(** The choice [dirs[:] = []] of [_get_files_with_depth] at a root. *)
Definition walk_prune (st : cataloger) (directory : path) (max_depth : Z)
    (root : path) : bool :=
  _is_path_excluded st root || (max_depth <=? level directory root)%Z.

Definition _get_files_with_depth (st : cataloger) (fs : node)
    (directory : path) (max_depth : Z) : list path :=
  match fs_lookup fs directory with
  | Some n =>
      flat_map
        (fun '(root, files) =>
           if _is_path_excluded st root then []
           else map (joinpath root) files)
        (os_walk (walk_prune st directory max_depth) directory n)
  | None => []
  end.

(** [target_extensions] as computed at lines 120 to 122. *)
Definition target_extensions_of (file_type_filter : option string)
    : option (list string) :=
  match file_type_filter with
  | Some f =>
      if negb (bool_decide (f = "")) then dict_get (lower f) categories
      else None
  | None => None
  end.

(** [scan_directory] on a tree where no [stat] is refused and no path is a
    link: no exception reaches the [except] of line 180
    ([Guarded.scan_directory] below is the scan where they can). *)
Definition scan_directory (fs : node) (directory : path)
    (include_hash : bool) (max_depth : option Z)
    (file_type_filter : option string) (st : cataloger) : cataloger :=
  if negb (path_exists fs directory) then st
  else
    let target_extensions := target_extensions_of file_type_filter in
    let files :=
      match max_depth with
      | None => rglob fs directory
      | Some d => _get_files_with_depth st fs directory d
      end in
    fold_left (scan_file fs include_hash target_extensions) files st.

(** The directories that the traversal of [scan_directory] lists. *)
Definition scan_visited (fs : node) (directory : path)
    (max_depth : option Z) (st : cataloger) : list path :=
  match fs_lookup fs directory with
  | Some n =>
      match max_depth with
      | None => map fst (iterate_directories directory n)
      | Some d => map fst (os_walk (walk_prune st directory d) directory n)
      end
  | None => []
  end.

Definition scan_multiple_volumes (fs : node) (volume_paths : list path)
    (include_hash : bool) (max_depth : option Z)
    (file_type_filter : option string) (st : cataloger) : cataloger :=
  fold_left
    (fun st volume_path =>
       scan_directory fs volume_path include_hash max_depth file_type_filter st)
    volume_paths st.

(** ** File-system operations of the organiser *)

Inductive os_error :=
| PermissionError
| FileNotFoundError
| OSError (errno : Z).

(** What [_process_file] can catch: an [OSError], or any other exception. *)
Inductive exn :=
| OSFailure (e : os_error)
| OtherException.

Definition EEXIST : Z := 17.
Definition ENOTDIR : Z := 20.
Definition EISDIR : Z := 21.
Definition ENOSPC : Z := 28.
Definition ENAMETOOLONG : Z := 36.

(** [d[k] = v]: an existing key keeps its place, a new one goes last. *)
Fixpoint dict_set {V} (k : string) (v : V) (d : list (string * V))
    : list (string * V) :=
  match d with
  | [] => [(k, v)]
  | (k', v') :: rest =>
      if bool_decide (k' = k) then (k', v) :: rest
      else (k', v') :: dict_set k v rest
  end.

Fixpoint dict_del {V} (k : string) (d : list (string * V)) : list (string * V) :=
  match d with
  | [] => []
  | (k', v') :: rest =>
      if bool_decide (k' = k) then rest else (k', v') :: dict_del k rest
  end.

(** The node at [p] is created or replaced; the parent of [p] must be an
    existing directory. *)
Fixpoint fs_put (n : node) (p : path) (new : node) : option node :=
  match p with
  | [] => Some new
  | name :: rest =>
      match n with
      | File _ => None
      | Dir w es =>
          match rest with
          | [] => Some (Dir w (dict_set name new es))
          | _ :: _ =>
              match dict_get name es with
              | Some c =>
                  match fs_put c rest new with
                  | Some c' => Some (Dir w (dict_set name c' es))
                  | None => None
                  end
              | None => None
              end
          end
      end
  end.

Fixpoint fs_remove (n : node) (p : path) : option node :=
  match p with
  | [] => None
  | name :: rest =>
      match n with
      | File _ => None
      | Dir w es =>
          match dict_get name es with
          | Some c =>
              match rest with
              | [] => Some (Dir w (dict_del name es))
              | _ :: _ =>
                  match fs_remove c rest with
                  | Some c' => Some (Dir w (dict_set name c' es))
                  | None => None
                  end
              end
          | None => None
          end
      end
  end.

(** [os.access(d, os.W_OK)] *)
Definition access_w (fs : node) (d : path) : bool :=
  match fs_lookup fs d with
  | Some (Dir w _) => w
  | _ => false
  end.

(** A chain of new, empty, writable directories. *)
Fixpoint fresh_dirs (p : path) : node :=
  match p with
  | [] => Dir true []
  | name :: rest => Dir true [(name, fresh_dirs rest)]
  end.

(** [p.mkdir(parents=True, exist_ok=True)]: the missing directories of [p]
    are created below the deepest existing one, which must be writable; a
    file on the way is an error. *)
Fixpoint mkdir_p (n : node) (p : path) : os_error + node :=
  match p with
  | [] =>
      match n with
      | Dir _ _ => inr n
      | File _ => inl (OSError EEXIST)
      end
  | name :: rest =>
      match n with
      | File _ => inl (OSError ENOTDIR)
      | Dir w es =>
          match dict_get name es with
          | Some c =>
              match mkdir_p c rest with
              | inr c' => inr (Dir w (dict_set name c' es))
              | inl e => inl e
              end
          | None =>
              if w then inr (Dir w (dict_set name (fresh_dirs rest) es))
              else inl PermissionError
          end
      end
  end.

(** Writing the node [new] at [dst]: the parent must be a directory, and a
    writable one when [dst] is a new entry. *)
Definition fs_write (fs : node) (dst : path) (new : node) : os_error + node :=
  match fs_lookup fs (parent dst) with
  | Some (Dir w _) =>
      if path_exists fs dst || w then
        match fs_put fs dst new with
        | Some fs' => inr fs'
        | None => inl FileNotFoundError
        end
      else inl PermissionError
  | Some (File _) => inl (OSError ENOTDIR)
  | None => inl FileNotFoundError
  end.

Section Organizer.

(** Failures of the device that the tree does not determine (no space
    left, name too long, ...), as an oracle on the operation. *)
Variable io_fault : path -> path -> option exn.

(** [shutil.copy2(src, dst)]: the source must be a readable regular file;
    a [dst] that is a directory receives the file under its own name;
    copying a file onto itself is an error ([SameFileError], an [OSError]
    without error number, 0 here). *)
Definition copy2 (fs : node) (src dst : path) : exn + node :=
  match io_fault src dst with
  | Some e => inl e
  | None =>
      match fs_lookup fs src with
      | None => inl (OSFailure FileNotFoundError)
      | Some (Dir _ _) => inl (OSFailure (OSError EISDIR))
      | Some (File d) =>
          match f_md5 d with
          | None => inl (OSFailure PermissionError)
          | Some _ =>
              let dst :=
                if is_dir fs dst then joinpath dst (path_name src) else dst in
              if bool_decide (src = dst) then inl (OSFailure (OSError 0))
              else
                match fs_write fs dst (File d) with
                | inr fs' => inr fs'
                | inl e => inl (OSFailure e)
                end
          end
      end
  end.

(** [shutil.move(src, dst)] within the tree: the entry is renamed; a [dst]
    that is a directory receives it under its own name, unless that name
    is taken. *)
Definition move (fs : node) (src dst : path) : exn + node :=
  match io_fault src dst with
  | Some e => inl e
  | None =>
      match fs_lookup fs src with
      | None => inl (OSFailure FileNotFoundError)
      | Some n =>
          let real_dst :=
            if is_dir fs dst then joinpath dst (path_name src) else dst in
          if is_dir fs dst && path_exists fs real_dst
          then inl (OSFailure (OSError EEXIST))
          else
            match fs_remove fs src with
            | None => inl (OSFailure FileNotFoundError)
            | Some fs1 =>
                match fs_write fs1 real_dst n with
                | inr fs' => inr fs'
                | inl e => inl (OSFailure e)
                end
            end
      end
  end.

(** The [except] clauses of [_process_file]. *)
Definition process_error (e : exn) (name : string) : error_msg :=
  match e with
  | OSFailure PermissionError => ErrPermission name
  | OSFailure FileNotFoundError => ErrNotFound name
  | OSFailure (OSError errno) =>
      if (errno =? ENOSPC)%Z then ErrNoSpace name
      else if (errno =? ENAMETOOLONG)%Z then ErrNameTooLong name
      else ErrOS name
  | OtherException => ErrUnexpected name
  end.

(** [_process_file]: the success flag, the cataloguer and the file system
    afterwards. An operation that fails leaves the tree as it was. *)
Definition _process_file (src_path dst_path : path) (copy_files : bool)
    (st : cataloger) (fs : node) : bool * cataloger * node :=
  if negb copy_files && negb (access_w fs (parent src_path)) then
    (false, add_error (ErrSourceDirNotWritable (parent src_path)) st, fs)
  else if negb (access_w fs (parent dst_path)) then
    (false, add_error (ErrDestDirNotWritable (parent dst_path)) st, fs)
  else
    match (if copy_files then copy2 fs src_path dst_path
           else move fs src_path dst_path) with
    | inr fs' => (true, st, fs')
    | inl e => (false, add_error (process_error e (path_name src_path)) st, fs)
    end.

Definition count_successful (st : cataloger) : cataloger :=
  let o := operation_stats st in
  set_operation_stats
    {| successful_operations := successful_operations o + 1;
       failed_operations := failed_operations o;
       skipped_operations := skipped_operations o |} st.

Definition count_failed (st : cataloger) : cataloger :=
  let o := operation_stats st in
  set_operation_stats
    {| successful_operations := successful_operations o;
       failed_operations := failed_operations o + 1;
       skipped_operations := skipped_operations o |} st.

(** The name tried with the counter at [counter] (line 477). *)
Definition numbered (category_dir : path) (src_path : path) (counter : nat)
    : path :=
  joinpath category_dir
    (stem src_path +:+ "_" +:+ pretty counter +:+ suffix src_path).

(** The loop [while dst_path.exists() and not dry_run] (lines 471 to 478);
    [fuel] bounds the number of rounds. *)
Fixpoint unique_dst (fuel : nat) (fs : node) (dry_run : bool)
    (category_dir src_path : path) (counter : nat) (dst_path : path) : path :=
  if path_exists fs dst_path && negb dry_run then
    match fuel with
    | O => dst_path
    | S fuel' =>
        unique_dst fuel' fs dry_run category_dir src_path (S counter)
          (numbered category_dir src_path counter)
    end
  else dst_path.

(** The number of entries of a directory: rounds enough for [unique_dst]
    (see [unique_dst_free]). *)
Definition dir_size (fs : node) (d : path) : nat :=
  match fs_lookup fs d with
  | Some (Dir _ es) => length es
  | _ => 0
  end.

(** The body of the loop over the files of a category (lines 455 to 501). *)
Definition organize_file (copy_files dry_run : bool) (category_dir : path)
    (acc : cataloger * node) (file_info : file_info) : cataloger * node :=
  let '(st, fs) := acc in
  let src_path := fi_path file_info in
  if negb (path_exists fs src_path) then
    (count_failed (add_error (ErrSourceMissing src_path) st), fs)
  else
    let dst_path := joinpath category_dir (path_name src_path) in
    let dst_path :=
      unique_dst (S (dir_size fs category_dir)) fs dry_run
        category_dir src_path 1 dst_path in
    if dry_run then (count_successful st, fs)
    else
      let '(success, st', fs') :=
        _process_file src_path dst_path copy_files st fs in
      if success then (count_successful st', fs')
      else (count_failed st', fs').

(** [category_dir] (lines 428 to 431): the flatten directory when
    [move_to_dir] is given, the folder of the category otherwise. *)
Definition category_dir_of (base_path : path) (move_to_dir : option path)
    (category : string) : path :=
  match move_to_dir with
  | Some _ => base_path
  | None => joinpath base_path category
  end.

(** The two [except] clauses of the directory creation (lines 439 to 448). *)
Definition mkdir_error (e : os_error) (category_dir : path) : error_msg :=
  match e with
  | PermissionError => ErrMkdirPermission category_dir
  | _ => ErrMkdirOS category_dir
  end.

(** The body of the loop over the categories (lines 423 to 511). *)
Definition organize_category (copy_files dry_run : bool) (base_path : path)
    (move_to_dir : option path) (acc : cataloger * node)
    (item : string * list file_info) : cataloger * node :=
  let '(st, fs) := acc in
  let '(category, files) := item in
  match files with
  | [] => acc
  | _ :: _ =>
      let category_dir := category_dir_of base_path move_to_dir category in
      if dry_run then
        fold_left (organize_file copy_files dry_run category_dir) files (st, fs)
      else
        match mkdir_p fs category_dir with
        | inl e => (add_error (mkdir_error e category_dir) st, fs)
        | inr fs' =>
            fold_left (organize_file copy_files dry_run category_dir) files
              (st, fs')
        end
  end.

(** [self.catalog[k]] on the [defaultdict(list)]: reading an absent key
    adds it with an empty list. *)
Definition catalog_touch (k : string) (cat : list (string * list file_info))
    : list (string * list file_info) :=
  match dict_get k cat with
  | Some _ => cat
  | None => cat ++ [(k, [])]
  end.

Definition organize_files (base_output_dir : path)
    (copy_files dry_run : bool) (file_type_filter : option string)
    (move_to_dir : option path) (st : cataloger) (fs : node)
    : cataloger * node :=
  let st := set_operation_stats op_stats_zero st in
  let base_path :=
    match move_to_dir with
    | Some d => d
    | None => base_output_dir
    end in
  let run := organize_category copy_files dry_run base_path move_to_dir in
  match file_type_filter with
  | None => fold_left run (catalog st) (st, fs)
  | Some f =>
      if bool_decide (f = "") then fold_left run (catalog st) (st, fs)
      else
        match dict_get (lower f) categories with
        | Some _ =>
            let st := set_catalog (catalog_touch (lower f) (catalog st)) st in
            let files := default [] (dict_get (lower f) (catalog st)) in
            fold_left run [(lower f, files)] (st, fs)
        | None => (st, fs)
        end
  end.

(** The three counts that [_print_operation_summary] prints. *)
Definition _print_operation_summary (st : cataloger) : Z * Z * Z :=
  let o := operation_stats st in
  (successful_operations o, failed_operations o, skipped_operations o).

End Organizer.

(** ** Loading the exclusions *)

(** [c.isspace()] on the ASCII characters: tab to carriage return, the four
    separators 28 to 31, and the space. *)
Definition is_space (c : ascii) : bool :=
  let n := nat_of_ascii c in
  ((9 <=? n)%nat && (n <=? 13)%nat) || ((28 <=? n)%nat && (n <=? 32)%nat).

(** [s.lstrip()], [s.rstrip()], [s.strip()] *)
Fixpoint lstrip (s : string) : string :=
  match s with
  | EmptyString => EmptyString
  | String c s' => if is_space c then lstrip s' else s
  end.

Fixpoint rstrip (s : string) : string :=
  match s with
  | EmptyString => EmptyString
  | String c s' =>
      match rstrip s' with
      | EmptyString => if is_space c then EmptyString else String c EmptyString
      | t => String c t
      end
  end.

Definition strip (s : string) : string := rstrip (lstrip s).

(** The messages that [_load_folder_exclusions] appends to [self.errors]. *)
Inductive load_error :=
| ErrExclusionLine (line : string)  (* Erro ao processar linha de exclusão '...' *)
| ErrExclusionsFile.                (* Erro ao ler arquivo folder_exclusions.txt *)

(** What [folder_exclusions.txt] is when the cataloguer is built: absent,
    present but failing to be read, or read as its lines. *)
Inductive exclusions_file :=
| NoFile
| Unreadable
| Lines (lines : list string).

(** The part of the cataloguer that loading touches: the set
    [self.exclude_paths], the errors appended to [self.errors], and the
    local counter [excluded_count]. *)
Record exclusions := {
  x_paths : list path;
  x_errors : list load_error;
  x_count : nat }.

(** [s.add(p)] on a set kept as a list without repetition. *)
Definition set_add (p : path) (s : list path) : list path :=
  if bool_decide (p ∈ s) then s else s ++ [p].

Section Exclusions.

(** [Path(text).resolve()]: the absolute path that a text denotes, [None]
    when the call raises. *)
Variable resolve : string -> option path.

(** The test of line 228 on a stripped line: not empty, not a comment. *)
Definition exclusion_line (line : string) : bool :=
  negb (bool_decide (line = "")) && negb (str_prefix "#" line).

(** The body of the loop over the lines (lines 227 to 239). *)
Definition load_line (x : exclusions) (line : string) : exclusions :=
  let line := strip line in
  if exclusion_line line then
    match resolve line with
    | Some abs_path =>
        {| x_paths := set_add abs_path (x_paths x); x_errors := x_errors x;
           x_count := S (x_count x) |}
    | None =>
        {| x_paths := x_paths x;
           x_errors := x_errors x ++ [ErrExclusionLine line];
           x_count := x_count x |}
    end
  else x.

(** [_load_folder_exclusions], from the set built so far. *)
Definition _load_folder_exclusions (file : exclusions_file)
    (exclude_paths : list path) : exclusions :=
  let x := {| x_paths := exclude_paths; x_errors := []; x_count := 0 |} in
  match file with
  | NoFile => x
  | Unreadable =>
      {| x_paths := exclude_paths; x_errors := [ErrExclusionsFile];
         x_count := 0 |}
  | Lines lines => fold_left load_line lines x
  end.

(** The loop of [__init__] over its argument [exclude_paths] (lines 50 to
    56): a path that cannot be resolved raises, and no cataloguer is built. *)
Fixpoint resolve_all (exclude_paths : list string) (acc : list path)
    : option (list path) :=
  match exclude_paths with
  | [] => Some acc
  | text :: rest =>
      match resolve text with
      | Some abs_path => resolve_all rest (set_add abs_path acc)
      | None => None
      end
  end.

(** [FileCataloger(exclude_paths=...)]: the new cataloguer, with the errors
    that loading the exclusions appended. *)
Definition FileCataloger (exclude_paths : list string)
    (file : exclusions_file) : option (cataloger * list load_error) :=
  match resolve_all exclude_paths [] with
  | Some given =>
      let x := _load_folder_exclusions file given in
      Some (new_cataloger (x_paths x), x_errors x)
  | None => None
  end.

End Exclusions.

(** ** The scan and the operating system *)

(** [scan_directory] above is the scan of a tree on which every call of the
    operating system answers and in which no path is a link. The operating
    system can refuse a [stat] (as for the entries of a directory without
    search permission): then [exists()] and [is_file()] raise. And a path can
    lead elsewhere than it says (a link): the code tests the exclusions on
    [file_path.resolve()] and records [str(file_path)]. This module gives the
    scan with both, as oracles: [denied] tells the paths whose [stat] is
    refused, and [resolve] is [Path.resolve()], [None] when it raises. A
    link to a regular file is an entry of the tree like the file it leads
    to; links to directories are not part of the model. On a path that is
    not denied [is_file()] answers; the [stat] of [get_file_info] can still
    fail after it ([f_stat = None]: the file is gone in between, or a time
    of its metadata is outside the range of [datetime]), which
    [get_file_info] logs and absorbs. The standard output is not part of
    the model: [print] is taken to return. With no path denied and
    [resolve] the identity, the scan is that of [scan_directory] above (see
    [guarded_scan_plain]). *)
Module Guarded.
Section Guarded.

Variable denied : path -> bool.
Variable resolve : path -> option path.

(** [_is_path_excluded(file_path)] (lines 198 to 215): the test of
    [_is_path_excluded] above, on the resolved path; [None] when
    [resolve()] raises. *)
Definition _is_path_excluded (st : cataloger) (file_path : path)
    : option bool :=
  match exclude_paths st with
  | [] => Some false
  | _ :: _ =>
      match resolve file_path with
      | Some file_abs_path => Some (_is_path_excluded st file_abs_path)
      | None => None
      end
  end.

(** The body of the loop of [scan_directory] (lines 136 to 175); [None]
    when an exception leaves it for the [except] of line 180: [is_file()]
    raises on a path that is denied, and so does [_is_path_excluded] when
    [resolve()] does. Inside the inner [try], [get_file_info] and
    [get_file_hash] absorb their own exceptions and the other statements
    work on values in memory, so that the [except] of line 177 is not
    reached and [ErrProcess] is never logged. *)
Definition scan_file (fs : node) (include_hash : bool)
    (target_extensions : option (list string))
    (st : cataloger) (file_path : path) : option cataloger :=
  if denied file_path then None
  else if is_file fs file_path then
    match _is_path_excluded st file_path with
    | None => None
    | Some true => Some st
    | Some false =>
        if truthy_set target_extensions
           && negb (in_target (lower (suffix file_path)) target_extensions)
        then Some st
        else
          match get_file_info fs file_path st with
          | (None, st') => Some st'
          | (Some file_info, st') =>
              let file_info :=
                if include_hash
                then set_hash (get_file_hash fs file_path) file_info
                else file_info in
              let category := categorize_file file_path in
              Some (ingest (set_category category file_info) st')
          end
    end
  else Some st.

(** Lines 187 and 188 at a root of the walk: [Path(root).resolve()], then
    the test of the exclusions on the result. *)
Definition root_excluded (st : cataloger) (root : path) : option bool :=
  match resolve root with
  | Some root_path => _is_path_excluded st root_path
  | None => None
  end.

(** The choice [dirs[:] = []] of [_get_files_with_depth] at a root. *)
Definition walk_prune (st : cataloger) (directory : path) (max_depth : Z)
    (root : path) : bool :=
  match root_excluded st root with
  | Some false => (max_depth <=? level directory root)%Z
  | _ => true
  end.

(** What the generator [_get_files_with_depth] gives to the loop: the files
    it yields, in order, and [None] where it raises. *)
Definition _get_files_with_depth (st : cataloger) (fs : node)
    (directory : path) (max_depth : Z) : list (option path) :=
  match fs_lookup fs directory with
  | Some n =>
      flat_map
        (fun '(root, files) =>
           match root_excluded st root with
           | None => [None]
           | Some true => []
           | Some false => map (fun file => Some (joinpath root file)) files
           end)
        (os_walk (walk_prune st directory max_depth) directory n)
  | None => []
  end.

(** What [files] gives to the loop of [scan_directory] (lines 130 to 134). *)
Definition scan_files (st : cataloger) (fs : node) (directory : path)
    (max_depth : option Z) : list (option path) :=
  match max_depth with
  | None => map Some (rglob fs directory)
  | Some d => _get_files_with_depth st fs directory d
  end.

(** The loop [for file_path in files], up to the first exception; the flag
    tells that it ended on one. *)
Fixpoint scan_loop (fs : node) (include_hash : bool)
    (target_extensions : option (list string))
    (files : list (option path)) (st : cataloger) : cataloger * bool :=
  match files with
  | [] => (st, false)
  | None :: _ => (st, true)
  | Some file_path :: rest =>
      match scan_file fs include_hash target_extensions st file_path with
      | Some st' => scan_loop fs include_hash target_extensions rest st'
      | None => (st, true)
      end
  end.

(** [scan_directory]: [None] when [directory.exists()] raises, which is
    outside the [try]; an exception inside it is logged and ends the scan of
    the directory. *)
Definition scan_directory (fs : node) (directory : path)
    (include_hash : bool) (max_depth : option Z)
    (file_type_filter : option string) (st : cataloger) : option cataloger :=
  if denied directory then None
  else if negb (path_exists fs directory) then Some st
  else
    let target_extensions := target_extensions_of file_type_filter in
    let files := scan_files st fs directory max_depth in
    let '(st', raised) :=
      scan_loop fs include_hash target_extensions files st in
    Some (if raised then add_error (ErrScan directory) st' else st').

(** [scan_multiple_volumes]: an exception of [scan_directory] ends it. *)
Fixpoint scan_multiple_volumes (fs : node) (volume_paths : list path)
    (include_hash : bool) (max_depth : option Z)
    (file_type_filter : option string) (st : cataloger) : option cataloger :=
  match volume_paths with
  | [] => Some st
  | volume_path :: rest =>
      match scan_directory fs volume_path include_hash max_depth
              file_type_filter st with
      | Some st' =>
          scan_multiple_volumes fs rest include_hash max_depth
            file_type_filter st'
      | None => None
      end
  end.

(** An exception leaves the body of the loop at [file_path]. *)
Definition raises (fs : node) (st : cataloger) (file_path : path) : bool :=
  denied file_path
  || (is_file fs file_path
      && bool_decide (_is_path_excluded st file_path = None)).

(** The files that the loop handles: those given to it before the first
    exception, of the iterator or of the body. *)
Fixpoint handled (fs : node) (st : cataloger) (files : list (option path))
    : list path :=
  match files with
  | Some file_path :: rest =>
      if raises fs st file_path then [] else file_path :: handled fs st rest
  | _ => []
  end.

Fixpoint abandoned (fs : node) (st : cataloger) (files : list (option path))
    : bool :=
  match files with
  | [] => false
  | None :: _ => true
  | Some file_path :: rest =>
      raises fs st file_path || abandoned fs st rest
  end.

(** The files of a root that the loop handles, none when the root does not
    exist. *)
Definition scan_handled (fs : node) (directory : path)
    (max_depth : option Z) (st : cataloger) : list path :=
  if path_exists fs directory
  then handled fs st (scan_files st fs directory max_depth)
  else [].

Definition scan_abandoned (fs : node) (directory : path)
    (max_depth : option Z) (st : cataloger) : bool :=
  path_exists fs directory
  && abandoned fs st (scan_files st fs directory max_depth).

(** The record that the body of the loop adds to the catalogue for a file
    that it handles, if it adds one. *)
Definition scan_record (fs : node) (include_hash : bool)
    (target_extensions : option (list string)) (st : cataloger)
    (file_path : path) : option file_info :=
  if is_file fs file_path then
    match _is_path_excluded st file_path with
    | Some false =>
        if truthy_set target_extensions
           && negb (in_target (lower (suffix file_path)) target_extensions)
        then None
        else
          match fst (get_file_info fs file_path st) with
          | None => None
          | Some file_info =>
              Some (set_category (categorize_file file_path)
                      (if include_hash
                       then set_hash (get_file_hash fs file_path) file_info
                       else file_info))
          end
    | _ => None
    end
  else None.

(** The files for which the body of the loop logs that their metadata
    cannot be read. *)
Definition stat_fails (fs : node) (target_extensions : option (list string))
    (st : cataloger) (file_path : path) : bool :=
  is_file fs file_path
  && bool_decide (_is_path_excluded st file_path = Some false)
  && negb (truthy_set target_extensions
           && negb (in_target (lower (suffix file_path)) target_extensions))
  && bool_decide (fst (get_file_info fs file_path st) = None).

(** The records that the scan of one root adds to the catalogue, in the
    order of the traversal. *)
Definition scan_records (fs : node) (include_hash : bool)
    (max_depth : option Z) (file_type_filter : option string)
    (st : cataloger) (root : path) : list file_info :=
  omap (scan_record fs include_hash (target_extensions_of file_type_filter) st)
       (scan_handled fs root max_depth st).

End Guarded.
End Guarded.

(** * Statements *)

(** ** The totals of the statistics *)

(** The sum of the counts kept under the category names. *)
Fixpoint sum_counts (names : list string) (c : gmap string Z) : Z :=
  match names with
  | [] => 0
  | k :: rest => counter_get k c + sum_counts rest c
  end.

Fixpoint sum_sizes (l : list file_info) : Z :=
  match l with
  | [] => 0
  | r :: rest => fi_size r + sum_sizes rest
  end.

(** The sum of the sizes of all the records of the catalogue. *)
Fixpoint catalog_size (cat : list (string * list file_info)) : Z :=
  match cat with
  | [] => 0
  | (_, l) :: rest => sum_sizes l + catalog_size rest
  end.

Definition stats_consistent (st : cataloger) : Prop :=
  counter_get "total_files" (stats st) = sum_counts category_names (stats st)
  ∧ counter_get "total_size" (stats st) = catalog_size (catalog st).

(** The states of a cataloguer while it scans: the new cataloguer, and the
    state after each round of the loop of [scan_directory], over any file
    system and with any options. *)
Inductive scanning (excl : list path) : cataloger -> Prop :=
| scanning_new : scanning excl (new_cataloger excl)
| scanning_file fs include_hash target_extensions st file_path :
    scanning excl st ->
    scanning excl (scan_file fs include_hash target_extensions st file_path).

(** ** What a scan catalogues *)

(** All the records of the catalogue. *)
Definition cataloged (st : cataloger) : list file_info :=
  flat_map snd (catalog st).

(** The record that one round of the loop of [scan_directory] adds to the
    catalogue for [file_path], if it adds one. *)
Definition scan_record (fs : node) (include_hash : bool)
    (target_extensions : option (list string)) (st : cataloger)
    (file_path : path) : option file_info :=
  if is_file fs file_path then
    if _is_path_excluded st file_path then None
    else if truthy_set target_extensions
            && negb (in_target (lower (suffix file_path)) target_extensions)
    then None
    else
      match fst (get_file_info fs file_path st) with
      | None => None
      | Some file_info =>
          Some (set_category (categorize_file file_path)
                  (if include_hash
                   then set_hash (get_file_hash fs file_path) file_info
                   else file_info))
      end
  else None.

(** The files that [scan_directory] hands to its loop. *)
Definition scan_candidates (fs : node) (directory : path)
    (max_depth : option Z) (st : cataloger) : list path :=
  if path_exists fs directory then
    match max_depth with
    | None => rglob fs directory
    | Some d => _get_files_with_depth st fs directory d
    end
  else [].

(** [p] lies strictly below [d]. *)
Definition below (p d : path) : Prop := is_relative_to p d = true ∧ p ≠ d.

(** The depth of [p] under [directory]: the number of components that
    follow those of [directory]. *)
Definition depth_under (directory p : path) : Z :=
  Z.of_nat (length p) - Z.of_nat (length directory).

(** ** What the organiser does *)

(** The count of skipped operations. *)
Definition skipped (st : cataloger) : Z :=
  skipped_operations (operation_stats st).

(** The final component tried with the counter at [counter]. *)
Definition numbered_name (src_path : path) (counter : nat) : string :=
  stem src_path +:+ "_" +:+ pretty counter +:+ suffix src_path.

(** The names of the entries of a directory. *)
Definition listdir (fs : node) (d : path) : list string :=
  match fs_lookup fs d with
  | Some (Dir _ es) => map fst es
  | _ => []
  end.

(** Every file of [fs] is in [fs'], at the same place and unchanged. *)
Definition keeps_files (fs fs' : node) : Prop :=
  ∀ q d, fs_lookup fs q = Some (File d) → fs_lookup fs' q = Some (File d).

(** ** Sample trees and runs *)

(** A readable file of [size] bytes with digest [md5]. *)
Definition plain_file (size : Z) (md5 : string) : node :=
  File {| f_stat := Some {| st_size := size; st_mtime := 0; st_ctime := 0 |};
          f_md5 := Some md5 |}.

(** A file that cannot be read, and one whose [stat] fails. *)
Definition unreadable_file (size : Z) : node :=
  File {| f_stat := Some {| st_size := size; st_mtime := 0; st_ctime := 0 |};
          f_md5 := None |}.
Definition vanished_file : node := File {| f_stat := None; f_md5 := None |}.

(** A volume with a photo, a book and a subfolder. *)
Definition fs_demo : node :=
  Dir true
    [("vol", Dir true
       [("praia.jpg", plain_file 10 "0cc175b9");
        ("livro.epub", plain_file 20 "92eb5ffe");
        ("sub", Dir true
           [("notas.txt", unreadable_file 5);
            ("video.mp4", vanished_file)])])].

(** No failure of the device. *)
Definition no_fault : path -> path -> option exn := fun _ _ => None.

(** Two files named [a.txt] in two folders, and the cataloguer after a scan
    of both. *)
Definition fs_twins : node :=
  Dir true
    [("s1", Dir true [("a.txt", plain_file 1 "0cc175b9")]);
     ("s2", Dir true [("a.txt", plain_file 2 "4a8a08f0")])].

Definition twins : cataloger :=
  scan_multiple_volumes fs_twins [["s1"]; ["s2"]] false None None
    (new_cataloger [["out"]]).


(** A tree whose root is not writable: no destination folder can be
    created in it; and the cataloguer after a scan of [/s1]. *)
Definition fs_locked : node :=
  Dir false [("s1", Dir true [("a.txt", plain_file 1 "0cc175b9")])].

Definition locked : cataloger :=
  scan_multiple_volumes fs_locked [["s1"]] false None None
    (new_cataloger [["out"]]).

(** A volume with an excluded folder [/vol/skip] that has a subfolder. *)
Definition fs_excluded : node :=
  Dir true
    [("vol", Dir true
       [("keep", Dir true [("a.txt", plain_file 1 "0cc175b9")]);
        ("skip", Dir true
           [("b.txt", plain_file 2 "92eb5ffe");
            ("deep", Dir true [("c.txt", plain_file 3 "4a8a08f0")])])])].

(** A volume [/data] that has a folder named [data] again. *)
Definition fs_nested : node :=
  Dir true
    [("data", Dir true
       [("top.txt", plain_file 1 "0cc175b9");
        ("data", Dir true
           [("mid.txt", plain_file 2 "92eb5ffe");
            ("x", Dir true
               [("deep.txt", plain_file 3 "4a8a08f0");
                ("y", Dir true [("deeper.txt", plain_file 4 "8277e091")])])])])].

(** ** What loading the exclusions gives *)

(** The stripped lines that name an exclusion, and among them those that
    resolve and those that do not. *)
Definition resolves (resolve : string -> option path) (line : string) : bool :=
  exclusion_line line && bool_decide (is_Some (resolve line)).

Definition malformed (resolve : string -> option path) (line : string) : bool :=
  exclusion_line line && bool_decide (resolve line = None).

(** A resolver for the samples: the text [/a/b] denotes the path of
    components [a] and [b]; a text with a NUL character cannot be resolved. *)
Definition sample_resolve (text : string) : option path :=
  if bool_decide (text = "/vol/skip") then Some ["vol"; "skip"]
  else if bool_decide (text = "/tmp") then Some ["tmp"]
  else if bool_decide (text = "/out") then Some ["out"]
  else None.

Definition sample_exclusions : list string :=
  ["# folders left out of the scan" +:+ String "010"%char "";
   String "010"%char "";
   "  /vol/skip " +:+ String "010"%char "";
   "bad" +:+ String "000"%char "line" +:+ String "010"%char "";
   "/tmp";
   "/vol/skip"].

(** ** The shape of the catalogue *)

(** What every record kept under the key [c] satisfies: its category is the
    key and is the classification of its path, and its name, parent and
    extension are those of its path. *)
Definition record_ok (c : string) (r : file_info) : Prop :=
  fi_category r = c
  ∧ categorize_file (fi_path r) = c
  ∧ fi_name r = path_name (fi_path r)
  ∧ fi_parent_dir r = parent (fi_path r)
  ∧ fi_extension r = lower (suffix (fi_path r)).

(** The keys of the catalogue are distinct category names, and each holds a
    non-empty list of records of that category. *)
Definition catalog_ok (cat : list (string * list file_info)) : Prop :=
  NoDup (map fst cat)
  ∧ Forall (λ item, item.1 ∈ category_names ∧ item.2 ≠ []
                    ∧ Forall (record_ok item.1) item.2) cat.

(** The list kept under a key, empty when the key is absent. *)
Definition catalog_list (c : string) (st : cataloger) : list file_info :=
  default [] (dict_get c (catalog st)).

(** ** What a call of the organiser covers *)

(** The categories that a call of [organize_files] goes through
    ([categories_to_process]): the whole catalogue, the one category that the
    filter names, or nothing when the filter is not a category name. *)
Definition organize_items (file_type_filter : option string) (st : cataloger)
    : list (string * list file_info) :=
  match file_type_filter with
  | None => catalog st
  | Some f =>
      if bool_decide (f = "") then catalog st
      else
        match dict_get (lower f) categories with
        | Some _ => [(lower f, catalog_list (lower f) st)]
        | None => []
        end
  end.

(** The records that the call goes through, in order. *)
Definition organize_scope (file_type_filter : option string) (st : cataloger)
    : list file_info :=
  flat_map snd (organize_items file_type_filter st).

(** The cataloguer when the loop over the categories starts: the counters
    are reset, and the key of the filter is in the catalogue. *)
Definition organize_start (file_type_filter : option string) (st : cataloger)
    : cataloger :=
  let st0 := set_operation_stats op_stats_zero st in
  match file_type_filter with
  | None => st0
  | Some f =>
      if bool_decide (f = "") then st0
      else
        match dict_get (lower f) categories with
        | Some _ => set_catalog (catalog_touch (lower f) (catalog st0)) st0
        | None => st0
        end
  end.

(** [base_path] (lines 394 to 397). *)
Definition base_path_of (base_output_dir : path) (move_to_dir : option path)
    : path :=
  match move_to_dir with
  | Some d => d
  | None => base_output_dir
  end.

Definition source_exists (fs : node) (r : file_info) : bool :=
  path_exists fs (fi_path r).

Definition source_missing (fs : node) (r : file_info) : bool :=
  negb (path_exists fs (fi_path r)).

Definition successful (st : cataloger) : Z :=
  successful_operations (operation_stats st).

Definition failed (st : cataloger) : Z :=
  failed_operations (operation_stats st).

(** The fields of the cataloguer that belong to the scan. *)
Definition scan_fields (st : cataloger)
    : list (string * list file_info) * gmap string Z * list path * gset path :=
  (catalog st, stats st, exclude_paths st, folders_with_files st).

(** The account kept along the loops: the operations counted, and the
    errors logged beyond the failed operations. *)
Definition counted (st : cataloger) : Z := (successful st + failed st)%Z.
Definition other_errors (st : cataloger) : Z :=
  (Z.of_nat (length (errors st)) - failed st)%Z.

(** Every file of [fs'] was in [fs], at the same place and unchanged, or is
    an entry of one of the directories [dirs]. *)
Definition new_files_in (dirs : list path) (fs fs' : node) : Prop :=
  ∀ q d, fs_lookup fs' q = Some (File d) →
         fs_lookup fs q = Some (File d) ∨ ∃ dir name, dir ∈ dirs ∧ q = dir ++ [name].

(** The destination directories of a call of [organize_files]. *)
Definition destination_dirs (base_output_dir : path)
    (move_to_dir : option path) (file_type_filter : option string)
    (st : cataloger) : list path :=
  map (λ item, category_dir_of (base_path_of base_output_dir move_to_dir)
                 move_to_dir item.1)
      (organize_items file_type_filter st).

(** ** The reports *)

(** A cell of the tabular export: a text, an integer, a time stamp (its ISO
    text in the source), or [None]. *)
Inductive cell :=
| CellText (s : string)
| CellInt (n : Z)
| CellTime (t : Z)
| CellNone.

(** The header of [save_catalog_csv] and [save_catalog_excel]. *)
Definition report_header : list cell :=
  map CellText ["Category"; "Name"; "Path"; "Size"; "Extension";
                "Modified"; "Created"; "Parent_Dir"; "Hash"].

(** [file_info.get('hash', '')]: the empty text when the key is absent. *)
Definition hash_cell (r : file_info) : cell :=
  match fi_hash r with
  | None => CellText ""
  | Some None => CellNone
  | Some (Some h) => CellText h
  end.

(** The row written for a record found under the key [category]. *)
Definition report_row (category : string) (r : file_info) : list cell :=
  [CellText category; CellText (fi_name r); CellText (str_path (fi_path r));
   CellInt (fi_size r); CellText (fi_extension r); CellTime (fi_modified r);
   CellTime (fi_created r); CellText (str_path (fi_parent_dir r));
   hash_cell r].

(** The rows that [save_catalog_csv] and [save_catalog_excel] write: the
    header, then the records of each key of the catalogue in turn. *)
Definition report_rows (st : cataloger) : list (list cell) :=
  report_header
  :: flat_map (λ item, map (report_row item.1) item.2) (catalog st).

(** The order in which [print_summary] goes through the categories. *)
Definition summary_order : list string :=
  ["fotos"; "musicas"; "filmes"; "ebooks"; "documents"; "outros"].

(** The loop of [print_summary] (lines 370 to 374): the count and the size
    in bytes (the local [size]) of each category whose counter is positive.
    Reading [self.catalog[category]] adds the key when it is absent. *)
Fixpoint summary_lines (order : list string) (st : cataloger)
    : list (string * Z * Z) * cataloger :=
  match order with
  | [] => ([], st)
  | category :: rest =>
      let count := counter_get category (stats st) in
      if (0 <? count)%Z then
        let st1 := set_catalog (catalog_touch category (catalog st)) st in
        let size := sum_sizes (default [] (dict_get category (catalog st1))) in
        let '(lines, st2) := summary_lines rest st1 in
        ((category, count, size) :: lines, st2)
      else summary_lines rest st
  end.

(** [format_size] (lines 376 to 382) works on floating-point numbers. Its
    arithmetic is exact and is done here on integers and fractions: the
    argument is an integer, an integer below [2^53] is a double, and the only
    operation is the division by [1024.0], a power of two, so that the value
    at each round of the loop is the fraction [num / den] with [den] a power
    of 1024. Rounding occurs in two places: where an integer of [2^53] or
    more is converted to a double, and where the value is written with one
    decimal ([.1f]); both round to the nearest, ties to even. *)

(** The nearest integer to [num / den], ties to even ([den] positive). *)
Definition round_half_even (num den : Z) : Z :=
  let q := (num / den)%Z in
  let r := (num mod den)%Z in
  if (den <? 2 * r)%Z || ((2 * r =? den)%Z && Z.odd q) then (q + 1)%Z else q.

(** [float(n)] for an integer [n ≥ 0]: the value of the nearest double, which
    is an integer; [None] is [OverflowError] (at [2^1024], after rounding). *)
Definition float_of_nat (n : Z) : option Z :=
  if (n <? 2 ^ 53)%Z then Some n
  else
    let ulp := (2 ^ (Z.log2 n - 52))%Z in
    let m := (round_half_even n ulp * ulp)%Z in
    if (m <? 2 ^ 1024)%Z then Some m else None.

(** [f"{x:.1f}"] for [x = num / den ≥ 0]. *)
Definition fixed1 (num den : Z) : string :=
  let tenths := round_half_even (10 * num) den in
  pretty (tenths / 10)%Z +:+ "." +:+ pretty (tenths mod 10)%Z.

(** The rounds of the loop after the first, and the [return] after it. *)
Fixpoint format_loop (units : list string) (num den : Z) : string :=
  match units with
  | [] => fixed1 num den +:+ " PB"
  | unit :: rest =>
      if (num <? 1024 * den)%Z then fixed1 num den +:+ " " +:+ unit
      else format_loop rest num (1024 * den)
  end.

(** [format_size(size_bytes)]: in the first round the integer itself is
    compared and written; after it the value is a double. *)
Definition format_size (size_bytes : Z) : option string :=
  if (size_bytes <? 1024)%Z then
    if (0 <=? size_bytes)%Z then
      m ← float_of_nat size_bytes; Some (fixed1 m 1 +:+ " B")
    else
      m ← float_of_nat (- size_bytes); Some ("-" +:+ fixed1 m 1 +:+ " B")
  else
    m ← float_of_nat size_bytes;
    Some (format_loop ["KB"; "MB"; "GB"; "TB"] m 1024).

(** What [print_summary] shows: the number of files, the total size as
    [format_size] writes it, the number of errors, and for each category of
    the loop its name, its count and its size as [format_size] writes it
    (the counts are shown with thousands separators). *)
Record summary := {
  shown_files : Z;
  shown_size : string;
  shown_errors : nat;
  shown_lines : list (string * Z * string) }.

Definition show_line (line : string * Z * Z) : option (string * Z * string) :=
  let '(category, count, size) := line in
  text ← format_size size; Some (category, count, text).

(** [print_summary]; [None] when [format_size] raises. *)
Definition print_summary (st : cataloger) : option (summary * cataloger) :=
  total ← format_size (counter_get "total_size" (stats st));
  let '(lines, st') := summary_lines summary_order st in
  shown ← mapM show_line lines;
  Some ({| shown_files := counter_get "total_files" (stats st);
           shown_size := total;
           shown_errors := length (errors st);
           shown_lines := shown |}, st').

(** The sum of the counts of the lines of a summary. *)
Fixpoint lines_count {A} (lines : list (string * Z * A)) : Z :=
  match lines with
  | [] => 0
  | (_, count, _) :: rest => count + lines_count rest
  end.

(** A catalogue with two categories of 1075 bytes each. *)
Definition fs_sizes : node :=
  Dir true
    [("vol", Dir true
       [("a.jpg", plain_file 1075 "0cc175b9");
        ("b.txt", plain_file 1075 "92eb5ffe")])].

Definition sizes : cataloger :=
  scan_multiple_volumes fs_sizes [["vol"]] false None None (new_cataloger []).

(** The sum of the sizes of the lists kept under the keys [keys]. *)
Fixpoint sizes_by (keys : list string) (cat : list (string * list file_info))
    : Z :=
  match keys with
  | [] => 0
  | c :: rest => sum_sizes (default [] (dict_get c cat)) + sizes_by rest cat
  end.

(** ** Moving a file *)


(** ** The list of folders *)

Definition LF : ascii := "010"%char.
Definition CR : ascii := "013"%char.
Definition newline : string := String LF "".

(** [sorted(l)] on a list of strings: Python compares the code points, which
    on UTF-8 text is the order of the bytes. *)
Fixpoint insert_sorted (s : string) (l : list string) : list string :=
  match l with
  | [] => [s]
  | x :: rest =>
      if String.leb s x then s :: l else x :: insert_sorted s rest
  end.

Definition sorted (l : list string) : list string :=
  foldr insert_sorted [] l.

(** [sorted(self.folders_with_files)]: the set of the source holds the texts
    [str(file_path.parent)]. *)
Definition sorted_folders (st : cataloger) : list string :=
  sorted (elements (set_map str_path (folders_with_files st) : gset string)).

(** The calls of [f.write] before the loop (lines 261 to 268), with the
    text of [datetime.now().isoformat()]. *)
Definition folders_header (now : string) (file_type_filter : option string)
    (total : nat) : list string :=
  ["# Lista de pastas contendo arquivos no escopo" +:+ newline;
   "# Gerado em: " +:+ now +:+ newline]
  ++ match file_type_filter with
     | Some f =>
         if bool_decide (f = "") then []
         else ["# Filtro aplicado: " +:+ f +:+ newline]
     | None => []
     end
  ++ ["# Total de pastas: " +:+ pretty total +:+ newline;
      "#" +:+ newline;
      "# Para excluir uma pasta da busca real, copie a linha para folder_exclusions.txt"
        +:+ newline;
      "#" +:+ newline +:+ newline].

(** What [save_folders_list] does: nothing when no folder was recorded;
    otherwise it writes the text of the list, or fails to (an error is then
    appended to [self.errors]). *)
Inductive saved :=
| NothingToSave
| Saved (text : string)
| SaveFailed.

Definition save_folders_list (can_write : bool) (now : string)
    (file_type_filter : option string) (st : cataloger) : saved :=
  if bool_decide (folders_with_files st = ∅) then NothingToSave
  else
    let sorted_folders := sorted_folders st in
    if can_write then
      Saved (foldr String.append ""
               (folders_header now file_type_filter (length sorted_folders)
                ++ map (λ folder, folder +:+ newline) sorted_folders))
    else SaveFailed.

(** [f.readlines()] on a file opened for reading in text mode: a line ends
    after a line feed; with the universal newlines of text mode a carriage
    return, alone or followed by a line feed, ends a line too and is read as
    a line feed. *)
Definition push_char (c : ascii) (lines : list string) : list string :=
  match lines with
  | [] => [String c ""]
  | l :: rest => String c l :: rest
  end.

Fixpoint readlines (text : string) : list string :=
  match text with
  | EmptyString => []
  | String c rest =>
      if bool_decide (c = LF) then newline :: readlines rest
      else if bool_decide (c = CR) then
        newline ::
        match rest with
        | String c2 rest2 =>
            if bool_decide (c2 = LF) then readlines rest2 else readlines rest
        | EmptyString => []
        end
      else push_char c (readlines rest)
  end.

(** A text without line break, and one that moreover does not end with white
    space. *)
Fixpoint one_line (s : string) : bool :=
  match s with
  | EmptyString => true
  | String c s' =>
      negb (bool_decide (c = LF)) && negb (bool_decide (c = CR))
      && one_line s'
  end.

Definition tidy (s : string) : bool :=
  one_line s && bool_decide (rstrip s = s).

(** A tree with two folders of files, and the cataloguer after its scan. *)
Definition fs_folders : node :=
  Dir true
    [("vol", Dir true
       [("b", Dir true [("x.txt", plain_file 1 "0cc175b9")]);
        ("a", Dir true [("y.jpg", plain_file 2 "92eb5ffe");
                        ("z.jpg", plain_file 3 "4a8a08f0")])])].

Definition folders : cataloger :=
  scan_multiple_volumes fs_folders [["vol"]] false None None (new_cataloger []).

Definition folders_resolve (text : string) : option path :=
  if bool_decide (text = "/vol/a") then Some ["vol"; "a"]
  else if bool_decide (text = "/vol/b") then Some ["vol"; "b"]
  else None.

(** The lines of the header, without their line feed. *)
Definition header_lines (now : string) (file_type_filter : option string)
    (total : nat) : list string :=
  ["# Lista de pastas contendo arquivos no escopo";
   "# Gerado em: " +:+ now]
  ++ match file_type_filter with
     | Some f =>
         if bool_decide (f = "") then [] else ["# Filtro aplicado: " +:+ f]
     | None => []
     end
  ++ ["# Total de pastas: " +:+ pretty total;
      "#";
      "# Para excluir uma pasta da busca real, copie a linha para folder_exclusions.txt";
      "#";
      ""].

(** Each text is at most the next one, in the order of [sorted]. *)
Fixpoint increasing (l : list string) : bool :=
  match l with
  | x :: rest =>
      match rest with
      | y :: _ => String.leb x y && increasing rest
      | [] => true
      end
  | [] => true
  end.

(** ** When organising succeeds *)




(** ** Sample trees for the scan under the operating system *)

(** No [stat] is refused, and no path is a link. *)
Definition no_denied (p : path) : bool := false.
Definition no_links (p : path) : option path := Some p.

(** A volume with a directory [/vol/a/locked] that can be listed but not
    searched: [stat] is refused on its entry. *)
Definition fs_unsearchable : node :=
  Dir true
    [("vol", Dir true
       [("a", Dir true
          [("x.txt", plain_file 2 "0cc175b9");
           ("locked", Dir true [("y.txt", plain_file 3 "92eb5ffe")])]);
        ("b", Dir true [("w.txt", plain_file 4 "4a8a08f0")])])].
Definition unsearchable_denied (p : path) : bool :=
  bool_decide (p = ["vol"; "a"; "locked"; "y.txt"]).

(** A volume with two links: [/vol/skip/link.txt] leads to [/outside.txt]
    and [/vol/b/lnk.txt] leads to [/vol/skip/real.txt]. *)
Definition fs_links : node :=
  Dir true
    [("outside.txt", plain_file 1 "0cc175b9");
     ("vol", Dir true
       [("b", Dir true
          [("lnk.txt", plain_file 2 "92eb5ffe");
           ("w.txt", plain_file 4 "4a8a08f0")]);
        ("skip", Dir true
          [("link.txt", plain_file 1 "0cc175b9");
           ("real.txt", plain_file 2 "92eb5ffe")])])].
Definition links_resolve (p : path) : option path :=
  if bool_decide (p = ["vol"; "skip"; "link.txt"]) then Some ["outside.txt"]
  else if bool_decide (p = ["vol"; "b"; "lnk.txt"])
  then Some ["vol"; "skip"; "real.txt"]
  else Some p.

(** The paths of the records and the log after a scan, when it returns. *)
Definition scan_outcome_paths (scan : option cataloger)
    : option (list path * list error_msg) :=
  (λ st, (map fi_path (cataloged st), errors st)) <$> scan.

(** * Properties *)

(** ** The classifier *)

Lemma categorize_loop_none items e :
  (∀ c exts, (c, exts) ∈ items → e ∉ exts) →
  categorize_loop items e = "outros".
Proof.
  induction items as [|[c exts] rest IH]; intros Hno; simpl; [done|].
  rewrite bool_decide_eq_false_2.
  - apply IH. intros c' exts' Hin. apply (Hno c' exts'). by right.
  - apply (Hno c exts). by left.
Qed.

(** Every configured extension is classified into the category that lists
    it: the sets of the table are pairwise disjoint. *)
Lemma categories_table :
  Forall (λ item, Forall (λ e, categorize_loop categories e = fst item)
                         (snd item)) categories.
Proof. apply (bool_decide_unpack _). vm_compute. exact I. Qed.

Lemma categorize_loop_member c exts e :
  (c, exts) ∈ categories → e ∈ exts → categorize_loop categories e = c.
Proof.
  intros Hin He.
  pose proof categories_table as Ht.
  rewrite Forall_forall in Ht. specialize (Ht _ Hin). simpl in Ht.
  rewrite Forall_forall in Ht. by apply Ht.
Qed.

Lemma categorize_loop_names items e :
  categorize_loop items e ∈ "outros" :: map fst items.
Proof.
  induction items as [|[c exts] rest IH]; simpl.
  - by left.
  - case_bool_decide.
    + right. by left.
    + apply elem_of_cons in IH as [->|IH]; [by left|]. right. by right.
Qed.

Lemma categorize_file_name file_path : categorize_file file_path ∈ category_names.
Proof.
  pose proof (categorize_loop_names categories (lower (suffix file_path))) as H.
  apply elem_of_cons in H as [H|H]; [|exact H].
  unfold categorize_file. rewrite H. unfold category_names. simpl.
  do 5 right. by left.
Qed.

(** C4. For every file, whatever the case of the letters of its extension:
    [categorize_file] returns the category whose configured set contains
    the lower-cased extension (there is at most one); it returns the
    fallback "outros" when no set contains it, in particular for the empty
    extension; and the result is a function of the lower-cased extension
    alone (the classifier reads and writes no state). *)
Theorem categorize_file_correct (file_path : path) :
  (∀ c exts, (c, exts) ∈ categories → lower (suffix file_path) ∈ exts →
             categorize_file file_path = c)
  ∧ ((∀ c exts, (c, exts) ∈ categories → lower (suffix file_path) ∉ exts) →
     categorize_file file_path = "outros")
  ∧ (suffix file_path = "" → categorize_file file_path = "outros")
  ∧ (∀ other : path, lower (suffix other) = lower (suffix file_path) →
                     categorize_file other = categorize_file file_path).
Proof.
  repeat split.
  - intros c exts Hin He. by apply (categorize_loop_member c exts).
  - intros Hno. by apply categorize_loop_none.
  - intros He. unfold categorize_file. rewrite He. reflexivity.
  - intros other He. unfold categorize_file. by rewrite He.
Qed.

Lemma categorize_file_correct_witness :
  categorize_file ["home"; "ana"; "Praia.JPG"] = "fotos"
  ∧ categorize_file ["home"; "ana"; "notas.xyz"] = "outros"
  ∧ categorize_file ["home"; "ana"; "LEIAME"] = "outros"
  ∧ categorize_file ["home"; "ana"; "b.Mp3"] = categorize_file ["tmp"; "a.mP3"].
Proof.
  split; [|split; [|split]].
  - destruct (categorize_file_correct ["home"; "ana"; "Praia.JPG"]) as (H & _).
    apply (H "fotos" [".jpg"; ".jpeg"; ".png"; ".gif"; ".bmp"; ".tiff"; ".tif";
       ".webp"; ".raw"; ".cr2"; ".nef"; ".arw"; ".dng"; ".heic"; ".heif"]).
    + by left.
    + vm_compute. by left.
  - destruct (categorize_file_correct ["home"; "ana"; "notas.xyz"]) as (_ & H & _).
    apply H. intros c exts Hin.
    assert (Forall (λ item, lower (suffix ["home"; "ana"; "notas.xyz"])
                            ∉ snd item) categories) as Hall.
    { apply (bool_decide_unpack _). vm_compute. exact I. }
    rewrite Forall_forall in Hall. apply (Hall _ Hin).
  - destruct (categorize_file_correct ["home"; "ana"; "LEIAME"]) as (_ & _ & H & _).
    apply H. reflexivity.
  - destruct (categorize_file_correct ["tmp"; "a.mP3"]) as (_ & _ & _ & H).
    apply H. reflexivity.
Defined.

(** ** The totals of the statistics *)

Lemma scanning_fold excl fs include_hash target files st :
  scanning excl st →
  scanning excl (fold_left (scan_file fs include_hash target) files st).
Proof.
  revert st. induction files as [|f files IH]; intros st Hst; simpl; [done|].
  apply IH. by constructor.
Qed.

Lemma scan_directory_scanning excl fs directory include_hash max_depth filter st :
  scanning excl st →
  scanning excl (scan_directory fs directory include_hash max_depth filter st).
Proof.
  intros Hst. unfold scan_directory.
  destruct (negb (path_exists fs directory)); [done|].
  by apply scanning_fold.
Qed.

Lemma scan_multiple_volumes_scanning excl fs volumes include_hash max_depth filter st :
  scanning excl st →
  scanning excl
    (scan_multiple_volumes fs volumes include_hash max_depth filter st).
Proof.
  unfold scan_multiple_volumes. revert st.
  induction volumes as [|v volumes IH]; intros st Hst; simpl; [done|].
  apply IH. by apply scan_directory_scanning.
Qed.

Lemma counter_add_eq k n (c : gmap string Z) :
  counter_get k (counter_add k n c) = (counter_get k c + n)%Z.
Proof. unfold counter_add, counter_get. by rewrite lookup_insert_eq. Qed.

Lemma counter_add_ne k k' n (c : gmap string Z) :
  k ≠ k' → counter_get k' (counter_add k n c) = counter_get k' c.
Proof. intros. unfold counter_add, counter_get. by rewrite lookup_insert_ne. Qed.

Lemma sum_counts_add_notin names k n (c : gmap string Z) :
  k ∉ names → sum_counts names (counter_add k n c) = sum_counts names c.
Proof.
  induction names as [|a names IH]; intros Hk; simpl; [done|].
  apply not_elem_of_cons in Hk as [Hne Hk].
  rewrite counter_add_ne by done. by rewrite IH.
Qed.

Lemma sum_counts_add names k n (c : gmap string Z) :
  NoDup names → k ∈ names →
  sum_counts names (counter_add k n c) = (sum_counts names c + n)%Z.
Proof.
  induction names as [|a names IH]; intros Hnd Hk; simpl.
  - by apply elem_of_nil in Hk.
  - apply NoDup_cons in Hnd as [Ha Hnd].
    destruct (decide (a = k)) as [->|Hne].
    + rewrite counter_add_eq, sum_counts_add_notin by done. lia.
    + apply elem_of_cons in Hk as [->|Hk]; [done|].
      rewrite counter_add_ne by done. rewrite IH by done. lia.
Qed.

Lemma sum_sizes_app l r : sum_sizes (l ++ [r]) = (sum_sizes l + fi_size r)%Z.
Proof. induction l as [|a l IH]; simpl; lia. Qed.

Lemma catalog_size_append category r cat :
  catalog_size (catalog_append category r cat) = (catalog_size cat + fi_size r)%Z.
Proof.
  induction cat as [|[k l] rest IH]; simpl; [lia|].
  case_bool_decide; simpl; [rewrite sum_sizes_app|rewrite IH]; lia.
Qed.

Lemma category_names_NoDup : NoDup category_names.
Proof. apply (bool_decide_unpack _). vm_compute. exact I. Qed.

Lemma totals_not_categories :
  ("total_files" ∉ category_names) ∧ ("total_size" ∉ category_names).
Proof. split; apply (bool_decide_unpack _); vm_compute; exact I. Qed.

Lemma ingest_consistent r st :
  fi_category r ∈ category_names →
  stats_consistent st → stats_consistent (ingest r st).
Proof.
  intros Hc [Hfiles Hsize].
  destruct totals_not_categories as [Hnf Hns].
  assert (fi_category r ≠ "total_files") as Hcf by (intros E; by rewrite E in Hc).
  assert (fi_category r ≠ "total_size") as Hcs by (intros E; by rewrite E in Hc).
  unfold stats_consistent, ingest. cbn [stats catalog]. split.
  - rewrite counter_add_ne, counter_add_eq, counter_add_ne by done.
    rewrite !sum_counts_add_notin by done.
    rewrite sum_counts_add by (done || apply category_names_NoDup). lia.
  - rewrite catalog_size_append.
    rewrite counter_add_eq, !counter_add_ne by done. lia.
Qed.

Lemma scan_file_consistent fs include_hash target st file_path :
  stats_consistent st →
  stats_consistent (scan_file fs include_hash target st file_path).
Proof.
  intros Hst. unfold scan_file.
  destruct (is_file fs file_path); [|done].
  destruct (_is_path_excluded st file_path); [done|].
  destruct (_ && _); [done|].
  unfold get_file_info.
  destruct (fs_lookup fs file_path) as [[[[s|] md5]|w es]|]; try done.
  apply ingest_consistent; [|done].
  simpl. apply categorize_file_name.
Qed.

(** C3. In every state of a scan (the new cataloguer, and the state after
    each file that the loop of [scan_directory] handles, over any sequence
    of roots), [stats['total_files']] is the sum of the counts kept under
    the category names and [stats['total_size']] is the sum of the sizes of
    all the records of the catalogue; in particular after
    [scan_multiple_volumes] over any roots. *)
Theorem stats_totals_invariant (excl : list path) :
  (∀ st, scanning excl st → stats_consistent st)
  ∧ (∀ fs volumes include_hash max_depth filter,
       stats_consistent
         (scan_multiple_volumes fs volumes include_hash max_depth filter
            (new_cataloger excl))).
Proof.
  assert (∀ st, scanning excl st → stats_consistent st) as Hinv.
  { induction 1 as [|fs include_hash target st file_path _ IH].
    - split; vm_compute; reflexivity.
    - by apply scan_file_consistent. }
  split; [exact Hinv|].
  intros fs volumes include_hash max_depth filter.
  apply Hinv, scan_multiple_volumes_scanning. constructor.
Qed.

Lemma stats_totals_invariant_witness :
  stats_consistent
    (scan_file fs_demo true None
       (scan_file fs_demo true None (new_cataloger [])
          ["vol"; "praia.jpg"])
       ["vol"; "sub"; "notas.txt"]).
Proof.
  apply (proj1 (stats_totals_invariant [])). repeat constructor.
Defined.

(** ** Roots that do not exist *)






(** ** The type filter of the scan *)

Lemma cataloged_append category r cat x :
  x ∈ flat_map snd (catalog_append category r cat)
  ↔ x ∈ flat_map snd cat ∨ x = r.
Proof.
  induction cat as [|[k l] rest IH]; simpl.
  - rewrite elem_of_cons, elem_of_nil. tauto.
  - case_bool_decide; simpl.
    + rewrite !elem_of_app, list_elem_of_singleton. tauto.
    + rewrite !elem_of_app, IH. tauto.
Qed.

Lemma is_path_excluded_same st1 st2 p :
  exclude_paths st1 = exclude_paths st2 →
  _is_path_excluded st1 p = _is_path_excluded st2 p.
Proof. intros H. unfold _is_path_excluded. by rewrite H. Qed.

Lemma scan_file_exclude_paths fs include_hash target st p :
  exclude_paths (scan_file fs include_hash target st p) = exclude_paths st.
Proof.
  unfold scan_file.
  destruct (is_file fs p); [|done].
  destruct (_is_path_excluded st p); [done|].
  destruct (_ && _); [done|].
  unfold get_file_info.
  by destruct (fs_lookup fs p) as [[[[s|] md5]|w es]|].
Qed.

Lemma fold_scan_file_exclude_paths fs include_hash target files st :
  exclude_paths (fold_left (scan_file fs include_hash target) files st)
  = exclude_paths st.
Proof.
  revert st. induction files as [|p files IH]; intros st; simpl; [done|].
  by rewrite IH, scan_file_exclude_paths.
Qed.

Lemma scan_directory_exclude_paths fs directory include_hash max_depth filter st :
  exclude_paths (scan_directory fs directory include_hash max_depth filter st)
  = exclude_paths st.
Proof.
  unfold scan_directory. destruct (negb _); [done|].
  apply fold_scan_file_exclude_paths.
Qed.

Lemma scan_record_same fs include_hash target st1 st2 p :
  exclude_paths st1 = exclude_paths st2 →
  scan_record fs include_hash target st1 p
  = scan_record fs include_hash target st2 p.
Proof.
  intros H. unfold scan_record.
  rewrite (is_path_excluded_same st1 st2) by done.
  unfold get_file_info.
  by destruct (fs_lookup fs p) as [[[[s|] md5]|w es]|].
Qed.

Lemma scan_candidates_same fs directory max_depth st1 st2 :
  exclude_paths st1 = exclude_paths st2 →
  scan_candidates fs directory max_depth st1
  = scan_candidates fs directory max_depth st2.
Proof.
  intros H. unfold scan_candidates, _get_files_with_depth, walk_prune,
    _is_path_excluded.
  by rewrite H.
Qed.

(** Closes [x ∈ l ↔ x ∈ l ∨ None = Some x]. *)
Ltac no_new_record := split; [by left | by intros [?|?]].

Lemma cataloged_scan_file fs include_hash target st p x :
  x ∈ cataloged (scan_file fs include_hash target st p)
  ↔ x ∈ cataloged st ∨ scan_record fs include_hash target st p = Some x.
Proof.
  unfold scan_file, scan_record.
  destruct (is_file fs p); [|no_new_record].
  destruct (_is_path_excluded st p); [no_new_record|].
  destruct (_ && _); [no_new_record|].
  unfold get_file_info.
  destruct (fs_lookup fs p) as [[[[s|] md5]|w es]|]; simpl;
    try (unfold cataloged; simpl; no_new_record).
  unfold cataloged, ingest. cbn [catalog].
  rewrite cataloged_append.
  split; (intros [?|H]; [by left|right]); congruence.
Qed.

Lemma cataloged_fold fs include_hash target files st x :
  x ∈ cataloged (fold_left (scan_file fs include_hash target) files st)
  ↔ x ∈ cataloged st
    ∨ ∃ p, p ∈ files ∧ scan_record fs include_hash target st p = Some x.
Proof.
  revert st. induction files as [|p files IH]; intros st; simpl.
  - split; [by left|]. intros [H|(p & Hp & _)]; [done|].
    by apply elem_of_nil in Hp.
  - rewrite IH, cataloged_scan_file. split.
    + intros [[H|H]|(q & Hq & H)].
      * by left.
      * right. exists p. split; [by left|done].
      * right. exists q. split; [by right|].
        rewrite <- H. apply scan_record_same.
        symmetry. apply scan_file_exclude_paths.
    + intros [H|(q & Hq & H)]; [by left; left|].
      apply elem_of_cons in Hq as [->|Hq]; [by left; right|].
      right. exists q. split; [done|].
      rewrite <- H. apply scan_record_same, scan_file_exclude_paths.
Qed.

Lemma scan_directory_fold fs directory include_hash max_depth filter st :
  scan_directory fs directory include_hash max_depth filter st
  = fold_left (scan_file fs include_hash (target_extensions_of filter))
      (scan_candidates fs directory max_depth st) st.
Proof.
  unfold scan_directory, scan_candidates.
  by destruct (path_exists fs directory).
Qed.

Lemma cataloged_scan_multiple fs volumes include_hash max_depth filter st x :
  x ∈ cataloged
        (scan_multiple_volumes fs volumes include_hash max_depth filter st)
  ↔ x ∈ cataloged st
    ∨ ∃ root p, root ∈ volumes
        ∧ p ∈ scan_candidates fs root max_depth st
        ∧ scan_record fs include_hash (target_extensions_of filter) st p
          = Some x.
Proof.
  unfold scan_multiple_volumes. revert st.
  induction volumes as [|v volumes IH]; intros st; simpl.
  - split; [by left|]. intros [H|(root & p & Hr & _)]; [done|].
    by apply elem_of_nil in Hr.
  - rewrite IH, scan_directory_fold, cataloged_fold.
    set (st' := fold_left _ _ st).
    assert (exclude_paths st' = exclude_paths st) as Hex
      by apply fold_scan_file_exclude_paths.
    split.
    + intros [[H|(p & Hp & H)]|(root & p & Hr & Hp & H)].
      * by left.
      * right. exists v, p. split; [by left|done].
      * right. exists root, p. split; [by right|].
        rewrite <- (scan_candidates_same _ _ _ st' st) by done.
        by rewrite <- (scan_record_same _ _ _ st' st).
    + intros [H|(root & p & Hr & Hp & H)]; [by left; left|].
      apply elem_of_cons in Hr as [->|Hr].
      * left. right. by exists p.
      * right. exists root, p. split; [done|].
        rewrite (scan_candidates_same _ _ _ st' st) by done.
        by rewrite (scan_record_same _ _ _ st' st).
Qed.


Lemma scan_record_fields fs include_hash target st p r :
  scan_record fs include_hash target st p = Some r →
  fi_path r = p
  ∧ fi_extension r = lower (suffix p)
  ∧ fi_category r = categorize_file p.
Proof.
  unfold scan_record.
  destruct (is_file fs p); [|done].
  destruct (_is_path_excluded st p); [done|].
  destruct (_ && _); [done|].
  unfold get_file_info.
  destruct (fs_lookup fs p) as [[[[s|] md5]|w es]|]; simpl; try done.
  intros [= <-]. by destruct include_hash.
Qed.





(** ** The organiser *)

Lemma process_file_operation_stats io src dst copy_files st fs :
  operation_stats (_process_file io src dst copy_files st fs).1.2
  = operation_stats st.
Proof.
  unfold _process_file.
  destruct (negb copy_files && _); [done|].
  destruct (negb (access_w _ _)); [done|].
  by destruct (if copy_files then _ else _).
Qed.

Lemma organize_file_skipped io copy_files dry_run category_dir acc r :
  skipped (organize_file io copy_files dry_run category_dir acc r).1
  = skipped acc.1.
Proof.
  destruct acc as [st fs]. unfold organize_file.
  destruct (negb (path_exists fs (fi_path r))); [done|].
  destruct dry_run; [done|].
  pose proof (process_file_operation_stats io (fi_path r)
    (unique_dst (S (dir_size fs category_dir)) fs false category_dir
       (fi_path r) 1 (joinpath category_dir (path_name (fi_path r))))
    copy_files st fs) as H.
  destruct (_process_file _ _ _ _ _ _) as [[success st'] fs']. simpl in H.
  destruct success; unfold skipped; simpl; by rewrite H.
Qed.

Lemma organize_files_loop_skipped io copy_files dry_run category_dir files acc :
  skipped (fold_left (organize_file io copy_files dry_run category_dir)
             files acc).1
  = skipped acc.1.
Proof.
  revert acc. induction files as [|r files IH]; intros acc; simpl; [done|].
  by rewrite IH, organize_file_skipped.
Qed.

Lemma organize_category_skipped io copy_files dry_run base_path move_to_dir acc item :
  skipped (organize_category io copy_files dry_run base_path move_to_dir
             acc item).1
  = skipped acc.1.
Proof.
  destruct acc as [st fs], item as [category files]. unfold organize_category.
  destruct files as [|r files]; [done|].
  destruct dry_run; [by rewrite organize_files_loop_skipped|].
  destruct (mkdir_p _ _); [done|].
  by rewrite organize_files_loop_skipped.
Qed.

Lemma organize_categories_skipped io copy_files dry_run base_path move_to_dir items acc :
  skipped (fold_left
             (organize_category io copy_files dry_run base_path move_to_dir)
             items acc).1
  = skipped acc.1.
Proof.
  revert acc. induction items as [|i items IH]; intros acc; simpl; [done|].
  by rewrite IH, organize_category_skipped.
Qed.

(** C10. After every call of [organize_files] (dry run or not, whatever the
    catalogue, the file system, the filter and the failures met), the
    counter [skipped_operations] is 0, and so is the third count of the
    summary. *)
Theorem skipped_operations_zero io base_output_dir copy_files dry_run
    file_type_filter move_to_dir st fs :
  let st' := (organize_files io base_output_dir copy_files dry_run
                file_type_filter move_to_dir st fs).1 in
  skipped_operations (operation_stats st') = 0%Z
  ∧ (_print_operation_summary st').2 = 0%Z.
Proof.
  cbn zeta.
  assert (skipped (organize_files io base_output_dir copy_files dry_run
                     file_type_filter move_to_dir st fs).1 = 0%Z) as H.
  { unfold organize_files.
    destruct file_type_filter as [f|].
    - case_bool_decide.
      + by rewrite organize_categories_skipped.
      + destruct (dict_get (lower f) categories); [|done].
        by rewrite organize_categories_skipped.
    - by rewrite organize_categories_skipped. }
  split; exact H.
Qed.

(** *** Dry run *)

Lemma organize_file_dry_run io copy_files category_dir acc r :
  (organize_file io copy_files true category_dir acc r).2 = acc.2.
Proof.
  destruct acc as [st fs]. unfold organize_file.
  by destruct (negb (path_exists fs (fi_path r))).
Qed.

Lemma organize_files_loop_dry_run io copy_files category_dir files acc :
  (fold_left (organize_file io copy_files true category_dir) files acc).2
  = acc.2.
Proof.
  revert acc. induction files as [|r files IH]; intros acc; simpl; [done|].
  by rewrite IH, organize_file_dry_run.
Qed.

Lemma organize_category_dry_run io copy_files base_path move_to_dir acc item :
  (organize_category io copy_files true base_path move_to_dir acc item).2
  = acc.2.
Proof.
  destruct acc as [st fs], item as [category files]. unfold organize_category.
  destruct files as [|r files]; [done|].
  by rewrite organize_files_loop_dry_run.
Qed.

Lemma organize_categories_dry_run io copy_files base_path move_to_dir items acc :
  (fold_left (organize_category io copy_files true base_path move_to_dir)
     items acc).2
  = acc.2.
Proof.
  revert acc. induction items as [|i items IH]; intros acc; simpl; [done|].
  by rewrite IH, organize_category_dry_run.
Qed.

(** C2. A dry run of [organize_files] returns the file system it was given:
    no directory is created and no file is created, copied, moved or
    deleted, whatever the catalogue, the copy mode, the type filter and the
    flatten directory. *)
Theorem dry_run_no_mutation io base_output_dir copy_files file_type_filter
    move_to_dir st fs :
  (organize_files io base_output_dir copy_files true file_type_filter
     move_to_dir st fs).2 = fs.
Proof.
  unfold organize_files.
  destruct file_type_filter as [f|].
  - case_bool_decide.
    + by rewrite organize_categories_dry_run.
    + destruct (dict_get (lower f) categories); [|done].
      by rewrite organize_categories_dry_run.
  - by rewrite organize_categories_dry_run.
Qed.

(** *** A destination directory that cannot be created *)

(** C6 fails on this input, by a slip of the code: the files of a category
    whose directory cannot be created are counted neither as failed nor as
    skipped. Here the category has one file and every counter stays 0. *)
Lemma mkdir_failure_not_counted :
  let st' := (organize_files no_fault ["out"] true false None None
                locked fs_locked).1 in
  (length <$> dict_get "documents" (catalog locked)) = Some 1%nat
  ∧ errors st' = [ErrMkdirPermission ["out"; "documents"]]
  ∧ (failed_operations (operation_stats st')
     + skipped_operations (operation_stats st'))%Z = 0%Z.
Proof. vm_compute. repeat split. Qed.

(** C6, what the code does. In real mode, when the creation of the
    directory of a category with files fails (with a permission error or any
    other OS error), the round of that category appends one error to the log
    and does nothing else: the file system is unchanged (no file operation is
    attempted) and the operation counters keep their values. The files are
    counted neither as successful, nor as failed, nor as skipped, where every
    other failure of the loop over the files counts the file as failed (see
    [organize_file_step]) and [skipped_operations] is reset and printed but
    never incremented. *)
Theorem mkdir_failure_skips_category io copy_files base_path move_to_dir
    st fs category files (e : os_error) :
  files ≠ [] →
  mkdir_p fs (category_dir_of base_path move_to_dir category) = inl e →
  let category_dir := category_dir_of base_path move_to_dir category in
  let after :=
    organize_category io copy_files false base_path move_to_dir (st, fs)
      (category, files) in
  after.2 = fs
  ∧ operation_stats after.1 = operation_stats st
  ∧ errors after.1 = errors st ++ [mkdir_error e category_dir]
  ∧ (e = PermissionError →
     mkdir_error e category_dir = ErrMkdirPermission category_dir)
  ∧ (e ≠ PermissionError →
     mkdir_error e category_dir = ErrMkdirOS category_dir).
Proof.
  intros Hfiles Hmk category_dir after.
  assert (after = (add_error (mkdir_error e category_dir) st, fs)) as ->.
  { unfold after, organize_category.
    destruct files as [|r files]; [done|].
    fold category_dir. unfold category_dir at 1. by rewrite Hmk. }
  repeat split.
  - by intros ->.
  - by destruct e.
Qed.

Lemma mkdir_failure_skips_category_witness :
  let after :=
    organize_category no_fault true false ["out"] None (locked, fs_locked)
      ("documents", default [] (dict_get "documents" (catalog locked))) in
  after.2 = fs_locked
  ∧ operation_stats after.1 = operation_stats locked
  ∧ errors after.1 = errors locked ++ [ErrMkdirPermission ["out"; "documents"]].
Proof.
  destruct (mkdir_failure_skips_category no_fault true ["out"] None locked
              fs_locked "documents"
              (default [] (dict_get "documents" (catalog locked)))
              PermissionError) as (H1 & H2 & H3 & _).
  - vm_compute. discriminate.
  - reflexivity.
  - split; [exact H1|]. split; [exact H2|exact H3].
Defined.

(** *** Duplicate names *)

Lemma string_app_length s t :
  String.length (s +:+ t) = String.length s + String.length t.
Proof. induction s as [|a s IH]; simpl; [done|]. by rewrite IH. Qed.

Lemma string_app_inv_tail s1 s2 t : s1 +:+ t = s2 +:+ t → s1 = s2.
Proof.
  revert s2. induction s1 as [|a s1 IH]; intros [|b s2] H; simpl in H.
  - done.
  - apply (f_equal String.length) in H.
    rewrite !string_app_length in H. simpl in H. lia.
  - apply (f_equal String.length) in H.
    rewrite !string_app_length in H. simpl in H. lia.
  - injection H as -> H. f_equal. by apply IH.
Qed.

Lemma numbered_name_inj src_path : Inj (=) (=) (numbered_name src_path).
Proof.
  intros i j H. unfold numbered_name in H.
  apply (inj (String.app _)) in H. apply (inj (String.app _)) in H.
  apply string_app_inv_tail in H. by apply (inj pretty) in H.
Qed.

Lemma numbered_name_nonempty src_path counter :
  numbered_name src_path counter ≠ "".
Proof.
  unfold numbered_name. intros H.
  apply (f_equal String.length) in H.
  rewrite !string_app_length in H. simpl in H. lia.
Qed.

Lemma numbered_joinpath category_dir src_path counter :
  numbered category_dir src_path counter
  = category_dir ++ [numbered_name src_path counter].
Proof.
  unfold numbered, joinpath. fold (numbered_name src_path counter).
  rewrite bool_decide_eq_false_2; [done|apply numbered_name_nonempty].
Qed.

Lemma fs_lookup_app fs p q :
  fs_lookup fs (p ++ q) = fs_lookup fs p ≫= λ n, fs_lookup n q.
Proof.
  revert fs. induction p as [|name p IH]; intros fs; simpl; [done|].
  destruct fs as [d|w es]; [done|].
  destruct (dict_get name es); [apply IH|done].
Qed.

Lemma dict_get_Some_elem {V} k (d : list (string * V)) v :
  dict_get k d = Some v → k ∈ map fst d.
Proof.
  induction d as [|[k' v'] d IH]; simpl; [done|].
  case_bool_decide as Hk; [intros _; subst; by left|].
  intros H. right. by apply IH.
Qed.

Lemma path_exists_listdir fs d name :
  path_exists fs (d ++ [name]) = true → name ∈ listdir fs d.
Proof.
  unfold path_exists, listdir. rewrite fs_lookup_app.
  destruct (fs_lookup fs d) as [[f|w es]|]; simpl; try done.
  destruct (dict_get name es) eqn:Hg; [|done].
  intros _. by apply (dict_get_Some_elem _ _ _ Hg).
Qed.

Lemma listdir_length fs d : length (listdir fs d) = dir_size fs d.
Proof.
  unfold listdir, dir_size.
  destruct (fs_lookup fs d) as [[f|w es]|]; simpl; try done.
  apply length_map.
Qed.

(** The numbered names are pairwise distinct, so a directory cannot hold
    more of them than it has entries. *)
Lemma numbered_not_all_taken fs category_dir src_path counter :
  ¬ (∀ j, counter ≤ j < counter + S (dir_size fs category_dir) →
          path_exists fs (numbered category_dir src_path j) = true).
Proof.
  intros Hall.
  set (names := numbered_name src_path
                <$> seq counter (S (dir_size fs category_dir))).
  assert (NoDup names) as Hnd.
  { apply (@NoDup_fmap_2 _ _ _ (numbered_name_inj src_path)), NoDup_seq. }
  assert (∀ x, x ∈ names → x ∈ listdir fs category_dir) as Hin.
  { intros x Hx. apply list_elem_of_fmap in Hx as (j & -> & Hj).
    apply elem_of_seq in Hj.
    apply path_exists_listdir. rewrite <- numbered_joinpath.
    apply Hall. lia. }
  pose proof (submseteq_length _ _ (NoDup_submseteq _ _ Hnd Hin)) as Hlen.
  unfold names in Hlen.
  rewrite length_fmap, length_seq, listdir_length in Hlen. lia.
Qed.

Lemma unique_dst_spec fuel fs category_dir src_path counter dst_path :
  let d := unique_dst fuel fs false category_dir src_path counter dst_path in
  (path_exists fs dst_path = false ∧ d = dst_path)
  ∨ (path_exists fs dst_path = true
     ∧ ∃ k, counter ≤ k < counter + fuel
         ∧ d = numbered category_dir src_path k
         ∧ path_exists fs d = false
         ∧ ∀ j, counter ≤ j < k →
                path_exists fs (numbered category_dir src_path j) = true)
  ∨ (path_exists fs dst_path = true
     ∧ ∀ j, counter ≤ j < counter + fuel →
            path_exists fs (numbered category_dir src_path j) = true).
Proof.
  revert counter dst_path.
  induction fuel as [|fuel IH]; intros counter dst_path; simpl.
  - destruct (path_exists fs dst_path) eqn:Hex; simpl.
    + right. right. split; [done|]. intros j Hj. lia.
    + by left.
  - destruct (path_exists fs dst_path) eqn:Hex; simpl; [|by left].
    right.
    destruct (IH (S counter) (numbered category_dir src_path counter))
      as [[Hn ->]|[(Hn & k & Hk & -> & Hfree & Hbelow)|[Hn Hall]]].
    + left. split; [done|]. exists counter.
      split; [lia|]. split; [done|]. split; [done|]. intros j Hj. lia.
    + left. split; [done|]. exists k.
      split; [lia|]. split; [done|]. split; [done|].
      intros j Hj. destruct (decide (j = counter)) as [->|Hne]; [done|].
      apply Hbelow. lia.
    + right. split; [done|]. intros j Hj.
      destruct (decide (j = counter)) as [->|Hne]; [done|].
      apply Hall. lia.
Qed.

Lemma unique_dst_free fs category_dir src_path :
  path_exists fs
    (unique_dst (S (dir_size fs category_dir)) fs false category_dir src_path
       1 (joinpath category_dir (path_name src_path))) = false.
Proof.
  destruct (unique_dst_spec (S (dir_size fs category_dir)) fs category_dir
              src_path 1 (joinpath category_dir (path_name src_path)))
    as [[Hn ->]|[(_ & k & _ & _ & Hfree & _)|[_ Hall]]]; [done|done|].
  by apply numbered_not_all_taken in Hall.
Qed.

Lemma dict_get_set {V} k k' (v : V) d :
  dict_get k (dict_set k' v d)
  = if bool_decide (k' = k) then Some v else dict_get k d.
Proof.
  induction d as [|[a b] d IH]; simpl.
  - done.
  - destruct (bool_decide (a = k')) eqn:Ha; simpl.
    + apply bool_decide_eq_true in Ha as ->. by case_bool_decide.
    + rewrite IH. apply bool_decide_eq_false in Ha.
      repeat case_bool_decide; congruence.
Qed.

(** Creating an entry keeps every file of the tree. *)
Lemma fs_put_keeps_files p : ∀ fs new fs' q d,
  fs_put fs p new = Some fs' →
  fs_lookup fs p = None →
  fs_lookup fs q = Some (File d) →
  fs_lookup fs' q = Some (File d).
Proof.
  induction p as [|name rest IH]; intros fs new fs' q d Hput Hnone Hq;
    [done|].
  destruct fs as [f|w es]; [done|]. simpl in Hput, Hnone.
  destruct q as [|k q]; [done|]. simpl in Hq.
  destruct rest as [|r rest].
  - injection Hput as <-. simpl. rewrite dict_get_set.
    case_bool_decide as Hk; [|done]. subst k.
    destruct (dict_get name es); [|done].
    simpl in Hnone. done.
  - destruct (dict_get name es) as [c|] eqn:Hc; [|done].
    destruct (fs_put c (r :: rest) new) as [c'|] eqn:Hc'; [|done].
    injection Hput as <-. simpl. rewrite dict_get_set.
    case_bool_decide as Hk; [|done]. subst k. rewrite Hc in Hq.
    by apply (IH c new c').
Qed.

Lemma mkdir_p_keeps_files p : ∀ fs fs' q d,
  mkdir_p fs p = inr fs' →
  fs_lookup fs q = Some (File d) →
  fs_lookup fs' q = Some (File d).
Proof.
  induction p as [|name rest IH]; intros fs fs' q d Hmk Hq; simpl in Hmk.
  - destruct fs; [done|]. by injection Hmk as <-.
  - destruct fs as [f|w es]; [done|].
    destruct q as [|k q]; [done|]. simpl in Hq.
    destruct (dict_get name es) as [c|] eqn:Hc.
    + destruct (mkdir_p c rest) as [e|c'] eqn:Hc'; [done|].
      injection Hmk as <-. simpl. rewrite dict_get_set.
      case_bool_decide as Hk; [|done]. subst k. rewrite Hc in Hq.
      by apply (IH c c').
    + destruct w; [|done]. injection Hmk as <-. simpl. rewrite dict_get_set.
      case_bool_decide as Hk; [|done]. subst k. by rewrite Hc in Hq.
Qed.

Lemma copy2_keeps_files io fs src dst fs' :
  path_exists fs dst = false →
  copy2 io fs src dst = inr fs' →
  keeps_files fs fs'.
Proof.
  intros Hfree Hcopy q d Hq. unfold copy2 in Hcopy.
  destruct (io src dst); [done|].
  destruct (fs_lookup fs src) as [[data|w es]|]; [|done|done].
  destruct (f_md5 data); [|done].
  assert (is_dir fs dst = false) as Hdir.
  { unfold is_dir. unfold path_exists in Hfree.
    by destruct (fs_lookup fs dst). }
  rewrite Hdir in Hcopy. case_bool_decide; [done|].
  unfold fs_write in Hcopy.
  destruct (fs_lookup fs (parent dst)) as [[f|w es]|]; [done| |done].
  destruct (path_exists fs dst || w); [|done].
  destruct (fs_put fs dst (File data)) as [fs1|] eqn:Hput; [|done].
  injection Hcopy as <-.
  apply (fs_put_keeps_files dst fs (File data) fs1); [done| |done].
  unfold path_exists in Hfree. by destruct (fs_lookup fs dst).
Qed.

Lemma organize_file_copy_keeps_files io category_dir st fs r :
  keeps_files fs (organize_file io true false category_dir (st, fs) r).2.
Proof.
  unfold organize_file.
  destruct (negb (path_exists fs (fi_path r))); [by intros q d|].
  pose proof (unique_dst_free fs category_dir (fi_path r)) as Hfree.
  set (dst := unique_dst _ _ _ _ _ _ _) in *.
  unfold _process_file. simpl.
  destruct (negb (access_w fs (parent dst))); [by intros q d|].
  destruct (copy2 io fs (fi_path r) dst) as [e|fs'] eqn:Hcopy;
    [by intros q d|].
  simpl. by apply (copy2_keeps_files io fs (fi_path r) dst).
Qed.

Lemma organize_files_loop_copy_keeps_files io category_dir files : ∀ st fs,
  keeps_files fs
    (fold_left (organize_file io true false category_dir) files (st, fs)).2.
Proof.
  induction files as [|r files IH]; intros st fs; cbn [fold_left];
    [by intros q d|].
  pose proof (organize_file_copy_keeps_files io category_dir st fs r) as H1.
  destruct (organize_file io true false category_dir (st, fs) r) as [st1 fs1].
  intros q d Hq. by apply IH, H1.
Qed.

Lemma organize_category_copy_keeps_files io base_path move_to_dir st fs item :
  keeps_files fs
    (organize_category io true false base_path move_to_dir (st, fs) item).2.
Proof.
  destruct item as [category files]. unfold organize_category.
  destruct files as [|r files]; [by intros q d|].
  destruct (mkdir_p fs _) as [e|fs1] eqn:Hmk; [by intros q d|].
  intros q d Hq. apply organize_files_loop_copy_keeps_files.
  by apply (mkdir_p_keeps_files _ fs fs1 q d Hmk).
Qed.

Lemma organize_categories_copy_keeps_files io base_path move_to_dir items :
  ∀ st fs,
  keeps_files fs
    (fold_left (organize_category io true false base_path move_to_dir)
       items (st, fs)).2.
Proof.
  induction items as [|i items IH]; intros st fs; cbn [fold_left];
    [by intros q d|].
  pose proof (organize_category_copy_keeps_files io base_path move_to_dir
                st fs i) as H1.
  destruct (organize_category io true false base_path move_to_dir (st, fs) i)
    as [st1 fs1].
  intros q d Hq. by apply IH, H1.
Qed.





(** ** Exclusions and the depth limit *)

Lemma not_excluded_not_relative st p D :
  _is_path_excluded st p = false → D ∈ exclude_paths st →
  is_relative_to p D = false.
Proof.
  intros Hex HD.
  assert (existsb (λ e, is_relative_to p e) (exclude_paths st) = false) as Hall.
  { unfold _is_path_excluded in Hex. by destruct (exclude_paths st). }
  destruct (is_relative_to p D) eqn:Hrel; [|done].
  rewrite <- Hall. symmetry. apply existsb_exists.
  exists D. split; [by apply list_elem_of_In|done].
Qed.

(** No record of the catalogue lies at or under an excluded path, with or
    without a depth limit, on a tree without links (with links it is the
    resolved path of the record that lies outside: the test of the
    exclusions is on [file_path.resolve()]). *)
Lemma excluded_never_cataloged fs volumes include_hash max_depth filter excl r D :
  r ∈ cataloged (scan_multiple_volumes fs volumes include_hash max_depth
                   filter (new_cataloger excl)) →
  D ∈ excl →
  is_relative_to (fi_path r) D = false.
Proof.
  intros Hr HD. apply cataloged_scan_multiple in Hr as [Hr|Hr].
  { unfold cataloged in Hr. simpl in Hr. by apply elem_of_nil in Hr. }
  destruct Hr as (root & p & _ & _ & Hr).
  pose proof (scan_record_fields _ _ _ _ _ _ Hr) as (<- & _).
  unfold scan_record in Hr.
  destruct (is_file fs (fi_path r)); [|done].
  destruct (_is_path_excluded _ _) eqn:Hex; [done|].
  by apply (not_excluded_not_relative (new_cataloger excl)).
Qed.

(** The files handed to the loop of [scan_directory] are entries of the
    directories that the traversal lists. *)
Lemma candidates_in_visited fs directory max_depth st p :
  p ∈ scan_candidates fs directory max_depth st →
  ∃ d name, d ∈ scan_visited fs directory max_depth st
            ∧ (p = d ++ [name] ∨ p = joinpath d name).
Proof.
  unfold scan_candidates, scan_visited, rglob, _get_files_with_depth.
  destruct (path_exists fs directory); [|by intros ?%elem_of_nil].
  destruct (fs_lookup fs directory) as [n|];
    [|destruct max_depth; by intros ?%elem_of_nil].
  destruct max_depth as [depth|]; intros Hp.
  - apply list_elem_of_In, in_flat_map in Hp as ([root files] & Hin & Hp).
    destruct (_is_path_excluded st root); [done|].
    apply in_map_iff in Hp as (name & <- & _).
    exists root, name. split; [|by right].
    apply list_elem_of_In, in_map_iff. by exists (root, files).
  - apply list_elem_of_In, in_flat_map in Hp as ([d es] & Hin & Hp).
    apply in_map_iff in Hp as ([name c] & <- & _).
    exists d, name. split; [|by left].
    apply list_elem_of_In, in_map_iff. by exists (d, es).
Qed.

(** Every directory that [os.walk] lists, the top apart, is an entry of a
    listed directory that was not pruned. *)
Lemma os_walk_visited prune n : ∀ top root,
  root ∈ map fst (os_walk prune top n) →
  root = top ∨ ∃ parent name, root = parent ++ [name] ∧ prune parent = false.
Proof.
  induction n as [d|w es IH] using node_ind_entries; intros top root Hin.
  - by apply elem_of_nil in Hin.
  - simpl in Hin. apply elem_of_cons in Hin as [->|Hin]; [by left|].
    destruct (prune top) eqn:Hp; [by apply elem_of_nil in Hin|].
    right. induction es as [|[name c] rest IHrest]; simpl in Hin.
    + by apply elem_of_nil in Hin.
    + apply Forall_cons in IH as [IHc IH].
      rewrite map_app in Hin. apply elem_of_app in Hin as [Hin|Hin].
      * simpl in IHc. apply IHc in Hin as [Hin|Hin]; [|done].
        exists top, name. by split.
      * by apply IHrest.
Qed.

Lemma is_relative_to_parent D : ∀ parent name,
  is_relative_to (parent ++ [name]) D = true →
  D = parent ++ [name] ∨ is_relative_to parent D = true.
Proof.
  induction D as [|o D IH]; intros parent name H; [by right|].
  destruct parent as [|c parent]; simpl in H.
  - apply andb_true_iff in H as [Ho H]. apply bool_decide_eq_true in Ho.
    destruct D; [|done]. left. by subst.
  - apply andb_true_iff in H as [Ho H]. apply bool_decide_eq_true in Ho.
    subst. apply IH in H as [->|H]; [by left|].
    right. simpl. rewrite H. by rewrite bool_decide_eq_true_2.
Qed.

(** X7. With a depth limit, the traversal lists no directory below an
    excluded one, the root of the scan apart (which [os.walk] lists before
    [_get_files_with_depth] can test it). *)
Lemma depth_limited_scan_prunes fs directory max_depth st root D :
  root ∈ scan_visited fs directory (Some max_depth) st →
  D ∈ exclude_paths st →
  below root D →
  root = directory.
Proof.
  intros Hin HD [Hrel Hne]. unfold scan_visited in Hin.
  destruct (fs_lookup fs directory) as [n|]; [|by apply elem_of_nil in Hin].
  apply os_walk_visited in Hin as [->|(parent & name & -> & Hp)]; [done|].
  exfalso. unfold walk_prune in Hp. apply orb_false_iff in Hp as [Hp _].
  apply is_relative_to_parent in Hrel as [->|Hrel]; [done|].
  by rewrite (not_excluded_not_relative st parent D) in Hrel.
Qed.

(** C1 at a failing input. [/vol/skip] is excluded and the scan of [/vol]
    has no depth limit: the catalogue holds no record under [/vol/skip], but
    the traversal ([rglob]) lists [/vol/skip/deep], a directory below the
    excluded one. With a depth limit the same scan lists [/vol/skip] and
    nothing below it. *)
Theorem unbounded_scan_descends_into_excluded :
  let st := new_cataloger [["vol"; "skip"]] in
  ["vol"; "skip"; "deep"] ∈ scan_visited fs_excluded ["vol"] None st
  ∧ below ["vol"; "skip"; "deep"] ["vol"; "skip"]
  ∧ ["vol"; "skip"; "deep"; "c.txt"] ∈ scan_candidates fs_excluded ["vol"] None st
  ∧ map fi_path (cataloged (scan_directory fs_excluded ["vol"] false None None st))
    = [["vol"; "keep"; "a.txt"]]
  ∧ scan_visited fs_excluded ["vol"] (Some 9%Z) st
    = [["vol"]; ["vol"; "keep"]; ["vol"; "skip"]].
Proof.
  cbn zeta. split; [|split; [|split; [|split]]].
  - apply (bool_decide_unpack _). vm_compute. exact I.
  - split; [reflexivity|discriminate].
  - apply (bool_decide_unpack _). vm_compute. exact I.
  - reflexivity.
  - reflexivity.
Qed.

Lemma remove_occurrences_skip old s :
  remove_occurrences old (String.length s) s = "".
Proof. induction s as [|a s IH]; simpl; [done|exact IH]. Qed.

Lemma str_prefix_refl s : str_prefix s s = true.
Proof.
  induction s as [|a s IH]; simpl; [done|].
  by rewrite bool_decide_eq_true_2, IH.
Qed.

Lemma str_remove_self s : str_remove s s = "".
Proof.
  destruct s as [|a s]; [done|].
  unfold str_remove. cbn [remove_occurrences].
  rewrite str_prefix_refl. apply remove_occurrences_skip.
Qed.

(** The root of the scan is at level 0. *)
Lemma level_root directory : level directory directory = 0%Z.
Proof. unfold level. by rewrite str_remove_self. Qed.

(** X8. With [max_depth = 0] the walk lists the root only, and hands to the
    loop the files that are entries of the root. *)
Lemma max_depth_zero_root_only st fs directory w es :
  fs_lookup fs directory = Some (Dir w es) →
  scan_visited fs directory (Some 0%Z) st = [directory]
  ∧ _get_files_with_depth st fs directory 0
    = if _is_path_excluded st directory then []
      else map (joinpath directory) (nondirs es).
Proof.
  intros Hdir. unfold scan_visited, _get_files_with_depth. rewrite Hdir.
  cbn [os_walk].
  assert (walk_prune st directory 0 directory = true) as ->.
  { unfold walk_prune. rewrite level_root. apply orb_true_r. }
  split; [done|]. simpl. by rewrite app_nil_r.
Qed.

(** C9 at a failing input. The scan of [/data] with [max_depth = 1] reaches
    [/data/data/x], two levels below the root: [level] removes every
    occurrence of the text of the root from the text of the folder, so
    [/data/data] counts as level 0 and [/data/data/x] as level 1. The file
    [/data/data/x/deep.txt] is catalogued. *)
Theorem depth_limit_exceeded :
  let st := new_cataloger [] in
  level ["data"] ["data"; "data"] = 0%Z
  ∧ level ["data"] ["data"; "data"; "x"] = 1%Z
  ∧ depth_under ["data"] ["data"; "data"; "x"] = 2%Z
  ∧ ["data"; "data"; "x"] ∈ scan_visited fs_nested ["data"] (Some 1%Z) st
  ∧ map fi_path
      (cataloged (scan_directory fs_nested ["data"] false (Some 1%Z) None st))
    = [["data"; "top.txt"]; ["data"; "data"; "mid.txt"];
       ["data"; "data"; "x"; "deep.txt"]].
Proof.
  cbn zeta. split; [|split; [|split; [|split]]]; try reflexivity.
  apply (bool_decide_unpack _). vm_compute. exact I.
Qed.

(** * Further properties of the code *)

(** ** The exclusion filter *)

Lemma is_relative_to_prefix p e :
  is_relative_to p e = true ↔ e `prefix_of` p.
Proof.
  revert p. induction e as [|o e IH]; intros p; simpl.
  - split; [intros _; by exists p|done].
  - destruct p as [|c p].
    + split; [done|]. intros [k Hk]. done.
    + rewrite andb_true_iff, bool_decide_eq_true, IH. split.
      * intros [-> [k ->]]. by exists k.
      * intros [k Hk]. injection Hk as -> ->. split; [done|by exists k].
Qed.

(** X1. [_is_path_excluded] answers [True] exactly for the paths that are
    equal to, or lie under, one of the configured exclusion paths; with no
    exclusion configured it answers [False] for every path. *)
Theorem is_path_excluded_iff (st : cataloger) (file_path : path) :
  (_is_path_excluded st file_path = true
   ↔ ∃ exclude_path, exclude_path ∈ exclude_paths st
                     ∧ exclude_path `prefix_of` file_path)
  ∧ (exclude_paths st = [] → _is_path_excluded st file_path = false).
Proof.
  split; [|intros H; unfold _is_path_excluded; by rewrite H].
  assert (_is_path_excluded st file_path
          = existsb (λ e, is_relative_to file_path e) (exclude_paths st)) as ->.
  { unfold _is_path_excluded. by destruct (exclude_paths st). }
  rewrite existsb_exists. split.
  - intros (e & He & Hrel). exists e.
    split; [by apply list_elem_of_In|by apply is_relative_to_prefix].
  - intros (e & He & Hrel). exists e.
    split; [by apply list_elem_of_In|by apply is_relative_to_prefix].
Qed.

Lemma is_path_excluded_iff_witness :
  _is_path_excluded (new_cataloger []) ["vol"; "a.txt"] = false.
Proof.
  apply (proj2 (is_path_excluded_iff (new_cataloger []) ["vol"; "a.txt"])).
  reflexivity.
Defined.

Lemma is_path_excluded_existsb st p :
  _is_path_excluded st p
  = existsb (λ e, is_relative_to p e) (exclude_paths st).
Proof. unfold _is_path_excluded. by destruct (exclude_paths st). Qed.

(** X2. Exclusion is inherited downwards and grows with the exclusion set:
    a path excluded under one set of exclusions is excluded, with everything
    below it, under every larger set. *)
Theorem is_path_excluded_descendants (st st' : cataloger) (p q : path) :
  (∀ e, e ∈ exclude_paths st → e ∈ exclude_paths st') →
  _is_path_excluded st p = true →
  _is_path_excluded st' (p ++ q) = true.
Proof.
  intros Hsub Hp. rewrite is_path_excluded_existsb in *.
  apply existsb_exists in Hp as (e & He & Hrel).
  apply existsb_exists. exists e. split.
  - apply list_elem_of_In, Hsub. by apply list_elem_of_In.
  - apply is_relative_to_prefix in Hrel as [k ->].
    apply is_relative_to_prefix. exists (k ++ q). by rewrite app_assoc.
Qed.

Lemma is_path_excluded_descendants_witness :
  _is_path_excluded (new_cataloger [["tmp"]; ["vol"; "skip"]])
    (["vol"; "skip"] ++ ["deep"; "c.txt"]) = true.
Proof.
  apply (is_path_excluded_descendants (new_cataloger [["vol"; "skip"]])).
  - intros e He. simpl in *. by right.
  - reflexivity.
Defined.

(** ** Loading the exclusions *)

Lemma set_add_elem p q s : p ∈ set_add q s ↔ p ∈ s ∨ p = q.
Proof.
  unfold set_add. case_bool_decide as Hq.
  - split; [by left|]. intros [H| ->]; done.
  - rewrite elem_of_app, list_elem_of_singleton. done.
Qed.

Lemma set_add_NoDup q s : NoDup s → NoDup (set_add q s).
Proof.
  intros Hs. unfold set_add. case_bool_decide as Hq; [done|].
  apply NoDup_app. split; [done|]. split.
  - intros x Hx Hx'. apply list_elem_of_singleton in Hx'. by subst.
  - apply NoDup_singleton.
Qed.

Lemma load_lines_paths resolve lines : ∀ x p,
  p ∈ x_paths (fold_left (load_line resolve) lines x)
  ↔ p ∈ x_paths x
    ∨ ∃ line, line ∈ lines ∧ exclusion_line (strip line) = true
              ∧ resolve (strip line) = Some p.
Proof.
  induction lines as [|l lines IH]; intros x p; simpl.
  - split; [by left|]. intros [H|(line & Hl & _)]; [done|].
    by apply elem_of_nil in Hl.
  - rewrite IH. unfold load_line.
    destruct (exclusion_line (strip l)) eqn:Hk;
      [destruct (resolve (strip l)) as [a|] eqn:Hr|]; cbn [x_paths].
    + rewrite set_add_elem. split.
      * intros [[H| ->]|(line & Hl & H)]; [by left| |].
        -- right. exists l. split; [by left|done].
        -- right. exists line. split; [by right|done].
      * intros [H|(line & Hl & Hk' & Hr')]; [by left; left|].
        apply elem_of_cons in Hl as [->|Hl].
        -- left. right. congruence.
        -- right. by exists line.
    + split.
      * intros [H|(line & Hl & H)]; [by left|].
        right. exists line. split; [by right|done].
      * intros [H|(line & Hl & Hk' & Hr')]; [by left|].
        apply elem_of_cons in Hl as [->|Hl]; [congruence|].
        right. by exists line.
    + split.
      * intros [H|(line & Hl & H)]; [by left|].
        right. exists line. split; [by right|done].
      * intros [H|(line & Hl & Hk' & Hr')]; [by left|].
        apply elem_of_cons in Hl as [->|Hl]; [congruence|].
        right. by exists line.
Qed.

Lemma load_lines_NoDup resolve lines : ∀ x,
  NoDup (x_paths x) → NoDup (x_paths (fold_left (load_line resolve) lines x)).
Proof.
  induction lines as [|l lines IH]; intros x Hx; simpl; [done|].
  apply IH. unfold load_line.
  destruct (exclusion_line (strip l)); [|done].
  destruct (resolve (strip l)); [|done].
  by apply set_add_NoDup.
Qed.

(** X3. Loading [folder_exclusions.txt] adds to the exclusion set exactly
    the resolved paths of its lines that, once stripped of surrounding white
    space, are neither empty nor comments (a line that cannot be resolved
    does not stop the lines after it). The set stays free of repetitions,
    and a cataloguer built with it excludes every loaded path and everything
    below it. *)
Theorem load_folder_exclusions_paths (resolve : string -> option path)
    (lines : list string) (exclude_paths : list path) :
  let x := _load_folder_exclusions resolve (Lines lines) exclude_paths in
  (∀ p, p ∈ x_paths x
        ↔ p ∈ exclude_paths
          ∨ ∃ line, line ∈ lines ∧ exclusion_line (strip line) = true
                    ∧ resolve (strip line) = Some p)
  ∧ (NoDup exclude_paths → NoDup (x_paths x))
  ∧ (∀ p q, p ∈ x_paths x →
            _is_path_excluded (new_cataloger (x_paths x)) (p ++ q) = true).
Proof.
  intros x. split; [|split].
  - intros p. unfold x, _load_folder_exclusions. by rewrite load_lines_paths.
  - intros Hnd. by apply load_lines_NoDup.
  - intros p q Hp. rewrite is_path_excluded_existsb.
    apply existsb_exists. exists p. split; [by apply list_elem_of_In|].
    apply is_relative_to_prefix. by exists q.
Qed.

Lemma load_folder_exclusions_paths_witness :
  NoDup (x_paths (_load_folder_exclusions sample_resolve
                    (Lines sample_exclusions) [["out"]]))
  ∧ _is_path_excluded
      (new_cataloger
         (x_paths (_load_folder_exclusions sample_resolve
                     (Lines sample_exclusions) [["out"]])))
      (["vol"; "skip"] ++ ["deep"; "c.txt"]) = true.
Proof.
  destruct (load_folder_exclusions_paths sample_resolve sample_exclusions
              [["out"]]) as (_ & Hnd & Hex).
  split.
  - apply Hnd. apply NoDup_singleton.
  - apply Hex. apply (bool_decide_unpack _). vm_compute. exact I.
Defined.

Lemma load_lines_errors resolve lines : ∀ x,
  let x' := fold_left (load_line resolve) lines x in
  x_errors x'
  = x_errors x
    ++ map ErrExclusionLine (List.filter (malformed resolve) (map strip lines))
  ∧ x_count x'
    = x_count x + length (List.filter (resolves resolve) (map strip lines)).
Proof.
  induction lines as [|l lines IH]; intros x; simpl.
  - by rewrite app_nil_r, Nat.add_0_r.
  - destruct (IH (load_line resolve x l)) as [He Hc].
    rewrite He, Hc. unfold load_line, malformed, resolves.
    destruct (exclusion_line (strip l)); simpl; [|done].
    destruct (resolve (strip l)) as [a|] eqn:Hr; simpl.
    + split; [done|lia].
    + split; [by rewrite <- app_assoc|done].
Qed.

Lemma load_lines_length resolve lines : ∀ x,
  let x' := fold_left (load_line resolve) lines x in
  (length (x_paths x') + x_count x ≤ length (x_paths x) + x_count x')%nat.
Proof.
  induction lines as [|l lines IH]; intros x; simpl; [done|].
  assert (length (x_paths (load_line resolve x l)) + x_count x
          ≤ length (x_paths x) + x_count (load_line resolve x l))%nat
    as Hstep.
  { unfold load_line. destruct (exclusion_line (strip l)); [|done].
    destruct (resolve (strip l)); [|done]. cbn [x_paths x_count].
    unfold set_add. case_bool_decide; [lia|].
    rewrite length_app. simpl. lia. }
  pose proof (IH (load_line resolve x l)) as H. simpl in H. lia.
Qed.

(** X4. Loading logs one error for each exclusion line that cannot be
    resolved, in the order of the file, and counts the lines that were
    loaded; the exclusion set never grows by more than that count. A missing
    file changes nothing, and a file that cannot be read logs a single error
    and leaves the set as it was. *)
Theorem load_folder_exclusions_errors (resolve : string -> option path)
    (lines : list string) (exclude_paths : list path) :
  let x := _load_folder_exclusions resolve (Lines lines) exclude_paths in
  x_errors x
  = map ErrExclusionLine (List.filter (malformed resolve) (map strip lines))
  ∧ x_count x = length (List.filter (resolves resolve) (map strip lines))
  ∧ (length (x_paths x) ≤ length exclude_paths + x_count x)%nat
  ∧ _load_folder_exclusions resolve NoFile exclude_paths
    = {| x_paths := exclude_paths; x_errors := []; x_count := 0 |}
  ∧ _load_folder_exclusions resolve Unreadable exclude_paths
    = {| x_paths := exclude_paths; x_errors := [ErrExclusionsFile];
         x_count := 0 |}.
Proof.
  intros x.
  destruct (load_lines_errors resolve lines
              {| x_paths := exclude_paths; x_errors := []; x_count := 0 |})
    as [He Hc].
  pose proof (load_lines_length resolve lines
                {| x_paths := exclude_paths; x_errors := []; x_count := 0 |})
    as Hl.
  split; [exact He|]. split; [exact Hc|]. split; [|done].
  unfold x, _load_folder_exclusions. simpl in Hl. lia.
Qed.

(** ** Invariants of the scan *)

Lemma scan_file_cases fs include_hash target st p :
  scan_file fs include_hash target st p = st
  ∨ (scan_file fs include_hash target st p = add_error (ErrAccess p) st
     ∧ scan_record fs include_hash target st p = None)
  ∨ ∃ r, scan_record fs include_hash target st p = Some r
         ∧ scan_file fs include_hash target st p = ingest r st.
Proof.
  unfold scan_file, scan_record.
  destruct (is_file fs p); [|by left].
  destruct (_is_path_excluded st p); [by left|].
  destruct (_ && _); [by left|].
  unfold get_file_info.
  destruct (fs_lookup fs p) as [[[[s|] md5]|w es]|]; simpl;
    try (right; left; done).
  right. right. eexists. split; reflexivity.
Qed.

(** Induction on the states of a scan, by what a round of the loop does:
    nothing, log an error, or ingest the record of a file. *)
Lemma scanning_steps excl (P : cataloger → Prop) :
  P (new_cataloger excl) →
  (∀ st e, P st → P (add_error e st)) →
  (∀ st r fs include_hash target p,
     P st → scan_record fs include_hash target st p = Some r →
     P (ingest r st)) →
  ∀ st, scanning excl st → P st.
Proof.
  intros Hnew Herr Hing st Hst.
  induction Hst as [|fs include_hash target st p _ IH]; [done|].
  destruct (scan_file_cases fs include_hash target st p)
    as [->|[[-> _]|(r & Hr & ->)]]; [done|by apply Herr|].
  by apply (Hing st r fs include_hash target p).
Qed.

Lemma scan_record_ok fs include_hash target st p r :
  scan_record fs include_hash target st p = Some r →
  record_ok (fi_category r) r.
Proof.
  unfold scan_record.
  destruct (is_file fs p); [|done].
  destruct (_is_path_excluded st p); [done|].
  destruct (_ && _); [done|].
  unfold get_file_info.
  destruct (fs_lookup fs p) as [[[[s|] md5]|w es]|]; simpl; try done.
  intros [= <-]. by destruct include_hash.
Qed.

Lemma catalog_append_keys category r cat :
  map fst (catalog_append category r cat)
  = if bool_decide (category ∈ map fst cat) then map fst cat
    else map fst cat ++ [category].
Proof.
  induction cat as [|[k l] rest IH]; simpl; [done|].
  destruct (decide (k = category)) as [->|Hk].
  - rewrite (bool_decide_eq_true_2 (category = category)) by done. simpl.
    rewrite bool_decide_eq_true_2; [done|by left].
  - rewrite (bool_decide_eq_false_2 (k = category)) by done. simpl.
    rewrite IH. destruct (decide (category ∈ map fst rest)) as [Hin|Hin].
    + rewrite !bool_decide_eq_true_2; [done|by right|done].
    + rewrite !bool_decide_eq_false_2; [done| |done].
      intros [->|H]%elem_of_cons; done.
Qed.

Lemma catalog_append_ok r cat :
  record_ok (fi_category r) r →
  fi_category r ∈ category_names →
  catalog_ok cat → catalog_ok (catalog_append (fi_category r) r cat).
Proof.
  intros Hr Hc [Hnd Hall]. split.
  - rewrite catalog_append_keys. case_bool_decide as Hin; [done|].
    apply NoDup_app. split; [done|]. split; [|apply NoDup_singleton].
    intros x Hx Hx'. apply list_elem_of_singleton in Hx'. by subst.
  - clear Hnd. induction cat as [|[k l] rest IH]; simpl.
    + constructor; [|done]. simpl. split; [done|]. split; [done|].
      by constructor.
    + apply Forall_cons in Hall as [(Hk & Hl & Hrs) Hall]. simpl in *.
      case_bool_decide as Hkc.
      * constructor; [|done]. simpl. split; [done|]. split.
        -- by destruct l.
        -- apply Forall_app. split; [done|]. constructor; [|done].
           by rewrite Hkc.
      * constructor; [done|]. by apply IH.
Qed.

Lemma scanning_catalog_ok (excl : list path) (st : cataloger) :
  scanning excl st → catalog_ok (catalog st).
Proof.
  apply (scanning_steps excl (λ st, catalog_ok (catalog st))).
  - split; [apply NoDup_nil_2|done].
  - done.
  - intros st0 r fs include_hash target p Hok Hr. unfold ingest. cbn [catalog].
    pose proof (scan_record_ok _ _ _ _ _ _ Hr) as Hrec.
    apply catalog_append_ok; [done| |done].
    destruct Hrec as (_ & <- & _). apply categorize_file_name.
Qed.

Lemma dict_get_elem {V} k (d : list (string * V)) v :
  NoDup (map fst d) → (k, v) ∈ d → dict_get k d = Some v.
Proof.
  induction d as [|[a b] d IH]; simpl; intros Hnd Hin.
  - by apply elem_of_nil in Hin.
  - apply NoDup_cons in Hnd as [Ha Hnd].
    apply elem_of_cons in Hin as [[= -> ->]|Hin].
    + by rewrite bool_decide_eq_true_2.
    + rewrite bool_decide_eq_false_2; [by apply IH|].
      intros ->. apply Ha. apply list_elem_of_fmap. by exists (k, v).
Qed.

(** X11. In every state of a scan the catalogue is well formed: its keys are
    distinct category names and none holds an empty list; every record is
    kept under its own category, which is the classification of its path,
    and nowhere else; the name, the parent folder and the extension of a
    record are those of its path. *)
Theorem catalog_well_formed (excl : list path) (st : cataloger) :
  scanning excl st →
  NoDup (map fst (catalog st))
  ∧ (∀ c l, (c, l) ∈ catalog st →
            c ∈ category_names ∧ l ≠ [] ∧ catalog_list c st = l)
  ∧ (∀ r, r ∈ cataloged st →
          r ∈ catalog_list (fi_category r) st
          ∧ (∀ c, r ∈ catalog_list c st → c = fi_category r)
          ∧ fi_category r = categorize_file (fi_path r)
          ∧ fi_name r = path_name (fi_path r)
          ∧ fi_parent_dir r = parent (fi_path r)
          ∧ fi_extension r = lower (suffix (fi_path r))).
Proof.
  intros Hst. destruct (scanning_catalog_ok excl st Hst) as [Hnd Hall].
  rewrite Forall_forall in Hall.
  assert (∀ c l r, (c, l) ∈ catalog st → r ∈ l → record_ok c r) as Hrec.
  { intros c l r Hin Hr. destruct (Hall _ Hin) as (_ & _ & Hl).
    rewrite Forall_forall in Hl. by apply Hl. }
  assert (∀ c r, r ∈ catalog_list c st → (c, catalog_list c st) ∈ catalog st)
    as Hkey.
  { intros c r. unfold catalog_list.
    destruct (dict_get c (catalog st)) as [l|] eqn:Hc;
      [|by intros ?%elem_of_nil].
    intros _. simpl. clear -Hc.
    induction (catalog st) as [|[a b] d IH]; simpl in Hc; [done|].
    case_bool_decide; [injection Hc as ->; subst; by left|].
    right. by apply IH. }
  split; [done|]. split.
  - intros c l Hin. destruct (Hall _ Hin) as (Hc & Hl & _).
    split; [done|]. split; [done|].
    unfold catalog_list. by rewrite (dict_get_elem c (catalog st) l).
  - intros r Hr. unfold cataloged in Hr.
    apply list_elem_of_In, in_flat_map in Hr as ([c l] & Hin & Hr).
    apply list_elem_of_In in Hin, Hr. simpl in Hr.
    destruct (Hrec c l r Hin Hr) as (Hc & Hcf & Hn & Hp & He).
    assert (catalog_list c st = l) as Hl.
    { unfold catalog_list. by rewrite (dict_get_elem c (catalog st) l). }
    split; [by rewrite Hc, Hl|]. split.
    + intros c' Hr'. pose proof (Hkey c' r Hr') as Hin'.
      by destruct (Hrec c' _ r Hin' Hr') as (-> & _).
    + by rewrite Hc, Hcf.
Qed.

Lemma catalog_well_formed_witness :
  NoDup
    (map fst
       (catalog
          (scan_file fs_demo true None
             (scan_file fs_demo true None (new_cataloger [])
                ["vol"; "praia.jpg"])
             ["vol"; "sub"; "notas.txt"]))).
Proof.
  apply (catalog_well_formed []). repeat constructor.
Defined.

Lemma dict_get_catalog_append category r cat k :
  dict_get k (catalog_append category r cat)
  = if bool_decide (category = k)
    then Some (default [] (dict_get category cat) ++ [r])
    else dict_get k cat.
Proof.
  induction cat as [|[a l] rest IH]; simpl.
  - by case_bool_decide.
  - destruct (decide (a = category)) as [->|Ha].
    + rewrite (bool_decide_eq_true_2 (category = category)) by done. simpl.
      by case_bool_decide.
    + rewrite (bool_decide_eq_false_2 (a = category)) by done. simpl.
      rewrite IH. destruct (decide (a = k)) as [->|Hk].
      * rewrite (bool_decide_eq_true_2 (k = k)) by done.
        rewrite (bool_decide_eq_false_2 (category = k)); [done|congruence].
      * by rewrite (bool_decide_eq_false_2 (a = k)) by done.
Qed.

Lemma cataloged_append_length category r cat :
  length (flat_map snd (catalog_append category r cat))
  = S (length (flat_map snd cat)).
Proof.
  induction cat as [|[k l] rest IH]; simpl; [done|].
  case_bool_decide; simpl; rewrite !length_app; simpl; [|rewrite IH]; lia.
Qed.

Lemma scanning_counts (excl : list path) (st : cataloger) :
  scanning excl st →
  (∀ c, c ∈ category_names →
        counter_get c (stats st) = Z.of_nat (length (catalog_list c st)))
  ∧ counter_get "total_files" (stats st) = Z.of_nat (length (cataloged st)).
Proof.
  apply (scanning_steps excl (λ st,
    (∀ c, c ∈ category_names →
          counter_get c (stats st) = Z.of_nat (length (catalog_list c st)))
    ∧ counter_get "total_files" (stats st)
      = Z.of_nat (length (cataloged st)))).
  - split; [intros c _|]; reflexivity.
  - done.
  - intros st0 r fs include_hash target p [Hcat Htotal] Hr.
    destruct totals_not_categories as [Hnf Hns].
    pose proof (scan_record_ok _ _ _ _ _ _ Hr) as (_ & Hcf & _).
    pose proof (categorize_file_name (fi_path r)) as Hname.
    rewrite Hcf in Hname.
    assert (fi_category r ≠ "total_files") as Hcf'
      by (intros E; by rewrite E in Hname).
    assert (fi_category r ≠ "total_size") as Hcs'
      by (intros E; by rewrite E in Hname).
    unfold ingest, catalog_list, cataloged. cbn [stats catalog]. split.
    + intros c Hc.
      assert (c ≠ "total_files") by (intros ->; done).
      assert (c ≠ "total_size") by (intros ->; done).
      rewrite !(counter_add_ne _ c) by done.
      rewrite dict_get_catalog_append.
      destruct (decide (fi_category r = c)) as [E|E].
      * rewrite bool_decide_eq_true_2 by done. rewrite E, counter_add_eq.
        rewrite (Hcat c Hc). unfold catalog_list. simpl.
        rewrite length_app. simpl. lia.
      * rewrite bool_decide_eq_false_2 by done.
        rewrite counter_add_ne by done. apply (Hcat c Hc).
    + rewrite counter_add_ne, counter_add_eq, counter_add_ne by done.
      rewrite cataloged_append_length, Htotal. unfold cataloged. lia.
Qed.

Lemma dict_get_keys {V} k (d : list (string * V)) :
  k ∈ map fst d ↔ is_Some (dict_get k d).
Proof.
  induction d as [|[a b] d IH]; simpl.
  - split; [by intros ?%elem_of_nil|by intros [? ?]].
  - rewrite elem_of_cons. case_bool_decide as Ha.
    + split; [eauto|]. intros _. by left.
    + rewrite IH. split; [intros [?|?]; [congruence|done]|by right].
Qed.

(** X12. In every state of a scan the statistics count the catalogue: the
    counter of each category is the number of records kept under it,
    [total_files] is the number of records of the whole catalogue, and a
    category is a key of the catalogue exactly when its counter is
    positive. *)
Theorem stats_count_records (excl : list path) (st : cataloger) :
  scanning excl st →
  (∀ c, c ∈ category_names →
        counter_get c (stats st) = Z.of_nat (length (catalog_list c st)))
  ∧ counter_get "total_files" (stats st) = Z.of_nat (length (cataloged st))
  ∧ (∀ c, c ∈ category_names →
          (c ∈ map fst (catalog st) ↔ (0 < counter_get c (stats st))%Z)).
Proof.
  intros Hst. destruct (scanning_counts excl st Hst) as [Hcat Htotal].
  split; [done|]. split; [done|].
  intros c Hc. rewrite (Hcat c Hc), dict_get_keys.
  destruct (scanning_catalog_ok excl st Hst) as [Hnd Hall].
  rewrite Forall_forall in Hall. unfold catalog_list.
  destruct (dict_get c (catalog st)) as [l|] eqn:Hl; simpl.
  - split; [intros _|eauto].
    assert ((c, l) ∈ catalog st) as Hin.
    { clear -Hl. induction (catalog st) as [|[a b] d IH]; simpl in Hl; [done|].
      case_bool_decide; [injection Hl as ->; subst; by left|].
      right. by apply IH. }
    destruct (Hall _ Hin) as (_ & Hne & _). simpl in Hne.
    destruct l; [done|simpl; lia].
  - split; [by intros [? ?]|lia].
Qed.

Lemma stats_count_records_witness :
  let st := scan_file fs_demo true None
              (scan_file fs_demo true None (new_cataloger [])
                 ["vol"; "praia.jpg"])
              ["vol"; "sub"; "notas.txt"] in
  counter_get "total_files" (stats st) = Z.of_nat (length (cataloged st)).
Proof.
  apply (stats_count_records []). repeat constructor.
Defined.

(** X13. In every state of a scan, [folders_with_files] is the set of the
    parent folders of the catalogued records: a folder is in it exactly when
    some record of the catalogue has it as parent. *)
Theorem folders_are_parents (excl : list path) (st : cataloger) :
  scanning excl st →
  ∀ d, d ∈ folders_with_files st
       ↔ ∃ r, r ∈ cataloged st ∧ fi_parent_dir r = d.
Proof.
  apply (scanning_steps excl (λ st,
    ∀ d, d ∈ folders_with_files st
         ↔ ∃ r, r ∈ cataloged st ∧ fi_parent_dir r = d)).
  - intros d. split; [intros H; by apply elem_of_empty in H|].
    intros (r & Hr & _). by apply elem_of_nil in Hr.
  - done.
  - intros st0 r fs include_hash target p IH Hr d.
    unfold ingest, cataloged. cbn [folders_with_files catalog].
    rewrite elem_of_union, elem_of_singleton, IH. split.
    + intros [->|(r' & Hr' & Hd)].
      * exists r. split; [|done]. apply cataloged_append. by right.
      * exists r'. split; [|done]. apply cataloged_append. by left.
    + intros (r' & Hr' & Hd). apply cataloged_append in Hr' as [Hr'| ->].
      * right. by exists r'.
      * by left.
Qed.

Lemma folders_are_parents_witness :
  ["vol"; "sub"]
  ∈ folders_with_files
      (scan_file fs_demo true None
         (scan_file fs_demo true None (new_cataloger [])
            ["vol"; "praia.jpg"])
         ["vol"; "sub"; "notas.txt"]).
Proof.
  apply (folders_are_parents []
           (scan_file fs_demo true None
              (scan_file fs_demo true None (new_cataloger [])
                 ["vol"; "praia.jpg"])
              ["vol"; "sub"; "notas.txt"])).
  - repeat constructor.
  - eexists. split.
    + apply list_elem_of_In. vm_compute. right. left. reflexivity.
    + reflexivity.
Defined.

Lemma os_walk_under prune n : ∀ top root,
  root ∈ map fst (os_walk prune top n) → top `prefix_of` root.
Proof.
  induction n as [d|w es IH] using node_ind_entries; intros top root Hin.
  - by apply elem_of_nil in Hin.
  - simpl in Hin. apply elem_of_cons in Hin as [->|Hin]; [done|].
    destruct (prune top); [by apply elem_of_nil in Hin|].
    induction es as [|[name c] rest IHrest]; simpl in Hin.
    + by apply elem_of_nil in Hin.
    + apply Forall_cons in IH as [IHc IH].
      rewrite map_app in Hin. apply elem_of_app in Hin as [Hin|Hin].
      * simpl in IHc. apply IHc in Hin. etrans; [|exact Hin].
        by apply prefix_app_r.
      * by apply IHrest.
Qed.

Lemma iterate_directories_under n : ∀ top d,
  d ∈ map fst (iterate_directories top n) → top `prefix_of` d.
Proof.
  induction n as [f|w es IH] using node_ind_entries; intros top d Hin.
  - by apply elem_of_nil in Hin.
  - simpl in Hin. apply elem_of_cons in Hin as [->|Hin]; [done|].
    induction es as [|[name c] rest IHrest]; simpl in Hin.
    + by apply elem_of_nil in Hin.
    + apply Forall_cons in IH as [IHc IH].
      rewrite map_app in Hin. apply elem_of_app in Hin as [Hin|Hin].
      * simpl in IHc. apply IHc in Hin. etrans; [|exact Hin].
        by apply prefix_app_r.
      * by apply IHrest.
Qed.

Lemma scan_candidates_under fs directory max_depth st p :
  p ∈ scan_candidates fs directory max_depth st → directory `prefix_of` p.
Proof.
  intros Hp. apply candidates_in_visited in Hp as (d & name & Hd & Hp).
  assert (directory `prefix_of` d) as Hpre.
  { unfold scan_visited in Hd.
    destruct (fs_lookup fs directory) as [n|]; [|by apply elem_of_nil in Hd].
    destruct max_depth.
    - by apply os_walk_under in Hd.
    - by apply iterate_directories_under in Hd. }
  destruct Hp as [->| ->].
  - by apply prefix_app_r.
  - unfold joinpath. case_bool_decide; [done|by apply prefix_app_r].
Qed.

(** X14. Every record that a scan of a tree catalogues describes a regular
    file of that tree under one of the scanned roots: its size and times are
    those of the file's metadata. With hashing asked for it carries the
    digest of the file, or [None] when the file could not be read (the file
    is catalogued all the same); without, it carries no hash. *)
Theorem cataloged_records_are_files fs (volumes : list path) include_hash
    max_depth filter (excl : list path) (r : file_info) :
  r ∈ cataloged (scan_multiple_volumes fs volumes include_hash max_depth
                   filter (new_cataloger excl)) →
  (∃ data s, fs_lookup fs (fi_path r) = Some (File data)
             ∧ f_stat data = Some s
             ∧ fi_size r = st_size s
             ∧ fi_modified r = st_mtime s
             ∧ fi_created r = st_ctime s
             ∧ fi_hash r = if include_hash then Some (f_md5 data) else None)
  ∧ ∃ root, root ∈ volumes ∧ root `prefix_of` fi_path r.
Proof.
  intros Hr. apply cataloged_scan_multiple in Hr as [Hr|Hr].
  { unfold cataloged in Hr. simpl in Hr. by apply elem_of_nil in Hr. }
  destruct Hr as (root & p & Hroot & Hp & Hr).
  pose proof (scan_record_fields _ _ _ _ _ _ Hr) as (<- & _).
  split; [|exists root; split; [done|by apply scan_candidates_under in Hp]].
  unfold scan_record in Hr.
  destruct (is_file fs (fi_path r)); [|done].
  destruct (_is_path_excluded _ _); [done|].
  destruct (_ && _); [done|].
  unfold get_file_info, get_file_hash in Hr.
  destruct (fs_lookup fs (fi_path r)) as [[[[s|] md5]|w es]|]; simpl in Hr;
    try done.
  injection Hr as Hr. eexists _, s. split; [done|]. split; [done|].
  rewrite <- Hr. by destruct include_hash.
Qed.

Lemma cataloged_records_are_files_witness :
  Forall (λ r, (∃ data s, fs_lookup fs_demo (fi_path r) = Some (File data)
                          ∧ f_stat data = Some s
                          ∧ fi_size r = st_size s
                          ∧ fi_modified r = st_mtime s
                          ∧ fi_created r = st_ctime s
                          ∧ fi_hash r = Some (f_md5 data))
               ∧ ∃ root, root ∈ [["vol"]] ∧ root `prefix_of` fi_path r)
    (cataloged (scan_multiple_volumes fs_demo [["vol"]] true None None
                  (new_cataloger []))).
Proof.
  apply Forall_forall. intros r Hr.
  by apply (cataloged_records_are_files fs_demo [["vol"]] true None None []).
Defined.

Lemma scan_file_empty_target fs include_hash st p :
  scan_file fs include_hash (Some []) st p = scan_file fs include_hash None st p.
Proof. reflexivity. Qed.

(** X16. A type filter restricts a scan only when it names a category with
    extensions: with a filter that is empty, not a category name, or
    "outros" (whose extension set is empty), [scan_directory] does what it
    does without a filter, where [organize_files] would refuse an unknown
    name. *)
Theorem scan_filter_without_effect fs (directory : path) include_hash
    max_depth (f : string) (st : cataloger) :
  dict_get (lower f) categories = None
  ∨ dict_get (lower f) categories = Some [] →
  scan_directory fs directory include_hash max_depth (Some f) st
  = scan_directory fs directory include_hash max_depth None st.
Proof.
  intros Hf. rewrite !scan_directory_fold.
  assert (target_extensions_of (Some f) = None
          ∨ target_extensions_of (Some f) = Some []) as [-> | ->].
  { unfold target_extensions_of.
    destruct (decide (f = "")) as [->|Hne]; [by left|].
    rewrite bool_decide_eq_false_2 by done. cbn [negb].
    destruct Hf as [Hf|Hf]; rewrite Hf; [by left|by right]. }
  - done.
  - generalize (scan_candidates fs directory max_depth st). intros files.
    revert st. induction files as [|p files IH]; intros st; simpl; [done|].
    by rewrite scan_file_empty_target, IH.
Qed.

Lemma scan_filter_without_effect_witness :
  scan_directory fs_demo ["vol"] true None (Some "videos") (new_cataloger [])
  = scan_directory fs_demo ["vol"] true None None (new_cataloger [])
  ∧ scan_directory fs_demo ["vol"] true None (Some "Outros") (new_cataloger [])
    = scan_directory fs_demo ["vol"] true None None (new_cataloger []).
Proof.
  split.
  - apply scan_filter_without_effect. left. reflexivity.
  - apply scan_filter_without_effect. right. reflexivity.
Defined.

(** ** The error log *)

Lemma fold_scan_file_errors_prefix fs include_hash target files st :
  errors st
  `prefix_of` errors (fold_left (scan_file fs include_hash target) files st).
Proof.
  revert st. induction files as [|p files IH]; intros st; simpl; [done|].
  etrans; [|apply IH].
  destruct (scan_file_cases fs include_hash target st p)
    as [->|[[-> _]|(r & _ & ->)]]; [done|by apply prefix_app_r|done].
Qed.

Lemma process_file_errors_prefix io src dst copy_files st fs :
  errors st `prefix_of` errors (_process_file io src dst copy_files st fs).1.2.
Proof.
  unfold _process_file.
  destruct (negb copy_files && _); [by apply prefix_app_r|].
  destruct (negb (access_w _ _)); [by apply prefix_app_r|].
  destruct (if copy_files then _ else _); simpl; [by apply prefix_app_r|done].
Qed.

Lemma organize_file_errors_prefix io copy_files dry_run category_dir acc r :
  errors acc.1
  `prefix_of` errors (organize_file io copy_files dry_run category_dir acc r).1.
Proof.
  destruct acc as [st fs]. unfold organize_file.
  destruct (negb (path_exists fs (fi_path r))); [by apply prefix_app_r|].
  destruct dry_run; [done|].
  pose proof (process_file_errors_prefix io (fi_path r)
    (unique_dst (S (dir_size fs category_dir)) fs false category_dir
       (fi_path r) 1 (joinpath category_dir (path_name (fi_path r))))
    copy_files st fs) as H.
  destruct (_process_file _ _ _ _ _ _) as [[success st'] fs']. simpl in H.
  by destruct success.
Qed.

Lemma organize_files_loop_errors_prefix io copy_files dry_run category_dir files :
  ∀ acc,
  errors acc.1
  `prefix_of` errors (fold_left (organize_file io copy_files dry_run
                                   category_dir) files acc).1.
Proof.
  induction files as [|r files IH]; intros acc; cbn [fold_left]; [done|].
  etrans; [|apply IH]. apply organize_file_errors_prefix.
Qed.

Lemma organize_category_errors_prefix io copy_files dry_run base_path
    move_to_dir acc item :
  errors acc.1
  `prefix_of` errors (organize_category io copy_files dry_run base_path
                        move_to_dir acc item).1.
Proof.
  destruct acc as [st fs], item as [category files]. unfold organize_category.
  destruct files as [|r files]; [done|].
  destruct dry_run;
    [apply (organize_files_loop_errors_prefix _ _ _ _ _ (st, fs))|].
  destruct (mkdir_p _ _) as [e|fs']; [by apply prefix_app_r|].
  apply (organize_files_loop_errors_prefix _ _ _ _ _ (st, fs')).
Qed.

Lemma organize_categories_errors_prefix io copy_files dry_run base_path
    move_to_dir items : ∀ acc,
  errors acc.1
  `prefix_of` errors (fold_left (organize_category io copy_files dry_run
                                   base_path move_to_dir) items acc).1.
Proof.
  induction items as [|i items IH]; intros acc; cbn [fold_left]; [done|].
  etrans; [|apply IH]. apply organize_category_errors_prefix.
Qed.

(** X18. The error log is append-only: what [scan_multiple_volumes] and
    [organize_files] return has the log they were given as a prefix; no
    entry is removed, changed or reordered. *)
Theorem errors_append_only :
  (∀ fs volumes include_hash max_depth filter st,
     errors st
     `prefix_of` errors (scan_multiple_volumes fs volumes include_hash
                           max_depth filter st))
  ∧ (∀ io base_output_dir copy_files dry_run file_type_filter move_to_dir
       st fs,
       errors st
       `prefix_of` errors (organize_files io base_output_dir copy_files
                             dry_run file_type_filter move_to_dir st fs).1).
Proof.
  split.
  - intros fs volumes include_hash max_depth filter.
    unfold scan_multiple_volumes.
    induction volumes as [|v volumes IH]; intros st; simpl; [done|].
    etrans; [|apply IH]. rewrite scan_directory_fold.
    apply fold_scan_file_errors_prefix.
  - intros io base_output_dir copy_files dry_run file_type_filter move_to_dir
      st fs.
    unfold organize_files.
    destruct file_type_filter as [f|].
    + case_bool_decide.
      * apply (organize_categories_errors_prefix _ _ _ _ _ _
                 (set_operation_stats op_stats_zero st, fs)).
      * destruct (dict_get (lower f) categories); [|done].
        apply (organize_categories_errors_prefix _ _ _ _ _ _
                 (set_catalog _ (set_operation_stats op_stats_zero st), fs)).
    + apply (organize_categories_errors_prefix _ _ _ _ _ _
               (set_operation_stats op_stats_zero st, fs)).
Qed.

(** ** Accounts of the organiser *)

Lemma catalog_touch_get k cat :
  default [] (dict_get k (catalog_touch k cat)) = default [] (dict_get k cat).
Proof.
  unfold catalog_touch. destruct (dict_get k cat) as [l|] eqn:Hk; [by rewrite Hk|].
  induction cat as [|[a l] rest IH]; simpl in *.
  - by rewrite bool_decide_eq_true_2.
  - case_bool_decide; [done|]. by apply IH.
Qed.

(** [organize_files] is its loop over [organize_items], from
    [organize_start]. *)
Lemma organize_files_fold io base_output_dir copy_files dry_run
    file_type_filter move_to_dir st fs :
  organize_files io base_output_dir copy_files dry_run file_type_filter
    move_to_dir st fs
  = fold_left
      (organize_category io copy_files dry_run
         (base_path_of base_output_dir move_to_dir) move_to_dir)
      (organize_items file_type_filter st)
      (organize_start file_type_filter st, fs).
Proof.
  unfold organize_files, organize_items, organize_start, base_path_of.
  destruct file_type_filter as [f|]; [|done].
  case_bool_decide; [done|].
  destruct (dict_get (lower f) categories); [|done].
  cbn [catalog set_catalog set_operation_stats].
  by rewrite catalog_touch_get.
Qed.

Lemma organize_file_dry io copy_files category_dir st fs r :
  organize_file io copy_files true category_dir (st, fs) r
  = (if source_exists fs r then count_successful st
     else count_failed (add_error (ErrSourceMissing (fi_path r)) st), fs).
Proof.
  unfold organize_file, source_exists.
  by destruct (path_exists fs (fi_path r)).
Qed.

Lemma organize_loop_dry io copy_files category_dir fs files : ∀ st,
  let st' := (fold_left (organize_file io copy_files true category_dir)
                files (st, fs)).1 in
  successful st'
  = (successful st + Z.of_nat (length (List.filter (source_exists fs) files)))%Z
  ∧ failed st'
    = (failed st + Z.of_nat (length (List.filter (source_missing fs) files)))%Z
  ∧ errors st'
    = errors st ++ map (λ r, ErrSourceMissing (fi_path r))
                       (List.filter (source_missing fs) files).
Proof.
  induction files as [|r files IH]; intros st; cbn [fold_left].
  - simpl. rewrite app_nil_r. repeat split; lia.
  - rewrite organize_file_dry. cbn zeta in IH. cbn [List.filter].
    assert (source_missing fs r = negb (source_exists fs r)) as -> by done.
    destruct (source_exists fs r); cbn [negb length map].
    + destruct (IH (count_successful st)) as (Hs & Hf & He).
      rewrite Hs, Hf, He. unfold successful, failed.
      cbn [count_successful set_operation_stats operation_stats
           successful_operations failed_operations errors].
      repeat split; lia.
    + destruct (IH (count_failed (add_error (ErrSourceMissing (fi_path r)) st)))
        as (Hs & Hf & He).
      rewrite Hs, Hf, He. unfold successful, failed.
      cbn [count_failed set_operation_stats operation_stats add_error
           successful_operations failed_operations errors].
      rewrite <- app_assoc. repeat split; lia.
Qed.

Lemma organize_items_dry io copy_files base_path move_to_dir fs items : ∀ st,
  let st' := (fold_left
                (organize_category io copy_files true base_path move_to_dir)
                items (st, fs)).1 in
  successful st'
  = (successful st
     + Z.of_nat (length (List.filter (source_exists fs) (flat_map snd items))))%Z
  ∧ failed st'
    = (failed st
       + Z.of_nat (length (List.filter (source_missing fs)
                             (flat_map snd items))))%Z
  ∧ errors st'
    = errors st ++ map (λ r, ErrSourceMissing (fi_path r))
                       (List.filter (source_missing fs) (flat_map snd items)).
Proof.
  induction items as [|[category files] items IH]; intros st; cbn [fold_left].
  - simpl. rewrite app_nil_r. repeat split; lia.
  - cbn zeta in IH. cbn [flat_map snd].
    rewrite !List.filter_app, !length_app, map_app.
    assert (organize_category io copy_files true base_path move_to_dir
              (st, fs) (category, files)
            = fold_left (organize_file io copy_files true
                           (category_dir_of base_path move_to_dir category))
                files (st, fs)) as ->.
    { unfold organize_category. by destruct files. }
    pose proof (organize_loop_dry io copy_files
                  (category_dir_of base_path move_to_dir category) fs files st)
      as (Hs & Hf & He).
    pose proof (organize_files_loop_dry_run io copy_files
                  (category_dir_of base_path move_to_dir category) files
                  (st, fs)) as Hfs.
    destruct (fold_left _ files (st, fs)) as [st1 fs1]. simpl in *. subst fs1.
    destruct (IH st1) as (Hs' & Hf' & He').
    rewrite Hs', Hf', He', Hs, Hf, He, <- app_assoc.
    repeat split; lia.
Qed.

(** X20. A dry run counts as successful every record in its scope whose
    source still exists and as failed every record whose source is gone, and
    it logs one "source not found" error for each of the latter, in order.
    Its scope is the whole catalogue, or the one category that the filter
    names, or nothing when the filter is not a category name. *)
Theorem dry_run_accounting io (base_output_dir : path) (copy_files : bool)
    (file_type_filter : option string) (move_to_dir : option path)
    (st : cataloger) (fs : node) :
  let st' := (organize_files io base_output_dir copy_files true
                file_type_filter move_to_dir st fs).1 in
  let scope := organize_scope file_type_filter st in
  successful_operations (operation_stats st')
  = Z.of_nat (length (List.filter (source_exists fs) scope))
  ∧ failed_operations (operation_stats st')
    = Z.of_nat (length (List.filter (source_missing fs) scope))
  ∧ errors st'
    = errors st ++ map (λ r, ErrSourceMissing (fi_path r))
                       (List.filter (source_missing fs) scope)
  ∧ (successful_operations (operation_stats st')
     + failed_operations (operation_stats st'))%Z
    = Z.of_nat (length scope).
Proof.
  intros st' scope. unfold st', scope, organize_scope.
  rewrite organize_files_fold.
  destruct (organize_items_dry io copy_files
              (base_path_of base_output_dir move_to_dir) move_to_dir fs
              (organize_items file_type_filter st)
              (organize_start file_type_filter st)) as (Hs & Hf & He).
  assert (successful (organize_start file_type_filter st) = 0%Z
          ∧ failed (organize_start file_type_filter st) = 0%Z
          ∧ errors (organize_start file_type_filter st) = errors st)
    as (Hs0 & Hf0 & He0).
  { unfold organize_start. destruct file_type_filter as [f|]; [|done].
    case_bool_decide; [done|].
    by destruct (dict_get (lower f) categories). }
  unfold successful, failed in *.
  rewrite Hs, Hf, He, Hs0, Hf0, He0.
  split; [lia|]. split; [lia|]. split; [done|].
  generalize (flat_map snd (organize_items file_type_filter st)).
  intros l. induction l as [|r l IH]; simpl; [done|].
  unfold source_missing, source_exists in *.
  destruct (path_exists fs (fi_path r)); simpl; lia.
Qed.

Lemma process_file_result io src dst copy_files st fs :
  let res := _process_file io src dst copy_files st fs in
  (res.1.1 = true ∧ res.1.2 = st)
  ∨ (res.1.1 = false ∧ res.2 = fs ∧ ∃ e, res.1.2 = add_error e st).
Proof.
  unfold _process_file.
  destruct (negb copy_files && _); [right; eauto|].
  destruct (negb (access_w _ _)); [right; eauto|].
  destruct (if copy_files then _ else _); simpl; [right; eauto|by left].
Qed.

(** What one round of the loop over the files does to the cataloguer: it
    counts the file as successful and logs nothing, or counts it as failed
    and logs one error. *)
Lemma organize_file_step io copy_files dry_run category_dir st fs r :
  let st' := (organize_file io copy_files dry_run category_dir (st, fs) r).1 in
  st' = count_successful st ∨ ∃ e, st' = count_failed (add_error e st).
Proof.
  unfold organize_file.
  destruct (negb (path_exists fs (fi_path r))); [right; eauto|].
  destruct dry_run; [by left|].
  pose proof (process_file_result io (fi_path r)
    (unique_dst (S (dir_size fs category_dir)) fs false category_dir
       (fi_path r) 1 (joinpath category_dir (path_name (fi_path r))))
    copy_files st fs) as H.
  destruct (_process_file _ _ _ _ _ _) as [[success st'] fs']. simpl in H.
  destruct H as [[-> ->]|(-> & _ & e & ->)]; [by left|right; eauto].
Qed.

Lemma organize_file_account io copy_files dry_run category_dir st fs r :
  let st' := (organize_file io copy_files dry_run category_dir (st, fs) r).1 in
  counted st' = (counted st + 1)%Z
  ∧ (successful st ≤ successful st')%Z
  ∧ (failed st ≤ failed st')%Z
  ∧ other_errors st' = other_errors st.
Proof.
  intros st'.
  destruct (organize_file_step io copy_files dry_run category_dir st fs r)
    as [H|[e H]]; fold st' in H; rewrite H;
    unfold counted, other_errors, successful, failed; simpl;
    rewrite ?length_app; simpl; repeat split; lia.
Qed.

Lemma organize_loop_account io copy_files dry_run category_dir files :
  ∀ st fs,
  let st' := (fold_left (organize_file io copy_files dry_run category_dir)
                files (st, fs)).1 in
  counted st' = (counted st + Z.of_nat (length files))%Z
  ∧ (successful st ≤ successful st')%Z
  ∧ (failed st ≤ failed st')%Z
  ∧ other_errors st' = other_errors st.
Proof.
  induction files as [|r files IH]; intros st fs; cbn [fold_left].
  - simpl. repeat split; lia.
  - pose proof (organize_file_account io copy_files dry_run category_dir
                  st fs r) as (H1 & H2 & H3 & H4).
    destruct (organize_file io copy_files dry_run category_dir (st, fs) r)
      as [st1 fs1]. simpl in H1, H2, H3, H4.
    destruct (IH st1 fs1) as (I1 & I2 & I3 & I4).
    cbn zeta. rewrite I1, I4, H1, H4. cbn [length].
    repeat split; lia.
Qed.

Lemma organize_items_account io copy_files dry_run base_path move_to_dir items :
  ∀ st fs,
  let st' := (fold_left
                (organize_category io copy_files dry_run base_path
                   move_to_dir) items (st, fs)).1 in
  (counted st ≤ counted st'
   ≤ counted st + Z.of_nat (length (flat_map snd items)))%Z
  ∧ (successful st ≤ successful st')%Z
  ∧ (failed st ≤ failed st')%Z
  ∧ (other_errors st ≤ other_errors st'
     ≤ other_errors st + Z.of_nat (length items))%Z.
Proof.
  induction items as [|[category files] items IH]; intros st fs;
    cbn [fold_left].
  - simpl. repeat split; lia.
  - assert (∃ st1 fs1,
      organize_category io copy_files dry_run base_path move_to_dir (st, fs)
        (category, files) = (st1, fs1)
      ∧ (counted st ≤ counted st1 ≤ counted st + Z.of_nat (length files))%Z
      ∧ (successful st ≤ successful st1)%Z
      ∧ (failed st ≤ failed st1)%Z
      ∧ (other_errors st ≤ other_errors st1 ≤ other_errors st + 1)%Z)
      as (st1 & fs1 & -> & H1 & H2 & H3 & H4).
    { unfold organize_category.
      destruct files as [|r files]; [exists st, fs; repeat split; simpl; lia|].
      set (dir := category_dir_of base_path move_to_dir category).
      assert (∀ fs0, ∃ st1 fs1,
        fold_left (organize_file io copy_files dry_run dir) (r :: files)
          (st, fs0) = (st1, fs1)
        ∧ (counted st ≤ counted st1
           ≤ counted st + Z.of_nat (length (r :: files)))%Z
        ∧ (successful st ≤ successful st1)%Z
        ∧ (failed st ≤ failed st1)%Z
        ∧ (other_errors st ≤ other_errors st1 ≤ other_errors st + 1)%Z)
        as Hloop.
      { intros fs0.
        pose proof (organize_loop_account io copy_files dry_run dir
                      (r :: files) st fs0) as (L1 & L2 & L3 & L4).
        destruct (fold_left _ (r :: files) (st, fs0)) as [st1 fs1].
        exists st1, fs1. simpl in L1, L2, L3, L4.
        split; [done|]. rewrite L1, L4. simpl. repeat split; lia. }
      destruct dry_run; [apply Hloop|].
      destruct (mkdir_p fs dir) as [e|fs']; [|apply Hloop].
      eexists _, _. split; [done|].
      unfold counted, other_errors, successful, failed. simpl.
      rewrite length_app. simpl. repeat split; lia. }
    destruct (IH st1 fs1) as (I1 & I2 & I3 & I4). cbn zeta.
    cbn [flat_map snd length]. rewrite length_app.
    repeat split; lia.
Qed.

(** X21. Whatever the mode, a call of [organize_files] counts each record
    of its scope at most once, as successful or as failed, and never under
    zero; every failed operation has its error in the log, and beyond those
    the call logs at most one error for each category it goes through (the
    directory that could not be created). *)
Theorem organize_accounting io (base_output_dir : path)
    (copy_files dry_run : bool) (file_type_filter : option string)
    (move_to_dir : option path) (st : cataloger) (fs : node) :
  let st' := (organize_files io base_output_dir copy_files dry_run
                file_type_filter move_to_dir st fs).1 in
  let s := successful_operations (operation_stats st') in
  let f := failed_operations (operation_stats st') in
  (0 ≤ s)%Z ∧ (0 ≤ f)%Z
  ∧ (s + f ≤ Z.of_nat (length (organize_scope file_type_filter st)))%Z
  ∧ (Z.of_nat (length (errors st)) + f
     ≤ Z.of_nat (length (errors st'))
     ≤ Z.of_nat (length (errors st)) + f
       + Z.of_nat (length (organize_items file_type_filter st)))%Z.
Proof.
  intros st' s f. unfold s, f, st'. rewrite organize_files_fold.
  destruct (organize_items_account io copy_files dry_run
              (base_path_of base_output_dir move_to_dir) move_to_dir
              (organize_items file_type_filter st)
              (organize_start file_type_filter st) fs)
    as (H1 & H2 & H3 & H4).
  assert (successful (organize_start file_type_filter st) = 0%Z
          ∧ failed (organize_start file_type_filter st) = 0%Z
          ∧ errors (organize_start file_type_filter st) = errors st)
    as (Hs0 & Hf0 & He0).
  { unfold organize_start. destruct file_type_filter as [g|]; [|done].
    case_bool_decide; [done|].
    by destruct (dict_get (lower g) categories). }
  unfold counted, other_errors in *. rewrite Hs0, Hf0, He0 in *.
  unfold successful, failed, organize_scope in *.
  repeat split; lia.
Qed.

Lemma organize_category_empty io copy_files dry_run base_path move_to_dir acc
    category :
  organize_category io copy_files dry_run base_path move_to_dir acc
    (category, []) = acc.
Proof. by destruct acc. Qed.

Lemma flat_map_snd_nil {A B} (items : list (A * list B)) :
  flat_map snd items = [] → Forall (λ item, item.2 = []) items.
Proof.
  induction items as [|[a l] items IH]; simpl; [done|].
  intros [-> H]%app_eq_nil. constructor; [done|by apply IH].
Qed.

(** X19. A call of [organize_files] that has nothing in its scope (an empty
    catalogue, a filter that is not a category name, or a category without
    records) does nothing, in any mode: the file system is untouched (not
    even the destination directory is created), nothing is logged, and the
    counters are 0. *)
Theorem organize_nothing io (base_output_dir : path)
    (copy_files dry_run : bool) (file_type_filter : option string)
    (move_to_dir : option path) (st : cataloger) (fs : node) :
  organize_scope file_type_filter st = [] →
  let after := organize_files io base_output_dir copy_files dry_run
                 file_type_filter move_to_dir st fs in
  after.2 = fs
  ∧ errors after.1 = errors st
  ∧ operation_stats after.1 = op_stats_zero.
Proof.
  intros Hscope after. unfold after. rewrite organize_files_fold.
  apply flat_map_snd_nil in Hscope.
  assert (operation_stats (organize_start file_type_filter st) = op_stats_zero
          ∧ errors (organize_start file_type_filter st) = errors st)
    as [Ho He].
  { unfold organize_start. destruct file_type_filter as [g|]; [|done].
    case_bool_decide; [done|].
    by destruct (dict_get (lower g) categories). }
  rewrite <- Ho, <- He.
  generalize (organize_start file_type_filter st). intros st0.
  induction Hscope as [|[category files] items Hnil _ IH]; [done|].
  cbn [fold_left]. simpl in Hnil. subst files.
  by rewrite organize_category_empty.
Qed.

Lemma organize_nothing_witness :
  let after := organize_files no_fault ["out"] true false (Some "videos")
                 None twins fs_twins in
  after.2 = fs_twins
  ∧ errors after.1 = errors twins
  ∧ operation_stats after.1 = op_stats_zero.
Proof.
  apply (organize_nothing no_fault ["out"] true false (Some "videos") None).
  reflexivity.
Defined.

Lemma process_file_scan_fields io src dst copy_files st fs :
  scan_fields (_process_file io src dst copy_files st fs).1.2 = scan_fields st.
Proof.
  destruct (process_file_result io src dst copy_files st fs)
    as [[_ ->]|(_ & _ & e & ->)]; done.
Qed.

Lemma organize_file_scan_fields io copy_files dry_run category_dir st fs r :
  scan_fields (organize_file io copy_files dry_run category_dir (st, fs) r).1
  = scan_fields st.
Proof.
  destruct (organize_file_step io copy_files dry_run category_dir st fs r)
    as [->|[e ->]]; done.
Qed.

Lemma organize_loop_scan_fields io copy_files dry_run category_dir files :
  ∀ st fs,
  scan_fields (fold_left (organize_file io copy_files dry_run category_dir)
                 files (st, fs)).1
  = scan_fields st.
Proof.
  induction files as [|r files IH]; intros st fs; cbn [fold_left]; [done|].
  pose proof (organize_file_scan_fields io copy_files dry_run category_dir
                st fs r) as H.
  destruct (organize_file io copy_files dry_run category_dir (st, fs) r)
    as [st1 fs1]. simpl in H. by rewrite IH.
Qed.

Lemma organize_items_scan_fields io copy_files dry_run base_path move_to_dir
    items : ∀ st fs,
  scan_fields (fold_left
                 (organize_category io copy_files dry_run base_path
                    move_to_dir) items (st, fs)).1
  = scan_fields st.
Proof.
  induction items as [|[category files] items IH]; intros st fs;
    cbn [fold_left]; [done|].
  assert (scan_fields (organize_category io copy_files dry_run base_path
                         move_to_dir (st, fs) (category, files)).1
          = scan_fields st) as H.
  { unfold organize_category. destruct files as [|r files]; [done|].
    destruct dry_run; [apply organize_loop_scan_fields|].
    destruct (mkdir_p _ _); [done|apply organize_loop_scan_fields]. }
  destruct (organize_category _ _ _ _ _ _ _) as [st1 fs1]. simpl in H.
  by rewrite IH.
Qed.

Lemma catalog_touch_records k cat :
  flat_map snd (catalog_touch k cat) = flat_map snd cat
  ∧ ∀ c, default [] (dict_get c (catalog_touch k cat))
         = default [] (dict_get c cat).
Proof.
  unfold catalog_touch. destruct (dict_get k cat) as [l|] eqn:Hk; [done|].
  split.
  - rewrite flat_map_app. simpl. by rewrite app_nil_r.
  - intros c. clear Hk. induction cat as [|[a l] rest IH]; simpl.
    + by case_bool_decide.
    + by case_bool_decide.
Qed.

(** X22. The organiser reads the catalogue and never changes what the scan
    built: after any call of [organize_files] the records of the catalogue
    and the list of every category are the same, and so are the statistics,
    the exclusion set and the set of folders. (With a filter, the key of the
    filter may be added to the catalogue with an empty list.) *)
Theorem organize_keeps_scan_results io (base_output_dir : path)
    (copy_files dry_run : bool) (file_type_filter : option string)
    (move_to_dir : option path) (st : cataloger) (fs : node) :
  let st' := (organize_files io base_output_dir copy_files dry_run
                file_type_filter move_to_dir st fs).1 in
  cataloged st' = cataloged st
  ∧ (∀ c, catalog_list c st' = catalog_list c st)
  ∧ stats st' = stats st
  ∧ exclude_paths st' = exclude_paths st
  ∧ folders_with_files st' = folders_with_files st
  ∧ (file_type_filter = None → catalog st' = catalog st).
Proof.
  intros st'. unfold st'. rewrite organize_files_fold.
  pose proof (organize_items_scan_fields io copy_files dry_run
                (base_path_of base_output_dir move_to_dir) move_to_dir
                (organize_items file_type_filter st)
                (organize_start file_type_filter st) fs) as H.
  set (final := (fold_left _ _ _).1) in *.
  unfold scan_fields in H. injection H as Hc Hs He Hf.
  unfold cataloged, catalog_list. rewrite Hc, Hs, He, Hf.
  unfold organize_start.
  destruct file_type_filter as [g|]; [|done].
  case_bool_decide; [done|].
  destruct (dict_get (lower g) categories); [|done].
  cbn [catalog stats exclude_paths folders_with_files set_catalog
       set_operation_stats].
  destruct (catalog_touch_records (lower g) (catalog st)) as [H1 H2].
  by rewrite H1.
Qed.

(** ** Where the organiser writes *)

Lemma fs_lookup_file_nil data q d :
  fs_lookup (File data) q = Some (File d) → q = [].
Proof. by destruct q. Qed.

Lemma fs_put_only_there p : ∀ fs data fs' q d,
  fs_put fs p (File data) = Some fs' →
  fs_lookup fs' q = Some (File d) →
  q = p ∨ fs_lookup fs q = Some (File d).
Proof.
  induction p as [|name rest IH]; intros fs data fs' q d Hput Hq;
    simpl in Hput.
  - injection Hput as <-. left. by apply fs_lookup_file_nil in Hq.
  - destruct fs as [f|w es]; [done|].
    destruct rest as [|r rest].
    + injection Hput as <-. destruct q as [|k q]; [done|].
      simpl in Hq. rewrite dict_get_set in Hq. simpl.
      case_bool_decide as Hk; [|by right]. subst k.
      apply fs_lookup_file_nil in Hq as ->. by left.
    + destruct (dict_get name es) as [c|] eqn:Hc; [|done].
      destruct (fs_put c (r :: rest) (File data)) as [c'|] eqn:Hc'; [|done].
      injection Hput as <-. destruct q as [|k q]; [done|].
      cbn [fs_lookup] in Hq |- *. rewrite dict_get_set in Hq.
      case_bool_decide as Hk; [|by right]. subst k. rewrite Hc.
      destruct (IH c data c' q d Hc' Hq) as [->|H]; [by left|by right].
Qed.

Lemma fs_put_keeps_paths p : ∀ fs new fs' q,
  fs_put fs p new = Some fs' →
  fs_lookup fs p = None →
  path_exists fs q = true → path_exists fs' q = true.
Proof.
  unfold path_exists.
  induction p as [|name rest IH]; intros fs new fs' q Hput Hnone Hq; [done|].
  destruct fs as [f|w es]; [done|]. simpl in Hput, Hnone.
  destruct q as [|k q]; [done|]. simpl in Hq.
  destruct rest as [|r rest].
  - injection Hput as <-. simpl. rewrite dict_get_set.
    case_bool_decide as Hk; [|done]. subst k.
    by destruct (dict_get name es).
  - destruct (dict_get name es) as [c|] eqn:Hc; [|done].
    destruct (fs_put c (r :: rest) new) as [c'|] eqn:Hc'; [|done].
    injection Hput as <-. cbn [fs_lookup]. rewrite dict_get_set.
    case_bool_decide as Hk; [|done]. subst k. rewrite Hc in Hq.
    by apply (IH c new c').
Qed.

Lemma fresh_dirs_no_files p : ∀ q d,
  fs_lookup (fresh_dirs p) q ≠ Some (File d).
Proof.
  induction p as [|name rest IH]; intros [|k q] d; simpl; try done.
  case_bool_decide; [apply IH|done].
Qed.

Lemma fresh_dirs_is_dir p : ∃ es, fs_lookup (fresh_dirs p) p = Some (Dir true es).
Proof.
  induction p as [|name rest IH]; simpl; [by eexists|].
  by rewrite bool_decide_eq_true_2.
Qed.

Lemma mkdir_p_no_new_files p : ∀ fs fs' q d,
  mkdir_p fs p = inr fs' →
  fs_lookup fs' q = Some (File d) →
  fs_lookup fs q = Some (File d).
Proof.
  induction p as [|name rest IH]; intros fs fs' q d Hmk Hq; simpl in Hmk.
  - destruct fs; [done|]. by injection Hmk as <-.
  - destruct fs as [f|w es]; [done|].
    destruct (dict_get name es) as [c|] eqn:Hc.
    + destruct (mkdir_p c rest) as [e|c'] eqn:Hc'; [done|].
      injection Hmk as <-. destruct q as [|k q]; [done|].
      simpl in Hq |- *. rewrite dict_get_set in Hq.
      case_bool_decide as Hk; [|done]. subst k. rewrite Hc.
      by apply (IH c c').
    + destruct w; [|done]. injection Hmk as <-.
      destruct q as [|k q]; [done|].
      simpl in Hq |- *. rewrite dict_get_set in Hq.
      case_bool_decide as Hk; [|done]. subst k.
      by apply fresh_dirs_no_files in Hq.
Qed.

Lemma mkdir_p_is_dir p : ∀ fs fs',
  mkdir_p fs p = inr fs' → is_dir fs' p = true.
Proof.
  unfold is_dir.
  induction p as [|name rest IH]; intros fs fs' Hmk; simpl in Hmk.
  - destruct fs; [done|]. by injection Hmk as <-.
  - destruct fs as [f|w es]; [done|].
    destruct (dict_get name es) as [c|] eqn:Hc.
    + destruct (mkdir_p c rest) as [e|c'] eqn:Hc'; [done|].
      injection Hmk as <-. simpl. rewrite dict_get_set.
      rewrite bool_decide_eq_true_2 by done. by apply (IH c).
    + destruct w; [|done]. injection Hmk as <-. simpl. rewrite dict_get_set.
      rewrite bool_decide_eq_true_2 by done.
      by destruct (fresh_dirs_is_dir rest) as [es' ->].
Qed.

(** The destination of a file in a directory that exists is an entry of
    that directory. *)
Lemma unique_dst_entry fs category_dir src_path :
  path_exists fs category_dir = true →
  ∃ name,
    unique_dst (S (dir_size fs category_dir)) fs false category_dir src_path
      1 (joinpath category_dir (path_name src_path))
    = category_dir ++ [name].
Proof.
  intros Hdir.
  destruct (unique_dst_spec (S (dir_size fs category_dir)) fs category_dir
              src_path 1 (joinpath category_dir (path_name src_path)))
    as [[Hn ->]|[(_ & k & _ & -> & _)|[_ Hall]]].
  - unfold joinpath in *. case_bool_decide; [congruence|by eexists].
  - rewrite numbered_joinpath. by eexists.
  - by apply numbered_not_all_taken in Hall.
Qed.

Lemma copy2_free_put io fs src dst fs' :
  path_exists fs dst = false →
  copy2 io fs src dst = inr fs' →
  ∃ data, fs_put fs dst (File data) = Some fs'
          ∧ fs_lookup fs dst = None.
Proof.
  intros Hfree Hcopy. unfold copy2 in Hcopy.
  destruct (io src dst); [done|].
  destruct (fs_lookup fs src) as [[data|w es]|]; [|done|done].
  destruct (f_md5 data); [|done].
  assert (fs_lookup fs dst = None) as Hnone.
  { unfold path_exists in Hfree. by destruct (fs_lookup fs dst). }
  unfold is_dir in Hcopy. rewrite Hnone in Hcopy.
  case_bool_decide; [done|].
  unfold fs_write in Hcopy.
  destruct (fs_lookup fs (parent dst)) as [[f|w es]|]; [done| |done].
  destruct (path_exists fs dst || w); [|done].
  destruct (fs_put fs dst (File data)) as [fs1|] eqn:Hput; [|done].
  injection Hcopy as <-. by exists data.
Qed.

Lemma organize_file_copy_writes io category_dir st fs r :
  path_exists fs category_dir = true →
  let fs' := (organize_file io true false category_dir (st, fs) r).2 in
  new_files_in [category_dir] fs fs'
  ∧ path_exists fs' category_dir = true.
Proof.
  intros Hdir. unfold organize_file.
  destruct (negb (path_exists fs (fi_path r))); [split; [by left|done]|].
  pose proof (unique_dst_free fs category_dir (fi_path r)) as Hfree.
  destruct (unique_dst_entry fs category_dir (fi_path r) Hdir) as [name Hname].
  set (dst := unique_dst _ _ _ _ _ _ _) in *.
  unfold _process_file. simpl.
  destruct (negb (access_w fs (parent dst))); [split; [by left|done]|].
  destruct (copy2 io fs (fi_path r) dst) as [e|fs'] eqn:Hcopy;
    [split; [by left|done]|].
  simpl. apply copy2_free_put in Hcopy as (data & Hput & Hnone); [|done].
  split.
  - intros q d Hq.
    destruct (fs_put_only_there dst fs data fs' q d Hput Hq) as [->|H];
      [|by left].
    right. exists category_dir, name. split; [by left|done].
  - by apply (fs_put_keeps_paths dst fs (File data) fs').
Qed.

Lemma organize_loop_copy_writes io category_dir files : ∀ st fs,
  path_exists fs category_dir = true →
  new_files_in [category_dir] fs
    (fold_left (organize_file io true false category_dir) files (st, fs)).2.
Proof.
  induction files as [|r files IH]; intros st fs Hdir; cbn [fold_left];
    [by left|].
  pose proof (organize_file_copy_writes io category_dir st fs r Hdir)
    as [H1 H2].
  destruct (organize_file io true false category_dir (st, fs) r) as [st1 fs1].
  simpl in H1, H2. intros q d Hq.
  destruct (IH st1 fs1 H2 q d Hq) as [H|H]; [by apply H1|by right].
Qed.

Lemma organize_items_copy_writes io base_path move_to_dir items : ∀ st fs,
  new_files_in (map (λ item, category_dir_of base_path move_to_dir item.1)
                    items)
    fs
    (fold_left (organize_category io true false base_path move_to_dir)
       items (st, fs)).2.
Proof.
  induction items as [|[category files] items IH]; intros st fs;
    cbn [fold_left]; [by left|].
  set (dir := category_dir_of base_path move_to_dir category).
  assert (new_files_in [dir] fs
            (organize_category io true false base_path move_to_dir (st, fs)
               (category, files)).2) as H1.
  { unfold organize_category. destruct files as [|r files]; [by left|].
    fold dir. destruct (mkdir_p fs dir) as [e|fs1] eqn:Hmk; [by left|].
    intros q d Hq.
    destruct (organize_loop_copy_writes io dir (r :: files) st fs1) with q d
      as [H|H]; [|done| |by right].
    - pose proof (mkdir_p_is_dir dir fs fs1 Hmk) as Hd.
      unfold is_dir in Hd. unfold path_exists.
      by destruct (fs_lookup fs1 dir) as [[|]|].
    - left. by apply (mkdir_p_no_new_files dir fs fs1). }
  destruct (organize_category _ _ _ _ _ _ _) as [st1 fs1]. simpl in H1.
  intros q d Hq. cbn [map].
  destruct (IH st1 fs1 q d Hq) as [H|(dir' & name & Hin & ->)].
  - destruct (H1 q d H) as [H'|(dir' & name & Hin & ->)]; [by left|].
    right. exists dir', name. apply list_elem_of_singleton in Hin as ->.
    split; [by left|done].
  - right. exists dir', name. split; [by right|done].
Qed.

(** X23. Organising by copy writes files nowhere but in its destination
    directories: every file of the tree afterwards either was there before,
    unchanged, or is an entry of the directory of one of the categories gone
    through, which is the flatten directory itself when one is given. *)
Theorem copy_writes_in_destinations io (base_output_dir : path)
    (file_type_filter : option string) (move_to_dir : option path)
    (st : cataloger) (fs : node) :
  let fs' := (organize_files io base_output_dir true false file_type_filter
                move_to_dir st fs).2 in
  new_files_in
    (destination_dirs base_output_dir move_to_dir file_type_filter st) fs fs'
  ∧ (∀ d, move_to_dir = Some d → new_files_in [d] fs fs').
Proof.
  intros fs'.
  assert (new_files_in
            (destination_dirs base_output_dir move_to_dir file_type_filter st)
            fs fs') as H.
  { unfold fs', destination_dirs. rewrite organize_files_fold.
    apply organize_items_copy_writes. }
  split; [exact H|].
  intros dflat -> q d Hq. destruct (H q d Hq) as [?|(dir & name & Hin & ->)];
    [by left|].
  right. exists dflat, name. split; [by left|].
  unfold destination_dirs in Hin.
  apply list_elem_of_fmap in Hin as (item & -> & _). done.
Qed.

Lemma copy_writes_in_destinations_witness :
  new_files_in [["flat"]] fs_twins
    (organize_files no_fault ["out"] true false None (Some ["flat"]) twins
       fs_twins).2.
Proof.
  apply (proj2 (copy_writes_in_destinations no_fault ["out"] None
                  (Some ["flat"]) twins fs_twins) ["flat"]).
  reflexivity.
Defined.

(** ** The reports *)

Lemma report_rows_records cat :
  Forall (λ item, Forall (record_ok item.1) item.2) cat →
  flat_map (λ item, map (report_row item.1) item.2) cat
  = map (λ r, report_row (fi_category r) r) (flat_map snd cat).
Proof.
  induction cat as [|[c l] cat IH]; intros Hall; simpl; [done|].
  apply Forall_cons in Hall as [Hl Hall]. simpl in Hl.
  rewrite map_app, IH by done. f_equal.
  induction l as [|r l IHl]; simpl; [done|].
  apply Forall_cons in Hl as [(-> & _) Hl]. by rewrite IHl.
Qed.

(** X26. For a catalogue built by a scan, the tabular export (CSV and
    Excel) has the header and one row for each record of the catalogue, in
    the order of the catalogue: [total_files] rows besides the header, each of
    nine cells, and the category written in a row is the category of its
    record. *)
Theorem report_rows_match (excl : list path) (st : cataloger) :
  scanning excl st →
  report_rows st
  = report_header :: map (λ r, report_row (fi_category r) r) (cataloged st)
  ∧ Z.of_nat (length (report_rows st))
    = (1 + counter_get "total_files" (stats st))%Z
  ∧ Forall (λ row, length row = 9%nat) (report_rows st).
Proof.
  intros Hst.
  destruct (scanning_catalog_ok excl st Hst) as [_ Hall].
  destruct (scanning_counts excl st Hst) as [_ Htotal].
  assert (report_rows st
          = report_header
            :: map (λ r, report_row (fi_category r) r) (cataloged st)) as Hrows.
  { unfold report_rows, cataloged. f_equal. apply report_rows_records.
    eapply Forall_impl; [exact Hall|]. by intros item (_ & _ & H). }
  split; [done|]. rewrite Hrows. split.
  - cbn [length]. rewrite length_map, Htotal. lia.
  - constructor; [done|]. apply Forall_forall. intros row Hrow.
    apply list_elem_of_fmap in Hrow as (r & -> & _). done.
Qed.

Lemma report_rows_match_witness :
  Z.of_nat (length (report_rows
                      (scan_file fs_twins false None (new_cataloger [])
                         ["s1"; "a.txt"])))
  = (1 + counter_get "total_files"
           (stats (scan_file fs_twins false None (new_cataloger [])
                     ["s1"; "a.txt"])))%Z.
Proof.
  apply (report_rows_match []). repeat constructor.
Defined.

Lemma scanning_consistent (excl : list path) (st : cataloger) :
  scanning excl st → stats_consistent st.
Proof.
  induction 1 as [|fs include_hash target st file_path _ IH].
  - split; vm_compute; reflexivity.
  - by apply scan_file_consistent.
Qed.

Lemma set_catalog_same st : set_catalog (catalog st) st = st.
Proof. by destruct st. Qed.

Lemma summary_lines_present order : ∀ st,
  (∀ c, c ∈ order → (0 < counter_get c (stats st))%Z →
        is_Some (dict_get c (catalog st))) →
  summary_lines order st
  = (map (λ c, (c, counter_get c (stats st), sum_sizes (catalog_list c st)))
         (List.filter (λ c, (0 <? counter_get c (stats st))%Z) order), st).
Proof.
  induction order as [|c order IH]; intros st Hkeys; simpl; [done|].
  destruct (0 <? counter_get c (stats st))%Z eqn:Hc.
  - destruct (Hkeys c) as [l Hl]; [by left|lia|].
    unfold catalog_touch. rewrite Hl, set_catalog_same.
    rewrite IH by (intros c' Hc'; apply Hkeys; by right).
    simpl. unfold catalog_list. by rewrite Hl.
  - apply IH. intros c' Hc'. apply Hkeys. by right.
Qed.

Lemma sizes_by_cons keys k l cat :
  NoDup keys → k ∈ keys → dict_get k cat = None →
  sizes_by keys ((k, l) :: cat) = (sum_sizes l + sizes_by keys cat)%Z.
Proof.
  induction keys as [|c keys IH]; intros Hnd Hk Hnone; simpl.
  - by apply elem_of_nil in Hk.
  - apply NoDup_cons in Hnd as [Hc Hnd].
    destruct (decide (k = c)) as [->|Hne].
    + rewrite bool_decide_eq_true_2 by done. rewrite Hnone. simpl.
      assert (sizes_by keys ((c, l) :: cat) = sizes_by keys cat) as ->; [|lia].
      clear -Hc. induction keys as [|a keys IH]; simpl; [done|].
      apply not_elem_of_cons in Hc as [Hne Hc'].
      rewrite bool_decide_eq_false_2 by done. by rewrite IH.
    + rewrite bool_decide_eq_false_2 by done.
      apply elem_of_cons in Hk as [->|Hk]; [done|].
      rewrite IH by done. lia.
Qed.

Lemma sizes_by_catalog keys cat :
  NoDup keys → NoDup (map fst cat) → (∀ k, k ∈ map fst cat → k ∈ keys) →
  sizes_by keys cat = catalog_size cat.
Proof.
  intros Hkeys. induction cat as [|[k l] cat IH]; intros Hnd Hsub.
  - simpl. clear. induction keys as [|c keys IH]; simpl; [done|]. by rewrite IH.
  - simpl in Hnd. apply NoDup_cons in Hnd as [Hk Hnd].
    rewrite sizes_by_cons; [|done|apply Hsub; by left|].
    + simpl. rewrite IH; [done|done|]. intros k' Hk'. apply Hsub. by right.
    + destruct (dict_get k cat) eqn:Hg; [|done].
      exfalso. apply Hk. apply dict_get_keys. by rewrite Hg.
Qed.

Lemma lines_of_counts (count size : string → Z) order :
  (∀ c, c ∈ order → (0 ≤ count c)%Z) →
  lines_count (map (λ c, (c, count c, size c))
                 (List.filter (λ c, (0 <? count c)%Z) order))
  = foldr (λ c acc, (count c + acc)%Z) 0%Z order.
Proof.
  induction order as [|c order IH]; intros Hpos; simpl; [done|].
  rewrite <- IH by (intros c' Hc'; apply Hpos; by right).
  destruct (0 <? count c)%Z eqn:Hc; simpl; [done|].
  pose proof (Hpos c ltac:(by left)). lia.
Qed.

Lemma show_lines_count lines : ∀ shown,
  mapM show_line lines = Some shown → lines_count shown = lines_count lines.
Proof.
  intros shown Hshown. apply mapM_Some in Hshown.
  induction Hshown as [|[[c n] size] [[c' n'] text] lines shown Hline _ IH];
    [done|].
  simpl in Hline. destruct (format_size size); [|done].
  injection Hline as <- <- _. simpl. by rewrite IH.
Qed.

Lemma format_size_some n :
  (- 2 ^ 53 < n < 2 ^ 53)%Z → is_Some (format_size n).
Proof.
  intros Hn. unfold format_size, float_of_nat.
  destruct (n <? 1024)%Z; [destruct (0 <=? n)%Z eqn:Hs|].
  - rewrite (proj2 (Z.ltb_lt _ _)) by lia. by eexists.
  - apply Z.leb_gt in Hs. rewrite (proj2 (Z.ltb_lt _ _)) by lia. by eexists.
  - rewrite (proj2 (Z.ltb_lt _ _)) by lia. by eexists.
Qed.

(** X27. What [print_summary] shows for a catalogue built by a scan. The
    counts of its lines by category add up to the number of files it shows,
    which is the number of records; there is a line for each category that
    has records and for no other, with the number of its records. The sizes
    are shown as [format_size] writes them, rounded to one decimal of their
    unit: the size of a line is written from the bytes of the records of its
    category and the total from the sum of those bytes, so that the sizes
    shown need not add up to the total shown. Printing leaves the cataloguer
    as it was, and it does not fail on sizes below [2^53] bytes. *)
Theorem print_summary_shows (excl : list path) (st : cataloger) :
  scanning excl st →
  let bytes c := sum_sizes (catalog_list c st) in
  (∀ s st', print_summary st = Some (s, st') →
     st' = st
     ∧ shown_files s = Z.of_nat (length (cataloged st))
     ∧ lines_count (shown_lines s) = shown_files s
     ∧ format_size (sizes_by summary_order (catalog st)) = Some (shown_size s)
     ∧ (∀ c count text, (c, count, text) ∈ shown_lines s →
          c ∈ map fst (catalog st)
          ∧ count = Z.of_nat (length (catalog_list c st))
          ∧ format_size (bytes c) = Some text)
     ∧ (∀ c, c ∈ map fst (catalog st) →
             c ∈ map (λ l, l.1.1) (shown_lines s)))
  ∧ ((∀ c, - 2 ^ 53 < bytes c < 2 ^ 53)%Z →
     (- 2 ^ 53 < counter_get "total_size" (stats st) < 2 ^ 53)%Z →
     is_Some (print_summary st)).
Proof.
  intros Hst bytes.
  destruct (scanning_catalog_ok excl st Hst) as [Hnd Hall].
  destruct (scanning_counts excl st Hst) as [Hcat Htotal].
  destruct (scanning_consistent excl st Hst) as [Hfiles Hsize].
  rewrite Forall_forall in Hall.
  assert (∀ c, c ∈ summary_order → c ∈ category_names) as Hord.
  { intros c Hc. apply (bool_decide_unpack _).
    revert c Hc. apply Forall_forall. apply (bool_decide_unpack _).
    vm_compute. exact I. }
  assert (∀ c, c ∈ category_names → c ∈ summary_order) as Hord'.
  { intros c Hc. apply (bool_decide_unpack _).
    revert c Hc. apply Forall_forall. apply (bool_decide_unpack _).
    vm_compute. exact I. }
  assert (∀ c, c ∈ map fst (catalog st) → c ∈ category_names) as Hkeys.
  { intros c Hc. apply list_elem_of_fmap in Hc as ([c' l] & -> & Hin).
    by destruct (Hall _ Hin) as (? & _). }
  assert (∀ c, c ∈ category_names →
               (c ∈ map fst (catalog st)
                ↔ (0 < counter_get c (stats st))%Z)) as Hpos.
  { intros c Hc. rewrite (Hcat c Hc), dict_get_keys. unfold catalog_list.
    destruct (dict_get c (catalog st)) as [l|] eqn:Hl; simpl.
    - split; [intros _|eauto].
      assert ((c, l) ∈ catalog st) as Hin.
      { clear -Hl. induction (catalog st) as [|[a b] d IH]; simpl in Hl;
          [done|].
        case_bool_decide; [injection Hl as ->; subst; by left|].
        right. by apply IH. }
      destruct (Hall _ Hin) as (_ & Hne & _). simpl in Hne.
      destruct l; [done|simpl; lia].
    - split; [by intros [? ?]|lia]. }
  assert (summary_lines summary_order st
          = (map (λ c, (c, counter_get c (stats st), bytes c))
               (List.filter (λ c, (0 <? counter_get c (stats st))%Z)
                  summary_order), st)) as Hlines.
  { apply summary_lines_present. intros c Hc Hlt.
    apply dict_get_keys, Hpos; [by apply Hord|done]. }
  assert (counter_get "total_size" (stats st)
          = sizes_by summary_order (catalog st)) as Hbytes.
  { rewrite Hsize. symmetry. apply sizes_by_catalog; [|done|].
    - apply (bool_decide_unpack _). vm_compute. exact I.
    - intros k Hk. by apply Hord', Hkeys. }
  split.
  - intros s st' Hprint. unfold print_summary in Hprint.
    rewrite Hlines in Hprint.
    destruct (format_size (counter_get "total_size" (stats st)))
      as [total|] eqn:Htot; [|done].
    cbn [mbind option_bind] in Hprint.
    destruct (mapM show_line _) as [shown|] eqn:Hshown; [|done].
    cbn [mbind option_bind] in Hprint. injection Hprint as <- <-.
    cbn [shown_files shown_size shown_lines].
    split; [done|]. split; [by rewrite Htotal|].
    split; [|split; [by rewrite <- Hbytes|split]].
    + rewrite (show_lines_count _ _ Hshown), lines_of_counts.
      * rewrite Hfiles. simpl. lia.
      * intros c Hin. rewrite (Hcat c (Hord c Hin)). lia.
    + intros c count text Hin. apply mapM_Some in Hshown.
      apply list_elem_of_lookup in Hin as [i Hi].
      destruct (Forall2_lookup_r _ _ _ _ _ Hshown Hi)
        as ([[c0 n0] size0] & Hline & Hshow).
      simpl in Hshow.
      destruct (format_size size0) as [text0|] eqn:Hfmt; [|done].
      injection Hshow as -> -> ->.
      apply list_elem_of_lookup_2, list_elem_of_fmap in Hline
        as (c' & [= -> -> ->] & Hin).
      apply list_elem_of_In, filter_In in Hin as [Hin Hlt].
      apply list_elem_of_In in Hin.
      split; [apply Hpos; [by apply Hord|lia]|].
      split; [by apply Hcat, Hord|done].
    + intros c Hkey. apply mapM_Some in Hshown.
      assert ((c, counter_get c (stats st), bytes c)
              ∈ map (λ c, (c, counter_get c (stats st), bytes c))
                  (List.filter (λ c, (0 <? counter_get c (stats st))%Z)
                     summary_order)) as Hin.
      { apply list_elem_of_fmap. exists c. split; [done|].
        apply list_elem_of_In, filter_In. split.
        - by apply list_elem_of_In, Hord', Hkeys.
        - apply Z.ltb_lt, Hpos; [by apply Hkeys|done]. }
      apply list_elem_of_lookup in Hin as [i Hi].
      destruct (Forall2_lookup_l _ _ _ _ _ Hshown Hi)
        as ([[c0 n0] text0] & Hline & Hshow).
      simpl in Hshow. destruct (format_size (bytes c)); [|done].
      injection Hshow as <- <- <-.
      apply list_elem_of_fmap. exists (c, counter_get c (stats st), s).
      split; [done|]. by apply list_elem_of_lookup_2 in Hline.
  - intros Hsmall Htot. unfold print_summary. rewrite Hlines.
    destruct (format_size_some _ Htot) as [total ->].
    cbn [mbind option_bind].
    assert (is_Some (mapM show_line
              (map (λ c, (c, counter_get c (stats st), bytes c))
                 (List.filter (λ c, (0 <? counter_get c (stats st))%Z)
                    summary_order)))) as [shown ->]; [|by eexists].
    apply mapM_is_Some, Forall_forall.
    intros line (c & -> & _)%list_elem_of_fmap. simpl.
    destruct (format_size_some _ (Hsmall c)) as [text ->]. by eexists.
Qed.

Lemma print_summary_shows_witness : is_Some (print_summary sizes).
Proof.
  apply (proj2 (print_summary_shows [] sizes
                  (scan_multiple_volumes_scanning [] fs_sizes [["vol"]] false
                     None None (new_cataloger []) (scanning_new []))));
    [|by vm_compute].
  intros c. unfold catalog_list.
  let cat := eval vm_compute in (catalog sizes) in
  change (catalog sizes) with cat.
  cbn [dict_get]. repeat case_bool_decide; by vm_compute.
Defined.

(** The sizes shown are rounded one by one: two categories of 1075 bytes are
    shown as 1.0 KB each under a total of 2.1 KB. *)
Lemma summary_sizes_rounded :
  fst <$> print_summary sizes
  = Some {| shown_files := 2; shown_size := "2.1 KB"; shown_errors := 0;
            shown_lines := [("fotos", 1%Z, "1.0 KB");
                            ("documents", 1%Z, "1.0 KB")] |}.
Proof. vm_compute. reflexivity. Qed.

(** ** Instances of the properties of the traversal *)

Lemma depth_limited_scan_prunes_witness :
  ["vol"; "skip"; "deep"] = ["vol"; "skip"; "deep"].
Proof.
  apply (depth_limited_scan_prunes fs_excluded ["vol"; "skip"; "deep"] 9
           (new_cataloger [["vol"; "skip"]]) ["vol"; "skip"; "deep"]
           ["vol"; "skip"]).
  - apply (bool_decide_unpack _). vm_compute. exact I.
  - by left.
  - split; [reflexivity|discriminate].
Defined.

Lemma max_depth_zero_root_only_witness :
  scan_visited fs_nested ["data"] (Some 0%Z) (new_cataloger []) = [["data"]]
  ∧ _get_files_with_depth (new_cataloger []) fs_nested ["data"] 0
    = [["data"; "top.txt"]].
Proof.
  apply (max_depth_zero_root_only (new_cataloger []) fs_nested ["data"] true
           [("top.txt", plain_file 1 "0cc175b9");
            ("data", Dir true
               [("mid.txt", plain_file 2 "92eb5ffe");
                ("x", Dir true
                   [("deep.txt", plain_file 3 "4a8a08f0");
                    ("y", Dir true
                       [("deeper.txt", plain_file 4 "8277e091")])])])]).
  reflexivity.
Defined.

Lemma organize_keeps_scan_results_witness :
  catalog (organize_files no_fault ["out"] true false None None twins
             fs_twins).1
  = catalog twins.
Proof.
  apply (organize_keeps_scan_results no_fault ["out"] true false None None
           twins fs_twins).
  reflexivity.
Defined.

(** ** Scans of several roots *)

Lemma cataloged_append_perm category r cat :
  flat_map snd (catalog_append category r cat) ≡ₚ flat_map snd cat ++ [r].
Proof.
  induction cat as [|[k l] rest IH]; simpl; [done|].
  case_bool_decide; simpl.
  - rewrite <- !app_assoc. apply Permutation_app_head, Permutation_app_comm.
  - rewrite IH. by rewrite app_assoc.
Qed.

Lemma omap_pointwise {A B} (f g : A → option B) (l : list A) :
  (∀ x, f x = g x) → omap f l = omap g l.
Proof.
  intros H. induction l as [|x l IH]; [done|].
  cbn [omap list_omap]. by rewrite H, IH.
Qed.

(** ** Scanning again after organising *)

Lemma is_path_excluded_app st p q :
  _is_path_excluded st p = true → _is_path_excluded st (p ++ q) = true.
Proof.
  rewrite !is_path_excluded_existsb. intros Hp.
  apply existsb_exists in Hp as (e & He & Hrel).
  apply existsb_exists. exists e. split; [done|].
  apply is_relative_to_prefix in Hrel as [k ->].
  apply is_relative_to_prefix. exists (k ++ q). by rewrite app_assoc.
Qed.

(** The wildcard lists every directory that can be reached from the top. *)
Lemma iterate_directories_lookup q : ∀ top n w es,
  fs_lookup n q = Some (Dir w es) →
  (top ++ q, es) ∈ iterate_directories top n.
Proof.
  induction q as [|k q IH]; intros top n w es Hq.
  - simpl in Hq. injection Hq as ->. rewrite app_nil_r. simpl. by left.
  - destruct n as [f|w0 es0]; [done|]. simpl in Hq.
    destruct (dict_get k es0) as [c|] eqn:Hk; [|done].
    pose proof (IH (top ++ [k]) c w es Hq) as Hin.
    rewrite <- app_assoc in Hin. simpl in Hin.
    cbn [iterate_directories]. right.
    clear IH Hq. induction es0 as [|[k0 c0] rest IHrest]; [done|].
    simpl in Hk. apply elem_of_app. case_bool_decide as Hk0.
    + injection Hk as ->. subst k0. by left.
    + right. by apply IHrest.
Qed.

(** ... and so every entry that exists strictly below the top. *)
Lemma rglob_lookup fs root q name x :
  fs_lookup fs (root ++ q ++ [name]) = Some x →
  root ++ q ++ [name] ∈ rglob fs root.
Proof.
  intros Hx. unfold rglob. rewrite fs_lookup_app in Hx.
  destruct (fs_lookup fs root) as [n|]; [|done]. simpl in Hx.
  rewrite fs_lookup_app in Hx.
  destruct (fs_lookup n q) as [[f|w es]|] eqn:Hq; [done| |done].
  simpl in Hx. destruct (dict_get name es) as [c|] eqn:Hc; [|done].
  apply list_elem_of_In, in_flat_map. exists (root ++ q, es). split.
  - apply list_elem_of_In. by apply (iterate_directories_lookup q root n w).
  - apply in_map_iff. apply dict_get_Some_elem, list_elem_of_In in Hc.
    apply in_map_iff in Hc as (e & <- & He).
    exists e. split; [by rewrite <- app_assoc|done].
Qed.

Lemma rglob_below fs root p :
  p ∈ rglob fs root → ∃ q name, p = root ++ q ++ [name].
Proof.
  unfold rglob. destruct (fs_lookup fs root) as [n|]; [|by intros ?%elem_of_nil].
  intros Hp. apply list_elem_of_In, in_flat_map in Hp as ([d es] & Hin & Hp).
  apply in_map_iff in Hp as ([name c] & <- & _).
  assert (root `prefix_of` d) as [q ->].
  { apply (iterate_directories_under n). apply list_elem_of_In, in_map_iff.
    by exists (d, es). }
  exists q, name. by rewrite <- app_assoc.
Qed.

Lemma scan_record_lookup A B include_hash target st p :
  fs_lookup A p = fs_lookup B p →
  scan_record A include_hash target st p
  = scan_record B include_hash target st p.
Proof.
  intros H. unfold scan_record, is_file, get_file_info, get_file_hash.
  by rewrite H.
Qed.

(** A file that an unbounded scan of a tree catalogues is catalogued, with
    the same record, by the scan of any tree that has the file. *)
Lemma scan_transfer A B include_hash target st root p r :
  (∀ q d, fs_lookup A q = Some (File d) → _is_path_excluded st q = false →
          fs_lookup B q = Some (File d)) →
  p ∈ scan_candidates A root None st →
  scan_record A include_hash target st p = Some r →
  p ∈ scan_candidates B root None st
  ∧ scan_record B include_hash target st p = Some r.
Proof.
  intros HAB Hp Hr.
  assert (∃ d, fs_lookup A p = Some (File d)
               ∧ _is_path_excluded st p = false) as (d & HA & Hex).
  { unfold scan_record, is_file in Hr.
    destruct (fs_lookup A p) as [[d|w es]|]; [|done|done].
    destruct (_is_path_excluded st p); [done|]. by exists d. }
  pose proof (HAB p d HA Hex) as HB.
  split.
  - unfold scan_candidates in *.
    destruct (path_exists A root); [|by apply elem_of_nil in Hp].
    apply rglob_below in Hp as (q & name & ->).
    assert (path_exists B root = true) as ->.
    { unfold path_exists. rewrite fs_lookup_app in HB.
      by destruct (fs_lookup B root). }
    by apply (rglob_lookup B root q name (File d)).
  - rewrite <- Hr. apply scan_record_lookup. congruence.
Qed.

Lemma organize_copy_keeps_files io base_output_dir file_type_filter
    move_to_dir st fs :
  keeps_files fs
    (organize_files io base_output_dir true false file_type_filter
       move_to_dir st fs).2.
Proof. rewrite organize_files_fold. apply organize_categories_copy_keeps_files. Qed.

Lemma organize_copy_new_files io base_output_dir file_type_filter
    move_to_dir st fs :
  new_files_in
    (destination_dirs base_output_dir move_to_dir file_type_filter st) fs
    (organize_files io base_output_dir true false file_type_filter
       move_to_dir st fs).2.
Proof.
  unfold destination_dirs. rewrite organize_files_fold.
  apply organize_items_copy_writes.
Qed.

Lemma destination_dirs_under base_output_dir move_to_dir file_type_filter st
    dir :
  dir ∈ destination_dirs base_output_dir move_to_dir file_type_filter st →
  ∃ k, dir = base_path_of base_output_dir move_to_dir ++ k.
Proof.
  unfold destination_dirs. intros Hin.
  apply list_elem_of_fmap in Hin as (item & -> & _).
  unfold category_dir_of. destruct move_to_dir as [d|].
  - exists []. by rewrite app_nil_r.
  - unfold joinpath. case_bool_decide.
    + exists []. by rewrite app_nil_r.
    + by eexists.
Qed.

(** X24. Organising by copy into a directory that the cataloguer excludes
    does not change what an unbounded scan finds: a scan of the tree
    afterwards catalogues the records that a scan of the tree before
    catalogues, and no others, so that the copies are not catalogued in
    their turn. *)
Theorem rescan_after_copy io fs (volumes : list path) include_hash
    (file_type_filter : option string) (excl : list path)
    (base_output_dir : path) (organize_filter : option string)
    (move_to_dir : option path) (st : cataloger) :
  let fs' := (organize_files io base_output_dir true false organize_filter
                move_to_dir st fs).2 in
  let scan fs :=
    cataloged (scan_multiple_volumes fs volumes include_hash None
                 file_type_filter (new_cataloger excl)) in
  _is_path_excluded (new_cataloger excl)
    (base_path_of base_output_dir move_to_dir) = true →
  ∀ r, r ∈ scan fs' ↔ r ∈ scan fs.
Proof.
  intros fs' scan Hexcl r. unfold scan. rewrite !cataloged_scan_multiple.
  assert (∀ A B,
    (∀ q d, fs_lookup A q = Some (File d) →
            _is_path_excluded (new_cataloger excl) q = false →
            fs_lookup B q = Some (File d)) →
    (∃ root p, root ∈ volumes
       ∧ p ∈ scan_candidates A root None (new_cataloger excl)
       ∧ scan_record A include_hash (target_extensions_of file_type_filter)
           (new_cataloger excl) p = Some r) →
    (∃ root p, root ∈ volumes
       ∧ p ∈ scan_candidates B root None (new_cataloger excl)
       ∧ scan_record B include_hash (target_extensions_of file_type_filter)
           (new_cataloger excl) p = Some r)) as Hgo.
  { intros A B HAB (root & p & Hroot & Hp & Hr).
    exists root, p. split; [done|]. by apply (scan_transfer A B). }
  split; (intros [H|H]; [by left|right]); revert H; apply Hgo.
  - intros q d Hq Hex.
    destruct (organize_copy_new_files io base_output_dir organize_filter
                move_to_dir st fs q d Hq) as [H|(dir & name & Hdir & ->)];
      [done|].
    apply destination_dirs_under in Hdir as [k ->].
    rewrite <- app_assoc in Hex.
    by rewrite (is_path_excluded_app _ _ _ Hexcl) in Hex.
  - intros q d Hq _.
    by apply (organize_copy_keeps_files io base_output_dir organize_filter
                move_to_dir st fs).
Qed.

Lemma rescan_after_copy_witness :
  Forall (λ r, r ∈ cataloged
                     (scan_multiple_volumes fs_twins [[]] false None None
                        (new_cataloger [["out"]])))
    (cataloged
       (scan_multiple_volumes
          (organize_files no_fault ["out"] true false None None twins
             fs_twins).2
          [[]] false None None (new_cataloger [["out"]]))).
Proof.
  apply Forall_forall. intros r Hr.
  apply (rescan_after_copy no_fault fs_twins [[]] false None [["out"]]
           ["out"] None None twins eq_refl r).
  exact Hr.
Defined.

(** ** Building the cataloguer *)

Lemma resolve_all_paths resolve exclude_paths : ∀ acc given,
  resolve_all resolve exclude_paths acc = Some given →
  ∀ p, p ∈ given
       ↔ p ∈ acc ∨ ∃ text, text ∈ exclude_paths ∧ resolve text = Some p.
Proof.
  induction exclude_paths as [|t rest IH]; intros acc given Hres p;
    simpl in Hres.
  - injection Hres as <-. split; [by left|].
    intros [H|(text & Ht & _)]; [done|]. by apply elem_of_nil in Ht.
  - destruct (resolve t) as [a|] eqn:Ha; [|done].
    rewrite (IH _ _ Hres p), set_add_elem. split.
    + intros [[H| ->]|(text & Ht & H)]; [by left| |].
      * right. exists t. split; [by left|done].
      * right. exists text. split; [by right|done].
    + intros [H|(text & Ht & H)]; [by left; left|].
      apply elem_of_cons in Ht as [->|Ht].
      * left. right. congruence.
      * right. by exists text.
Qed.

Lemma resolve_all_NoDup resolve exclude_paths : ∀ acc given,
  resolve_all resolve exclude_paths acc = Some given →
  NoDup acc → NoDup given.
Proof.
  induction exclude_paths as [|t rest IH]; intros acc given Hres Hacc;
    simpl in Hres.
  - by injection Hres as <-.
  - destruct (resolve t) as [a|]; [|done].
    apply (IH _ _ Hres). by apply set_add_NoDup.
Qed.

Lemma resolve_all_fails resolve exclude_paths : ∀ acc,
  resolve_all resolve exclude_paths acc = None
  ↔ ∃ text, text ∈ exclude_paths ∧ resolve text = None.
Proof.
  induction exclude_paths as [|t rest IH]; intros acc; simpl.
  - split; [done|]. intros (text & Ht & _). by apply elem_of_nil in Ht.
  - destruct (resolve t) as [a|] eqn:Ha.
    + rewrite IH. split.
      * intros (text & Ht & H). exists text. split; [by right|done].
      * intros (text & Ht & H). apply elem_of_cons in Ht as [->|Ht];
          [congruence|]. by exists text.
    + split; [|done]. intros _. exists t. split; [by left|done].
Qed.

(** X5. Building a cataloguer fails exactly when one of the paths given as
    [exclude_paths] cannot be resolved. Otherwise the new cataloguer has an
    empty catalogue, and its exclusion set holds, without repetition, the resolved paths that were given and those that the lines
    of [folder_exclusions.txt] add, and nothing else: whatever the file
    holds, every path given is excluded with everything below it. *)
Theorem constructor_exclusions (resolve : string -> option path)
    (exclude_paths_arg : list string) (file : exclusions_file) :
  (FileCataloger resolve exclude_paths_arg file = None
   ↔ ∃ text, text ∈ exclude_paths_arg ∧ resolve text = None)
  ∧ ∀ st errs,
      FileCataloger resolve exclude_paths_arg file = Some (st, errs) →
      cataloged st = []
      ∧ NoDup (exclude_paths st)
      ∧ (∀ p, p ∈ exclude_paths st
              ↔ (∃ text, text ∈ exclude_paths_arg ∧ resolve text = Some p)
                ∨ ∃ lines line,
                    file = Lines lines ∧ line ∈ lines
                    ∧ exclusion_line (strip line) = true
                    ∧ resolve (strip line) = Some p)
      ∧ (∀ text p q, text ∈ exclude_paths_arg → resolve text = Some p →
                     _is_path_excluded st (p ++ q) = true).
Proof.
  unfold FileCataloger. split.
  - rewrite <- (resolve_all_fails resolve exclude_paths_arg []).
    by destruct (resolve_all resolve exclude_paths_arg []).
  - intros st errs Hnew.
    destruct (resolve_all resolve exclude_paths_arg []) as [given|] eqn:Hres;
      [|done].
    injection Hnew as <- <-.
    pose proof (resolve_all_paths _ _ _ _ Hres) as Hgiven.
    pose proof (resolve_all_NoDup _ _ _ _ Hres (NoDup_nil_2)) as Hnd.
    assert (∀ p, p ∈ x_paths (_load_folder_exclusions resolve file given)
              ↔ (∃ text, text ∈ exclude_paths_arg ∧ resolve text = Some p)
                ∨ ∃ lines line,
                    file = Lines lines ∧ line ∈ lines
                    ∧ exclusion_line (strip line) = true
                    ∧ resolve (strip line) = Some p) as Hall.
    { intros p. destruct file as [| |lines]; cbn [_load_folder_exclusions x_paths].
      - rewrite Hgiven. split.
        + intros [H|H]; [by apply elem_of_nil in H|by left].
        + intros [H|(lines & line & H & _)]; [by right|done].
      - rewrite Hgiven. split.
        + intros [H|H]; [by apply elem_of_nil in H|by left].
        + intros [H|(lines & line & H & _)]; [by right|done].
      - rewrite load_lines_paths. cbn [x_paths]. rewrite Hgiven. split.
        + intros [[H|H]|(line & Hl & Hk & Hr)].
          * by apply elem_of_nil in H.
          * by left.
          * right. by exists lines, line.
        + intros [H|(lines' & line & Heq & Hl & Hk & Hr)].
          * left. by right.
          * injection Heq as <-. right. by exists line. }
    split; [done|]. split; [|split; [exact Hall|]].
    + cbn [exclude_paths new_cataloger].
      destruct file as [| |lines]; cbn [_load_folder_exclusions x_paths];
        [done|done|].
      by apply load_lines_NoDup.
    + intros text p q Ht Hp. rewrite is_path_excluded_existsb.
      apply existsb_exists. exists p. split.
      * apply list_elem_of_In, Hall. left. by exists text.
      * apply is_relative_to_prefix. by exists q.
Qed.

Lemma constructor_exclusions_witness :
  _is_path_excluded
    (new_cataloger
       (x_paths (_load_folder_exclusions sample_resolve
                   (Lines sample_exclusions) [["out"]])))
    (["out"] ++ ["fotos"; "a.jpg"]) = true.
Proof.
  destruct (proj2 (constructor_exclusions sample_resolve ["/out"]
                     (Lines sample_exclusions))
              (new_cataloger
                 (x_paths (_load_folder_exclusions sample_resolve
                             (Lines sample_exclusions) [["out"]])))
              (x_errors (_load_folder_exclusions sample_resolve
                           (Lines sample_exclusions) [["out"]]))
              eq_refl) as (_ & _ & _ & Hex).
  apply (Hex "/out" ["out"] ["fotos"; "a.jpg"]).
  - by left.
  - reflexivity.
Defined.

(** ** Moving a file *)












(** ** Roots and depth limits *)

(** X10. A root that exists but is a regular file, or a directory without
    entries, is scanned to no effect: the wildcard and the walk list nothing
    under it, so the root itself is not catalogued and nothing is logged. *)
Theorem scan_directory_file_root fs (directory : path) include_hash max_depth
    (file_type_filter : option string) (st : cataloger) :
  (∃ d, fs_lookup fs directory = Some (File d))
  ∨ (∃ w, fs_lookup fs directory = Some (Dir w [])) →
  scan_candidates fs directory max_depth st = []
  ∧ scan_directory fs directory include_hash max_depth file_type_filter st
    = st.
Proof.
  intros Hroot.
  assert (scan_candidates fs directory max_depth st = []) as Hnone.
  { unfold scan_candidates, rglob, _get_files_with_depth.
    destruct (path_exists fs directory); [|done].
    destruct Hroot as [[d ->]|[w ->]]; destruct max_depth as [depth|];
      simpl; try done.
    by destruct (walk_prune st directory depth directory),
                (_is_path_excluded st directory). }
  split; [done|]. by rewrite scan_directory_fold, Hnone.
Qed.

Lemma scan_directory_file_root_witness :
  scan_directory fs_twins ["s1"; "a.txt"] true None None (new_cataloger [])
  = new_cataloger [].
Proof.
  apply (scan_directory_file_root fs_twins ["s1"; "a.txt"] true None None
           (new_cataloger [])).
  left. by eexists.
Defined.

Lemma snoc_cases {A} (l : list A) : l = [] ∨ ∃ q x, l = q ++ [x].
Proof.
  induction l as [|a l [->|(q & x & ->)]]; [by left| |].
  - right. by exists [], a.
  - right. by exists (a :: q), x.
Qed.

(** ** The list of folders *)

Lemma insert_sorted_perm s l : insert_sorted s l ≡ₚ s :: l.
Proof.
  induction l as [|x l IH]; simpl; [done|].
  destruct (String.leb s x); [done|].
  rewrite IH. apply Permutation_swap.
Qed.

Lemma sorted_perm l : sorted l ≡ₚ l.
Proof.
  induction l as [|x l IH]; simpl; [done|].
  by rewrite insert_sorted_perm, IH.
Qed.

Lemma increasing_cons x y l :
  increasing (x :: y :: l) = String.leb x y && increasing (y :: l).
Proof. done. Qed.

Lemma insert_sorted_increasing s l :
  increasing l = true → increasing (insert_sorted s l) = true.
Proof.
  induction l as [|x l IH]; [done|]. intros Hl.
  cbn [insert_sorted]. destruct (String.leb s x) eqn:Hsx.
  - by rewrite increasing_cons, Hsx, Hl.
  - assert (String.leb x s = true) as Hxs.
    { destruct (String.leb_total s x) as [H|H]; [congruence|done]. }
    destruct l as [|y l].
    + cbn [insert_sorted]. by rewrite increasing_cons, Hxs.
    + rewrite increasing_cons in Hl. apply andb_true_iff in Hl as [Hxy Hl].
      specialize (IH Hl). cbn [insert_sorted] in IH |- *.
      destruct (String.leb s y).
      * by rewrite increasing_cons, Hxs, IH.
      * by rewrite increasing_cons, Hxy, IH.
Qed.

Lemma sorted_increasing l : increasing (sorted l) = true.
Proof.
  induction l as [|x l IH]; [done|]. by apply insert_sorted_increasing.
Qed.

Lemma sorted_folders_elem st s :
  s ∈ sorted_folders st
  ↔ ∃ p, p ∈ folders_with_files st ∧ s = str_path p.
Proof.
  unfold sorted_folders. rewrite sorted_perm, elem_of_elements, elem_of_map.
  split; intros (p & H1 & H2); by exists p.
Qed.

Lemma sorted_folders_NoDup st : NoDup (sorted_folders st).
Proof. unfold sorted_folders. rewrite sorted_perm. apply NoDup_elements. Qed.

Lemma one_line_app s t : one_line (s +:+ t) = one_line s && one_line t.
Proof.
  induction s as [|c s IH]; simpl; [done|].
  rewrite IH. by rewrite andb_assoc.
Qed.

Lemma one_line_digit x : one_line (String (pretty_N_char x) "") = true.
Proof.
  unfold pretty_N_char. destruct x as [|p]; [done|].
  do 4 (try (destruct p as [p|p|]; try done)).
Qed.

Lemma one_line_pretty_N_go x : ∀ s,
  one_line s = true → one_line (pretty_N_go x s) = true.
Proof.
  induction x as [x IH] using (well_founded_ind N.lt_wf_0). intros s Hs.
  destruct (decide (0 < x)%N) as [Hx|Hx].
  - rewrite pretty_N_go_step by done. apply IH.
    + by apply N.div_lt.
    + change (String ?c s) with (String c "" +:+ s).
      by rewrite one_line_app, one_line_digit, Hs.
  - assert (x = 0%N) as -> by lia. by rewrite pretty_N_go_0.
Qed.

Lemma one_line_pretty (n : nat) : one_line (pretty n) = true.
Proof.
  unfold pretty, pretty_nat, pretty, pretty_N.
  destruct (decide (N.of_nat n = 0%N)); [done|].
  by apply one_line_pretty_N_go.
Qed.

Lemma readlines_line t rest :
  one_line t = true →
  readlines (t +:+ newline +:+ rest) = (t +:+ newline) :: readlines rest.
Proof.
  induction t as [|c t IH]; intros Ht.
  - done.
  - simpl in Ht. apply andb_true_iff in Ht as [Hc Ht].
    apply andb_true_iff in Hc as [Hlf Hcr].
    apply negb_true_iff in Hlf, Hcr.
    change (String c t +:+ newline +:+ rest)
      with (String c (t +:+ newline +:+ rest)).
    cbn [readlines]. rewrite Hlf, Hcr, IH by done. done.
Qed.

Lemma append_cons c s t : String c s +:+ t = String c (s +:+ t).
Proof. reflexivity. Qed.

Lemma string_app_assoc s t u : (s +:+ t) +:+ u = s +:+ t +:+ u.
Proof.
  induction s as [|c s IH]; [done|]. rewrite !append_cons. by rewrite IH.
Qed.

Lemma append_line t rest :
  (t +:+ newline) +:+ rest = t +:+ newline +:+ rest.
Proof. apply string_app_assoc. Qed.

Lemma readlines_lines ts :
  Forall (λ t, one_line t = true) ts →
  readlines (foldr String.append "" (map (λ t, t +:+ newline) ts))
  = map (λ t, t +:+ newline) ts.
Proof.
  induction 1 as [|t ts Ht _ IH]; [done|].
  cbn [map foldr]. by rewrite append_line, readlines_line, IH.
Qed.

Lemma folders_header_lines now file_type_filter total rest :
  foldr String.append rest (folders_header now file_type_filter total)
  = foldr String.append rest
      (map (λ t, t +:+ newline) (header_lines now file_type_filter total)).
Proof.
  unfold folders_header, header_lines.
  destruct file_type_filter as [f|]; [case_bool_decide|];
    cbn [app map foldr]; rewrite ?string_app_assoc; reflexivity.
Qed.

Lemma header_lines_one_line now file_type_filter total :
  one_line now = true →
  (∀ f, file_type_filter = Some f → one_line f = true) →
  Forall (λ t, one_line t = true) (header_lines now file_type_filter total).
Proof.
  intros Hnow Hf. unfold header_lines.
  repeat first [apply Forall_cons; split | apply Forall_app; split
               | apply Forall_nil_2]; try done.
  - destruct file_type_filter as [f|]; [|done].
    case_bool_decide; [done|]. apply Forall_singleton.
    by rewrite one_line_app, (Hf f eq_refl).
  - by rewrite one_line_app, one_line_pretty.
Qed.

Lemma exclusion_line_comment s :
  exclusion_line (strip (String "#"%char s)) = false.
Proof.
  unfold strip. change (lstrip (String "#"%char s)) with (String "#"%char s).
  cbn [rstrip]. by destruct (rstrip s).
Qed.

Lemma header_lines_comments now file_type_filter total :
  Forall (λ t, exclusion_line (strip (t +:+ newline)) = false)
    (header_lines now file_type_filter total).
Proof.
  unfold header_lines.
  repeat first [apply Forall_cons; split | apply Forall_app; split
               | apply Forall_nil_2];
    try apply exclusion_line_comment; try done.
  destruct file_type_filter as [f|]; [|done].
  case_bool_decide; [done|]. apply Forall_singleton.
  apply exclusion_line_comment.
Qed.

Lemma rstrip_newline t : rstrip (t +:+ newline) = rstrip t.
Proof.
  induction t as [|c t IH]; [done|].
  change (String c t +:+ newline) with (String c (t +:+ newline)).
  cbn [rstrip]. by rewrite IH.
Qed.

Lemma str_path_slash p : ∃ s, str_path p = String sep s.
Proof. destruct p; simpl; eauto. Qed.

(** A line of the list is read back as the text of its folder. *)
Lemma folder_line p :
  tidy (str_path p) = true →
  strip (str_path p +:+ newline) = str_path p
  ∧ exclusion_line (str_path p) = true.
Proof.
  intros [_ Hr%bool_decide_eq_true]%andb_true_iff.
  destruct (str_path_slash p) as [s Hs]. rewrite Hs in *.
  split; [|done]. unfold strip.
  change (lstrip (String sep s +:+ newline)) with (String sep s +:+ newline).
  by rewrite rstrip_newline.
Qed.

Lemma saved_lines can_write now file_type_filter st text :
  save_folders_list can_write now file_type_filter st = Saved text →
  one_line now = true →
  (∀ f, file_type_filter = Some f → one_line f = true) →
  (∀ p, p ∈ folders_with_files st → one_line (str_path p) = true) →
  readlines text
  = map (λ t, t +:+ newline)
      (header_lines now file_type_filter (length (sorted_folders st))
       ++ sorted_folders st).
Proof.
  intros Hsave Hnow Hf Hfolders.
  assert (text
          = foldr String.append ""
              (folders_header now file_type_filter
                 (length (sorted_folders st))
               ++ map (λ folder, folder +:+ newline) (sorted_folders st)))
    as ->.
  { unfold save_folders_list in Hsave.
    case_bool_decide; [done|]. destruct can_write; [|done].
    by injection Hsave as <-. }
  rewrite foldr_app, folders_header_lines, <- foldr_app, <- map_app.
  apply readlines_lines, Forall_app. split.
  - by apply header_lines_one_line.
  - apply Forall_forall. intros s (p & Hp & ->)%sorted_folders_elem.
    by apply Hfolders.
Qed.

Lemma scanning_folders_empty excl st :
  scanning excl st → folders_with_files st = ∅ ↔ cataloged st = [].
Proof.
  apply (scanning_steps excl (λ st,
    folders_with_files st = ∅ ↔ cataloged st = [])).
  - done.
  - done.
  - intros st0 r fs include_hash target p _ _.
    unfold ingest, cataloged. cbn [folders_with_files catalog]. split.
    + intros H. assert (fi_parent_dir r ∈ (∅ : gset path)) as H0.
      { rewrite <- H. set_solver. }
      by apply elem_of_empty in H0.
    + intros H. apply (f_equal length) in H.
      by rewrite cataloged_append_length in H.
Qed.

(** X28. [save_folders_list] writes nothing exactly when no folder was
    recorded, which after a scan is when the catalogue is empty. What it
    writes is read back, line by line, as a header of lines that the loader
    of the exclusions skips (comments and a blank line), followed by one
    line for each recorded folder: the texts of the folders, each once, in
    increasing order. (The timestamp, the filter and the folders are taken
    to hold no line break.) *)
Theorem folders_list_lines (can_write : bool) (now : string)
    (file_type_filter : option string) (st : cataloger) :
  let result := save_folders_list can_write now file_type_filter st in
  let header :=
    header_lines now file_type_filter (length (sorted_folders st)) in
  (result = NothingToSave ↔ folders_with_files st = ∅)
  ∧ (∀ excl, scanning excl st →
             result = NothingToSave ↔ cataloged st = [])
  ∧ increasing (sorted_folders st) = true
  ∧ NoDup (sorted_folders st)
  ∧ (∀ s, s ∈ sorted_folders st
          ↔ ∃ p, p ∈ folders_with_files st ∧ s = str_path p)
  ∧ Forall (λ t, exclusion_line (strip (t +:+ newline)) = false) header
  ∧ ∀ text,
      result = Saved text →
      one_line now = true →
      (∀ f, file_type_filter = Some f → one_line f = true) →
      (∀ p, p ∈ folders_with_files st → one_line (str_path p) = true) →
      readlines text
      = map (λ t, t +:+ newline) (header ++ sorted_folders st).
Proof.
  intros result header.
  assert (result = NothingToSave ↔ folders_with_files st = ∅) as Hnothing.
  { unfold result, save_folders_list. case_bool_decide; [done|].
    by destruct can_write. }
  split; [exact Hnothing|]. split; [|split; [|split; [|split; [|split]]]].
  - intros excl Hst. rewrite Hnothing. by apply (scanning_folders_empty excl).
  - apply sorted_increasing.
  - apply sorted_folders_NoDup.
  - apply sorted_folders_elem.
  - apply header_lines_comments.
  - intros text. apply saved_lines.
Qed.

Lemma folders_list_lines_witness :
  readlines
    match save_folders_list true "2026-01-01T00:00:00" None folders with
    | Saved text => text
    | _ => ""
    end
  = map (λ t, t +:+ newline)
      (header_lines "2026-01-01T00:00:00" None (length (sorted_folders folders))
       ++ sorted_folders folders).
Proof.
  destruct (folders_list_lines true "2026-01-01T00:00:00" None folders)
    as (_ & _ & _ & _ & _ & _ & Hread).
  apply Hread.
  - reflexivity.
  - reflexivity.
  - done.
  - intros p Hp. apply elem_of_elements in Hp. revert p Hp.
    apply Forall_forall. vm_compute. repeat constructor.
Defined.

(** What loading does with lines that the loader skips, and with lines that
    resolve. *)
Lemma load_lines_skipped resolve lines x :
  Forall (λ l, exclusion_line (strip l) = false) lines →
  fold_left (load_line resolve) lines x = x.
Proof.
  induction 1 as [|l lines Hl _ IH]; [done|].
  cbn [fold_left]. unfold load_line at 2. by rewrite Hl.
Qed.

Lemma load_lines_resolved resolve lines : ∀ x,
  Forall (λ l, resolves resolve (strip l) = true) lines →
  x_errors (fold_left (load_line resolve) lines x) = x_errors x.
Proof.
  induction lines as [|l lines IH]; intros x Hall; [done|].
  apply Forall_cons in Hall as [Hl Hall]. cbn [fold_left].
  rewrite IH by done. unfold load_line, resolves in *.
  apply andb_true_iff in Hl as [-> Hl]. apply bool_decide_eq_true in Hl.
  by destruct Hl as [a ->].
Qed.

(** X29. The list that [save_folders_list] writes can be used as
    [folder_exclusions.txt]: when the text of each recorded folder holds no
    line break, does not end with white space and resolves to the folder,
    loading the file logs no error and adds to the exclusion set exactly the
    recorded folders, so that a cataloguer built with it excludes every
    recorded folder and everything below. *)
Theorem folders_list_round_trip (resolve : string -> option path)
    (can_write : bool) (now : string) (file_type_filter : option string)
    (st : cataloger) (text : string) (exclude_paths : list path) :
  save_folders_list can_write now file_type_filter st = Saved text →
  one_line now = true →
  (∀ f, file_type_filter = Some f → one_line f = true) →
  (∀ p, p ∈ folders_with_files st →
        tidy (str_path p) = true ∧ resolve (str_path p) = Some p) →
  let x := _load_folder_exclusions resolve (Lines (readlines text))
             exclude_paths in
  x_errors x = []
  ∧ (∀ p, p ∈ x_paths x ↔ p ∈ exclude_paths ∨ p ∈ folders_with_files st)
  ∧ (∀ p q, p ∈ folders_with_files st →
            _is_path_excluded (new_cataloger (x_paths x)) (p ++ q) = true).
Proof.
  intros Hsave Hnow Hf Hfolders x.
  assert (readlines text
          = map (λ t, t +:+ newline)
              (header_lines now file_type_filter
                 (length (sorted_folders st)))
            ++ map (λ t, t +:+ newline) (sorted_folders st)) as Hlines.
  { rewrite <- map_app. apply (saved_lines can_write); [done|done|done|].
    intros p Hp. destruct (Hfolders p Hp) as [Ht _].
    by apply andb_true_iff in Ht as [Ht _]. }
  assert (∀ l, l ∈ map (λ t, t +:+ newline) (sorted_folders st) →
               ∃ p, p ∈ folders_with_files st ∧ strip l = str_path p
                    ∧ exclusion_line (strip l) = true
                    ∧ resolve (strip l) = Some p) as Hbody.
  { intros l (s & -> & Hs)%list_elem_of_fmap.
    apply sorted_folders_elem in Hs as (p & Hp & ->).
    destruct (Hfolders p Hp) as [Ht Hr].
    destruct (folder_line p Ht) as [Hstrip Hex]. exists p.
    by rewrite Hstrip. }
  assert (x = fold_left (load_line resolve)
                (map (λ t, t +:+ newline) (sorted_folders st))
                {| x_paths := exclude_paths; x_errors := [];
                   x_count := 0 |}) as Hx.
  { unfold x, _load_folder_exclusions. rewrite Hlines, fold_left_app.
    rewrite (load_lines_skipped resolve
               (map (λ t, t +:+ newline)
                  (header_lines now file_type_filter
                     (length (sorted_folders st))))); [done|].
    apply Forall_fmap, header_lines_comments. }
  assert (∀ p, p ∈ x_paths x ↔ p ∈ exclude_paths ∨ p ∈ folders_with_files st)
    as Hpaths.
  { intros p. rewrite Hx, load_lines_paths. cbn [x_paths]. split.
    - intros [H|(l & Hl & _ & Hr)]; [by left|]. right.
      destruct (Hbody l Hl) as (p' & Hp' & _ & _ & Hr'). congruence.
    - intros [H|Hp]; [by left|]. right.
      destruct (Hfolders p Hp) as [Ht Hr].
      destruct (folder_line p Ht) as [Hstrip Hex].
      exists (str_path p +:+ newline). rewrite Hstrip.
      split; [|done]. apply list_elem_of_fmap. exists (str_path p).
      split; [done|]. apply sorted_folders_elem. by exists p. }
  split; [|split; [exact Hpaths|]].
  - rewrite Hx, load_lines_resolved; [done|].
    apply Forall_forall. intros l Hl.
    destruct (Hbody l Hl) as (p & _ & _ & Hex & Hr).
    unfold resolves. rewrite Hex, Hr. by apply bool_decide_eq_true_2.
  - intros p q Hp. rewrite is_path_excluded_existsb.
    apply existsb_exists. exists p. split.
    + apply list_elem_of_In, Hpaths. by right.
    + apply is_relative_to_prefix. by exists q.
Qed.

Lemma folders_list_round_trip_witness :
  _is_path_excluded
    (new_cataloger
       (x_paths
          (_load_folder_exclusions folders_resolve
             (Lines
                (readlines
                   match save_folders_list true "2026-01-01T00:00:00" None
                           folders with
                   | Saved text => text
                   | _ => ""
                   end))
             [])))
    (["vol"; "a"] ++ ["y.jpg"]) = true.
Proof.
  destruct (folders_list_round_trip folders_resolve true
              "2026-01-01T00:00:00" None folders
              match save_folders_list true "2026-01-01T00:00:00" None
                      folders with
              | Saved text => text
              | _ => ""
              end
              []) as (_ & _ & Hex).
  - reflexivity.
  - reflexivity.
  - done.
  - intros p Hp. apply elem_of_elements in Hp. revert p Hp.
    apply Forall_forall. vm_compute. repeat constructor.
  - apply Hex. apply elem_of_elements. vm_compute. right. left.
Defined.

(** ** When organising succeeds *)



























(** ** The scan and the operating system *)

Section scan_os.

Context (denied : path -> bool) (resolve : path -> option path).

Lemma guarded_excluded_same st1 st2 p :
  exclude_paths st1 = exclude_paths st2 →
  Guarded._is_path_excluded resolve st1 p
  = Guarded._is_path_excluded resolve st2 p.
Proof.
  intros H. unfold Guarded._is_path_excluded, _is_path_excluded.
  by rewrite H.
Qed.

Lemma guarded_raises_same fs st1 st2 p :
  exclude_paths st1 = exclude_paths st2 →
  Guarded.raises denied resolve fs st1 p
  = Guarded.raises denied resolve fs st2 p.
Proof.
  intros H. unfold Guarded.raises.
  by rewrite (guarded_excluded_same st1 st2).
Qed.

Lemma guarded_record_same fs include_hash target st1 st2 p :
  exclude_paths st1 = exclude_paths st2 →
  Guarded.scan_record resolve fs include_hash target st1 p
  = Guarded.scan_record resolve fs include_hash target st2 p.
Proof.
  intros H. unfold Guarded.scan_record.
  rewrite (guarded_excluded_same st1 st2) by done.
  unfold get_file_info.
  by destruct (fs_lookup fs p) as [[[[s|] md5]|w es]|].
Qed.

Lemma guarded_stat_fails_same fs target st1 st2 p :
  exclude_paths st1 = exclude_paths st2 →
  Guarded.stat_fails resolve fs target st1 p
  = Guarded.stat_fails resolve fs target st2 p.
Proof.
  intros H. unfold Guarded.stat_fails.
  rewrite (guarded_excluded_same st1 st2) by done.
  unfold get_file_info.
  by destruct (fs_lookup fs p) as [[[[s|] md5]|w es]|].
Qed.

Lemma guarded_handled_same fs st1 st2 files :
  exclude_paths st1 = exclude_paths st2 →
  Guarded.handled denied resolve fs st1 files
  = Guarded.handled denied resolve fs st2 files
  ∧ Guarded.abandoned denied resolve fs st1 files
    = Guarded.abandoned denied resolve fs st2 files.
Proof.
  intros H. induction files as [|[p|] files [IH1 IH2]]; simpl; try done.
  by rewrite (guarded_raises_same fs st1 st2), IH1, IH2.
Qed.

Lemma guarded_files_same fs directory max_depth st1 st2 :
  exclude_paths st1 = exclude_paths st2 →
  Guarded.scan_files resolve st1 fs directory max_depth
  = Guarded.scan_files resolve st2 fs directory max_depth.
Proof.
  intros H. unfold Guarded.scan_files. destruct max_depth as [d|]; [|done].
  unfold Guarded._get_files_with_depth, Guarded.walk_prune,
    Guarded.root_excluded, Guarded._is_path_excluded, _is_path_excluded.
  by rewrite H.
Qed.

(** What one round of the loop does: it raises, or it leaves the state as
    it was, or it logs the file whose metadata cannot be read, or it adds
    the record of the file. *)
Lemma guarded_scan_file_cases fs include_hash target st p :
  let raise := Guarded.raises denied resolve fs st p in
  let record := Guarded.scan_record resolve fs include_hash target st p in
  let fails := Guarded.stat_fails resolve fs target st p in
  match Guarded.scan_file denied resolve fs include_hash target st p with
  | None => raise = true
  | Some st' =>
      raise = false
      ∧ ((st' = st ∧ record = None ∧ fails = false)
         ∨ (st' = add_error (ErrAccess p) st ∧ record = None ∧ fails = true)
         ∨ (∃ r, st' = ingest r st ∧ record = Some r ∧ fails = false))
  end.
Proof.
  unfold Guarded.scan_file, Guarded.raises, Guarded.scan_record,
    Guarded.stat_fails.
  destruct (denied p); [done|]. cbn [orb].
  destruct (is_file fs p) eqn:Hfile; [|by split; [|left]].
  cbn [andb].
  destruct (Guarded._is_path_excluded resolve st p) as [[|]|] eqn:Hex.
  - split; [done|]. by left.
  - destruct (_ && _); [by split; [|left]|]. cbn [negb andb].
    unfold get_file_info.
    destruct (fs_lookup fs p) as [[[[s|] md5]|w es]|]; cbn [fst].
    + split; [done|]. right. right. by eexists.
    + split; [done|]. right. by left.
    + split; [done|]. right. by left.
    + split; [done|]. right. by left.
  - by rewrite bool_decide_eq_true_2.
Qed.

Lemma guarded_scan_file_exclude_paths fs include_hash target st p st' :
  Guarded.scan_file denied resolve fs include_hash target st p = Some st' →
  exclude_paths st' = exclude_paths st.
Proof.
  intros H.
  pose proof (guarded_scan_file_cases fs include_hash target st p) as Hc.
  rewrite H in Hc.
  by destruct Hc as [_ [(-> & _)|[(-> & _)|(r & -> & _)]]].
Qed.

(** The loop: the files it handles, what it logs and what it catalogues. *)
Lemma guarded_scan_loop fs include_hash target files : ∀ st,
  let result :=
    Guarded.scan_loop denied resolve fs include_hash target files st in
  let done := Guarded.handled denied resolve fs st files in
  result.2 = Guarded.abandoned denied resolve fs st files
  ∧ exclude_paths result.1 = exclude_paths st
  ∧ errors result.1
    = errors st
      ++ map ErrAccess
           (List.filter (Guarded.stat_fails resolve fs target st) done)
  ∧ cataloged result.1
    ≡ₚ cataloged st
       ++ omap (Guarded.scan_record resolve fs include_hash target st) done.
Proof.
  induction files as [|[p|] files IH]; intros st; cbn zeta.
  - simpl. by rewrite !app_nil_r.
  - cbn [Guarded.scan_loop Guarded.handled Guarded.abandoned].
    pose proof (guarded_scan_file_cases fs include_hash target st p) as Hc.
    destruct (Guarded.scan_file denied resolve fs include_hash target st p)
      as [st1|] eqn:Hstep; cbn zeta in Hc.
    + destruct Hc as [Hraise Hc]. rewrite Hraise. cbn [orb].
      assert (exclude_paths st1 = exclude_paths st) as Hex
        by (by apply (guarded_scan_file_exclude_paths fs include_hash
                        target st p)).
      destruct (IH st1) as (H1 & H2 & H3 & H4).
      destruct (guarded_handled_same fs st1 st files Hex) as [Hh Ha].
      rewrite Hh in H3, H4. rewrite Ha in H1.
      assert (List.filter (Guarded.stat_fails resolve fs target st1)
                (Guarded.handled denied resolve fs st files)
              = List.filter (Guarded.stat_fails resolve fs target st)
                  (Guarded.handled denied resolve fs st files)) as Hf.
      { apply filter_ext. intros q. by apply guarded_stat_fails_same. }
      assert (omap (Guarded.scan_record resolve fs include_hash target st1)
                (Guarded.handled denied resolve fs st files)
              = omap (Guarded.scan_record resolve fs include_hash target st)
                  (Guarded.handled denied resolve fs st files)) as Hr.
      { apply omap_pointwise. intros q. by apply guarded_record_same. }
      rewrite Hf in H3. rewrite Hr in H4.
      split; [done|]. split; [congruence|].
      cbn [List.filter omap list_omap].
      destruct Hc as [(-> & -> & ->)|[(-> & -> & ->)|(r & -> & -> & ->)]].
      * done.
      * split; [|done]. rewrite H3. cbn [errors add_error map].
        by rewrite <- app_assoc.
      * split; [done|]. rewrite H4. unfold cataloged at 1, ingest.
        cbn [catalog]. rewrite cataloged_append_perm.
        by rewrite <- app_assoc.
    + rewrite Hc. simpl. by rewrite !app_nil_r.
  - simpl. by rewrite !app_nil_r.
Qed.

Lemma guarded_scan_directory fs directory include_hash max_depth filter st :
  let target := target_extensions_of filter in
  let done := Guarded.scan_handled denied resolve fs directory max_depth st in
  match Guarded.scan_directory denied resolve fs directory include_hash
          max_depth filter st with
  | None => denied directory = true
  | Some st' =>
      denied directory = false
      ∧ exclude_paths st' = exclude_paths st
      ∧ errors st'
        = errors st
          ++ map ErrAccess
               (List.filter (Guarded.stat_fails resolve fs target st) done)
          ++ (if Guarded.scan_abandoned denied resolve fs directory
                   max_depth st
              then [ErrScan directory] else [])
      ∧ cataloged st'
        ≡ₚ cataloged st
           ++ omap (Guarded.scan_record resolve fs include_hash target st)
                done
  end.
Proof.
  unfold Guarded.scan_directory, Guarded.scan_handled,
    Guarded.scan_abandoned.
  destruct (denied directory); [done|].
  destruct (path_exists fs directory); cbn [negb andb].
  - pose proof (guarded_scan_loop fs include_hash
                  (target_extensions_of filter)
                  (Guarded.scan_files resolve st fs directory max_depth) st)
      as (H1 & H2 & H3 & H4).
    destruct (Guarded.scan_loop _ _ _ _ _ _ _) as [st' raised].
    cbn [fst snd] in *. subst raised. split; [done|].
    destruct (Guarded.abandoned _ _ _ _ _).
    + cbn [exclude_paths errors add_error]. split; [done|].
      split; [by rewrite H3, <- app_assoc|done].
    + split; [done|]. split; [by rewrite H3, app_nil_r|done].
  - simpl. by rewrite !app_nil_r.
Qed.

Lemma guarded_scan_multiple fs volumes include_hash max_depth filter :
  ∀ st,
  let target := target_extensions_of filter in
  match Guarded.scan_multiple_volumes denied resolve fs volumes include_hash
          max_depth filter st with
  | None => ∃ root, root ∈ volumes ∧ denied root = true
  | Some st' =>
      (∀ root, root ∈ volumes → denied root = false)
      ∧ exclude_paths st' = exclude_paths st
      ∧ cataloged st'
        ≡ₚ cataloged st
           ++ flat_map
                (λ root,
                   omap (Guarded.scan_record resolve fs include_hash target
                           st)
                     (Guarded.scan_handled denied resolve fs root max_depth
                        st))
                volumes
  end.
Proof.
  induction volumes as [|v volumes IH]; intros st; cbn zeta.
  - simpl. split; [by intros root ?%elem_of_nil|]. by rewrite app_nil_r.
  - cbn [Guarded.scan_multiple_volumes].
    pose proof (guarded_scan_directory fs v include_hash max_depth filter st)
      as Hd.
    destruct (Guarded.scan_directory _ _ _ _ _ _ _ _) as [st1|];
      cbn zeta in Hd.
    + destruct Hd as (Hv & Hex & _ & Hcat).
      specialize (IH st1). cbn zeta in IH.
      destruct (Guarded.scan_multiple_volumes _ _ _ _ _ _ _ _) as [st'|].
      * destruct IH as (Hall & Hex' & Hcat').
        split; [|split; [congruence|]].
        { intros root [->|Hr]%elem_of_cons; [done|by apply Hall]. }
        rewrite Hcat', Hcat, <- app_assoc. cbn [flat_map].
        do 2 apply Permutation_app_head.
        match goal with |- ?a ≡ₚ ?b => assert (a = b) as ->; [|done] end.
        clear -Hex. induction volumes as [|w volumes IHv]; [done|].
        cbn [flat_map]. rewrite IHv. f_equal.
        unfold Guarded.scan_handled. destruct (path_exists fs w); [|done].
        rewrite (guarded_files_same fs w max_depth st1 st Hex).
        destruct (guarded_handled_same fs st1 st
                    (Guarded.scan_files resolve st fs w max_depth) Hex)
          as [-> _].
        apply omap_pointwise. intros q. by apply guarded_record_same.
      * destruct IH as (root & Hr & Hden). exists root. split; [by right|done].
    + exists v. split; [by left|done].
Qed.

End scan_os.

Section scan_os_properties.

Context (denied : path -> bool) (resolve : path -> option path).

(** The files that the loop handles are those given to it before the first
    exception: none of them raises, and when the scan is abandoned the next
    step is an exception of the iterator or of the body of the loop. *)
Lemma handled_until_exception fs st files :
  let done := Guarded.handled denied resolve fs st files in
  Forall (λ p, Guarded.raises denied resolve fs st p = false) done
  ∧ if Guarded.abandoned denied resolve fs st files
    then ∃ rest, files = map Some done ++ rest
                 ∧ match rest with
                   | Some p :: _ =>
                       Guarded.raises denied resolve fs st p = true
                   | None :: _ => True
                   | [] => False
                   end
    else files = map Some done.
Proof.
  induction files as [|[p|] files [IH1 IH2]]; cbn zeta.
  - done.
  - cbn [Guarded.handled Guarded.abandoned].
    destruct (Guarded.raises denied resolve fs st p) eqn:Hp; cbn [orb].
    + split; [done|]. by exists (Some p :: files).
    + split; [by constructor|].
      destruct (Guarded.abandoned denied resolve fs st files).
      * destruct IH2 as (rest & Hfiles & Hrest). exists rest.
        split; [|done]. cbn [map app]. by rewrite <- Hfiles.
      * cbn [map]. by rewrite <- IH2.
  - split; [done|]. by exists (None :: files).
Qed.

Lemma guarded_record_fields fs include_hash target st p r :
  Guarded.scan_record resolve fs include_hash target st p = Some r →
  fi_path r = p
  ∧ is_file fs p = true
  ∧ Guarded._is_path_excluded resolve st p = Some false.
Proof.
  unfold Guarded.scan_record.
  destruct (is_file fs p); [|done].
  destruct (Guarded._is_path_excluded resolve st p) as [[|]|]; try done.
  destruct (_ && _); [done|].
  unfold get_file_info.
  destruct (fs_lookup fs p) as [[[[s|] md5]|w es]|]; cbn [fst]; try done.
  intros [= <-]. by destruct include_hash.
Qed.

Lemma guarded_excluded_false st p D :
  Guarded._is_path_excluded resolve st p = Some false →
  D ∈ exclude_paths st →
  ∃ target, resolve p = Some target ∧ is_relative_to target D = false.
Proof.
  unfold Guarded._is_path_excluded. intros Hex HD.
  destruct (exclude_paths st) as [|e excl] eqn:Hexcl;
    [by apply elem_of_nil in HD|].
  destruct (resolve p) as [target|]; [|done]. exists target. split; [done|].
  injection Hex as Hex.
  apply (not_excluded_not_relative st); [done|by rewrite Hexcl].
Qed.

(** X15. What a scan of a root logs. [directory.exists()] is outside the
    [try]: on a root whose [stat] is refused the exception leaves
    [scan_directory], and on no other root. Otherwise the scan returns, and it
    has appended to the log one 'Erro ao acessar' for each file that the loop
    handled and whose metadata could not be read, in the order of the
    traversal, and then, when an exception ended the loop, one 'Erro ao
    varrer diretório' for the root; 'Erro ao processar' is not logged (the
    calls of the inner [try] absorb their exceptions, and [print] is taken
    to return). The files that the loop handled are those met before the first exception
    (see [handled_until_exception]): the records that the scan adds are the
    records of these files, and the files after them are neither catalogued
    nor logged. *)
Theorem scan_directory_logs fs (directory : path) include_hash max_depth
    (file_type_filter : option string) (st : cataloger) :
  let target := target_extensions_of file_type_filter in
  let scan :=
    Guarded.scan_directory denied resolve fs directory include_hash max_depth
      file_type_filter st in
  let done := Guarded.scan_handled denied resolve fs directory max_depth st in
  (scan = None ↔ denied directory = true)
  ∧ ∀ st', scan = Some st' →
      errors st'
      = errors st
        ++ map ErrAccess
             (List.filter (Guarded.stat_fails resolve fs target st) done)
        ++ (if Guarded.scan_abandoned denied resolve fs directory max_depth st
            then [ErrScan directory] else [])
      ∧ cataloged st'
        ≡ₚ cataloged st
           ++ Guarded.scan_records denied resolve fs include_hash max_depth
                file_type_filter st directory.
Proof.
  intros target scan done.
  pose proof (guarded_scan_directory denied resolve fs directory include_hash
                max_depth file_type_filter st) as H.
  cbn zeta in H. fold scan in H. destruct scan as [st1|].
  - destruct H as (Hden & _ & Herr & Hcat). split.
    + split; [done|]. intros Hd. by rewrite Hd in Hden.
    + intros st' [= <-]. by split.
  - split; [done|]. by intros st' ?.
Qed.

(** X17. A scan of several roots accumulates. It ends with an exception
    exactly when the [stat] of one of the roots is refused. Otherwise, up to
    order, the catalogue afterwards holds the records that were there and,
    for each root in turn, one record for each file that the loop of this root
    handled and accepted: a file met under two roots (or a root given twice)
    is catalogued twice, and a root whose scan was abandoned at an exception
    contributes the files met before it only. From a new cataloguer, the
    scan of a list of roots catalogues what the scans of its parts
    catalogue, together. *)
Theorem scan_roots_accumulate fs (before after : list path) include_hash
    max_depth (file_type_filter : option string) (st : cataloger)
    (excl : list path) :
  let scan volumes st :=
    Guarded.scan_multiple_volumes denied resolve fs volumes include_hash
      max_depth file_type_filter st in
  (scan before st = None ↔ ∃ root, root ∈ before ∧ denied root = true)
  ∧ (∀ st', scan before st = Some st' →
       cataloged st'
       ≡ₚ cataloged st
          ++ flat_map
               (Guarded.scan_records denied resolve fs include_hash max_depth
                  file_type_filter st)
               before)
  ∧ (∀ st1 st2 st',
       scan before (new_cataloger excl) = Some st1 →
       scan after (new_cataloger excl) = Some st2 →
       scan (before ++ after) (new_cataloger excl) = Some st' →
       cataloged st' ≡ₚ cataloged st1 ++ cataloged st2).
Proof.
  intros scan.
  assert (∀ volumes st0 st',
            scan volumes st0 = Some st' →
            cataloged st'
            ≡ₚ cataloged st0
               ++ flat_map
                    (Guarded.scan_records denied resolve fs include_hash
                       max_depth file_type_filter st0)
                    volumes) as Hcat.
  { intros volumes st0 st' Hscan.
    pose proof (guarded_scan_multiple denied resolve fs volumes include_hash
                  max_depth file_type_filter st0) as H.
    cbn zeta in H. fold (scan volumes st0) in H. rewrite Hscan in H.
    by destruct H as (_ & _ & H). }
  split; [|split].
  - pose proof (guarded_scan_multiple denied resolve fs before include_hash
                  max_depth file_type_filter st) as H.
    cbn zeta in H. fold (scan before st) in H.
    destruct (scan before st) as [st1|].
    + destruct H as (Hall & _). split; [done|].
      intros (root & Hroot & Hden). by rewrite (Hall root Hroot) in Hden.
    + done.
  - apply Hcat.
  - intros st1 st2 st' H1 H2 H.
    rewrite (Hcat _ _ _ H), (Hcat _ _ _ H1), (Hcat _ _ _ H2).
    cbn [cataloged new_cataloger catalog flat_map app].
    by rewrite flat_map_app.
Qed.

(** X6. The exclusions are tested on the resolved path of a file, and its
    record keeps the path as the traversal gave it: after a scan from a new
    cataloguer, with or without a depth limit, the path of every record
    resolves, and to a path that lies neither at nor under an excluded path.
    The path of the record itself can lie under an excluded path (a link in
    an excluded directory to a file outside: see [link_under_excluded]). *)
Theorem excluded_by_resolved_path fs (volumes : list path) include_hash
    max_depth (file_type_filter : option string) (excl : list path)
    (st' : cataloger) (r : file_info) (D : path) :
  Guarded.scan_multiple_volumes denied resolve fs volumes include_hash
    max_depth file_type_filter (new_cataloger excl) = Some st' →
  r ∈ cataloged st' →
  D ∈ excl →
  ∃ target, resolve (fi_path r) = Some target
            ∧ is_relative_to target D = false.
Proof.
  intros Hscan Hr HD.
  pose proof (guarded_scan_multiple denied resolve fs volumes include_hash
                max_depth file_type_filter (new_cataloger excl)) as H.
  cbn zeta in H. rewrite Hscan in H. destruct H as (_ & _ & Hcat).
  rewrite Hcat in Hr. cbn [cataloged new_cataloger catalog flat_map app] in Hr.
  apply list_elem_of_In, in_flat_map in Hr as (root & _ & Hr).
  apply list_elem_of_In in Hr. unfold Guarded.scan_records in Hr.
  apply list_elem_of_omap in Hr as (p & _ & Hr).
  apply guarded_record_fields in Hr as (<- & _ & Hex).
  by apply (guarded_excluded_false (new_cataloger excl)).
Qed.

End scan_os_properties.

(** ** The depth limit under the operating system *)

Section depth_limit_os.

Context (denied : path -> bool) (resolve : path -> option path).

Lemma handled_given fs st files p :
  p ∈ Guarded.handled denied resolve fs st files → Some p ∈ files.
Proof.
  induction files as [|[q|] files IH]; cbn [Guarded.handled];
    try by intros ?%elem_of_nil.
  destruct (Guarded.raises denied resolve fs st q);
    [by intros ?%elem_of_nil|].
  intros [->|Hp]%elem_of_cons; [by left|]. right. by apply IH.
Qed.

Lemma guarded_depth_files_under st fs directory max_depth p :
  Some p ∈ Guarded._get_files_with_depth resolve st fs directory max_depth →
  directory `prefix_of` p.
Proof.
  unfold Guarded._get_files_with_depth.
  destruct (fs_lookup fs directory) as [n|]; [|by intros ?%elem_of_nil].
  intros Hp. apply list_elem_of_In, in_flat_map in Hp as ([root files] & Hin & Hp).
  assert (directory `prefix_of` root) as Hpre.
  { apply (os_walk_under
             (Guarded.walk_prune resolve st directory max_depth) n).
    apply list_elem_of_In, in_map_iff. by exists (root, files). }
  destruct (Guarded.root_excluded resolve st root) as [[|]|].
  - done.
  - apply in_map_iff in Hp as (name & [= <-] & _).
    unfold joinpath. case_bool_decide; [done|by apply prefix_app_r].
  - by destruct Hp as [Hp|Hp].
Qed.

(** A file that the depth-limited scan of a root handles is one of those that
    the wildcard gives to the scan without limit. *)
Lemma guarded_depth_handled_unbounded fs root max_depth st p d :
  p ∈ Guarded.scan_handled denied resolve fs root (Some max_depth) st →
  fs_lookup fs p = Some (File d) →
  p ∈ rglob fs root.
Proof.
  unfold Guarded.scan_handled. intros Hp Hfile.
  destruct (path_exists fs root); [|by apply elem_of_nil in Hp].
  apply handled_given in Hp. cbn [Guarded.scan_files] in Hp.
  pose proof (guarded_depth_files_under _ _ _ _ _ Hp) as [k ->].
  destruct (snoc_cases k) as [->|(q & name & ->)].
  - rewrite app_nil_r in Hfile. unfold Guarded._get_files_with_depth in Hp.
    rewrite Hfile in Hp. by apply elem_of_nil in Hp.
  - by apply (rglob_lookup fs root q name (File d)).
Qed.

(** X9. A depth limit only restricts a scan that is not abandoned. When no
    exception ends the loop of the scan without limit at any of the roots,
    the scan without limit returns where the depth-limited scan does, and
    every record that the limited scan catalogues is catalogued, identical,
    by the scan without limit. (When the scan without limit is abandoned it
    can miss files that the limited scan catalogues, its walk having stayed
    above the path that raises: see [abandoned_scan_misses_files].) *)
Theorem depth_limit_restricts_unabandoned fs (volumes : list path)
    include_hash (max_depth : Z) (file_type_filter : option string)
    (excl : list path) (limited : cataloger) (r : file_info) :
  (∀ root, root ∈ volumes →
     Guarded.scan_abandoned denied resolve fs root None (new_cataloger excl)
     = false) →
  Guarded.scan_multiple_volumes denied resolve fs volumes include_hash
    (Some max_depth) file_type_filter (new_cataloger excl) = Some limited →
  r ∈ cataloged limited →
  ∃ unbounded,
    Guarded.scan_multiple_volumes denied resolve fs volumes include_hash
      None file_type_filter (new_cataloger excl) = Some unbounded
    ∧ r ∈ cataloged unbounded.
Proof.
  intros Hkept Hlimited Hr.
  pose proof (guarded_scan_multiple denied resolve fs volumes include_hash
                (Some max_depth) file_type_filter (new_cataloger excl)) as Hl.
  cbn zeta in Hl. rewrite Hlimited in Hl. destruct Hl as (Hall & _ & Hcat).
  pose proof (guarded_scan_multiple denied resolve fs volumes include_hash
                None file_type_filter (new_cataloger excl)) as Hu.
  cbn zeta in Hu.
  destruct (Guarded.scan_multiple_volumes denied resolve fs volumes
              include_hash None file_type_filter (new_cataloger excl))
    as [unbounded|].
  2:{ destruct Hu as (root & Hroot & Hden).
      by rewrite (Hall root Hroot) in Hden. }
  destruct Hu as (_ & _ & Hcat'). exists unbounded. split; [done|].
  rewrite Hcat'. rewrite Hcat in Hr.
  cbn [cataloged new_cataloger catalog flat_map app] in *.
  apply list_elem_of_In, in_flat_map in Hr as (root & Hroot & Hr).
  apply list_elem_of_In, in_flat_map. exists root. split; [done|].
  apply list_elem_of_In in Hr. apply list_elem_of_In.
  apply list_elem_of_omap in Hr as (p & Hp & Hr).
  apply list_elem_of_omap. exists p. split; [|done].
  pose proof (guarded_record_fields resolve _ _ _ _ _ _ Hr) as (_ & Hfile & _).
  assert (∃ d, fs_lookup fs p = Some (File d)) as [d Hd].
  { unfold is_file in Hfile.
    destruct (fs_lookup fs p) as [[d|w es]|]; [|done|done]. by exists d. }
  pose proof (guarded_depth_handled_unbounded _ _ _ _ _ _ Hp Hd) as Hin.
  apply list_elem_of_In in Hroot.
  specialize (Hkept root Hroot).
  unfold Guarded.scan_abandoned in Hkept. unfold Guarded.scan_handled in *.
  destruct (path_exists fs root); [|by apply elem_of_nil in Hp].
  cbn [andb] in Hkept.
  pose proof (handled_until_exception denied resolve fs (new_cataloger excl)
                (Guarded.scan_files resolve (new_cataloger excl) fs root
                   None)) as [_ Hall'].
  rewrite Hkept in Hall'. cbn [Guarded.scan_files] in Hall'.
  assert (Guarded.handled denied resolve fs (new_cataloger excl)
            (Guarded.scan_files resolve (new_cataloger excl) fs root None)
          = rglob fs root) as ->; [|done].
  cbn [Guarded.scan_files].
  revert Hall'.
  generalize (Guarded.handled denied resolve fs (new_cataloger excl)
                (map Some (rglob fs root))).
  generalize (rglob fs root). clear.
  intros l. induction l as [|x l IH]; intros [|y hs] H; try done.
  cbn [map] in H. injection H as -> H. f_equal. by apply IH.
Qed.

End depth_limit_os.

(** ** The scan without refusals and without links *)

Lemma os_walk_ext prune1 prune2 n :
  (∀ p, prune1 p = prune2 p) →
  ∀ top, os_walk prune1 top n = os_walk prune2 top n.
Proof.
  intros H. induction n as [d|w es IH] using node_ind_entries; intros top.
  - done.
  - cbn [os_walk]. rewrite H. f_equal. destruct (prune2 top); [done|].
    induction es as [|[name c] rest IHrest]; [done|].
    apply Forall_cons in IH as [IHc IH]. simpl in IHc.
    by rewrite IHc, (IHrest IH).
Qed.

Section plain_scan.

Context (denied : path -> bool) (resolve : path -> option path).
Hypothesis no_refusal : ∀ p, denied p = false.
Hypothesis no_link : ∀ p, resolve p = Some p.

Lemma guarded_excluded_plain st p :
  Guarded._is_path_excluded resolve st p = Some (_is_path_excluded st p).
Proof.
  unfold Guarded._is_path_excluded, _is_path_excluded.
  destruct (exclude_paths st); [done|]. by rewrite no_link.
Qed.

Lemma guarded_scan_file_plain fs include_hash target st p :
  Guarded.scan_file denied resolve fs include_hash target st p
  = Some (scan_file fs include_hash target st p).
Proof.
  unfold Guarded.scan_file, scan_file.
  rewrite no_refusal, guarded_excluded_plain.
  destruct (is_file fs p); [|done].
  destruct (_is_path_excluded st p); [done|].
  destruct (_ && _); [done|].
  by destruct (get_file_info fs p st) as [[r|] st'].
Qed.

Lemma guarded_scan_loop_plain fs include_hash target files : ∀ st,
  Guarded.scan_loop denied resolve fs include_hash target (map Some files) st
  = (fold_left (scan_file fs include_hash target) files st, false).
Proof.
  induction files as [|p files IH]; intros st; [done|].
  cbn [map Guarded.scan_loop fold_left].
  by rewrite guarded_scan_file_plain, IH.
Qed.

Lemma guarded_scan_files_plain st fs directory max_depth :
  Guarded.scan_files resolve st fs directory max_depth
  = map Some
      match max_depth with
      | None => rglob fs directory
      | Some d => _get_files_with_depth st fs directory d
      end.
Proof.
  destruct max_depth as [d|]; [|done].
  unfold Guarded.scan_files, Guarded._get_files_with_depth,
    _get_files_with_depth.
  destruct (fs_lookup fs directory) as [n|]; [|done].
  assert (∀ root, Guarded.root_excluded resolve st root
                  = Some (_is_path_excluded st root)) as Hroot.
  { intros root. unfold Guarded.root_excluded.
    by rewrite no_link, guarded_excluded_plain. }
  rewrite (os_walk_ext (Guarded.walk_prune resolve st directory d)
             (walk_prune st directory d)).
  2:{ intros root. unfold Guarded.walk_prune, walk_prune.
      rewrite Hroot. by destruct (_is_path_excluded st root). }
  induction (os_walk (walk_prune st directory d) directory n)
    as [|[root files] l IH]; [done|].
  cbn [flat_map]. rewrite map_app, IH, Hroot. f_equal.
  destruct (_is_path_excluded st root); [done|]. by rewrite map_map.
Qed.

Lemma guarded_scan_directory_plain fs directory include_hash max_depth
    file_type_filter st :
  Guarded.scan_directory denied resolve fs directory include_hash max_depth
    file_type_filter st
  = Some (scan_directory fs directory include_hash max_depth
            file_type_filter st).
Proof.
  unfold Guarded.scan_directory, scan_directory.
  rewrite no_refusal. destruct (negb (path_exists fs directory)); [done|].
  cbn zeta. by rewrite guarded_scan_files_plain, guarded_scan_loop_plain.
Qed.

(** With no [stat] refused and no link, the scan under the operating system
    is the scan of [scan_multiple_volumes]. *)
Lemma guarded_scan_plain fs volumes include_hash max_depth file_type_filter :
  ∀ st,
  Guarded.scan_multiple_volumes denied resolve fs volumes include_hash
    max_depth file_type_filter st
  = Some (scan_multiple_volumes fs volumes include_hash max_depth
            file_type_filter st).
Proof.
  unfold scan_multiple_volumes.
  induction volumes as [|v volumes IH]; intros st; [done|].
  cbn [Guarded.scan_multiple_volumes fold_left].
  by rewrite guarded_scan_directory_plain, IH.
Qed.

End plain_scan.

(** ** The scan on the sample trees *)

(** A scan without limit is abandoned at the first path that raises: on the
    volume with the directory that cannot be searched, [/vol/a/x.txt] is
    catalogued, [is_file()] raises on [/vol/a/locked/y.txt], the root is
    logged and [/vol/b/w.txt], which comes after, is not catalogued. With a
    depth limit of 1 the walk stays above [/vol/a/locked]: nothing raises and
    [/vol/b/w.txt] is catalogued. A root whose own [stat] is refused ends the
    whole scan with the exception. *)
Lemma abandoned_scan_misses_files :
  let scan volumes max_depth :=
    Guarded.scan_multiple_volumes unsearchable_denied no_links fs_unsearchable
      volumes false max_depth None (new_cataloger []) in
  scan_outcome_paths (scan [["vol"]] None)
  = Some ([["vol"; "a"; "x.txt"]], [ErrScan ["vol"]])
  ∧ scan_outcome_paths (scan [["vol"]] (Some 1%Z))
    = Some ([["vol"; "a"; "x.txt"]; ["vol"; "b"; "w.txt"]], [])
  ∧ scan [["vol"; "b"]; ["vol"; "a"; "locked"; "y.txt"]] None = None.
Proof. by vm_compute. Qed.

(** A link under an excluded directory that leads outside of it is
    catalogued by the scan without limit, with its own path, which lies
    under the excluded directory; a link outside that leads into the excluded
    directory is not catalogued. With a depth limit the excluded directory is
    not listed, and the link under it is not catalogued. *)
Lemma link_under_excluded :
  let scan max_depth :=
    Guarded.scan_multiple_volumes no_denied links_resolve fs_links [["vol"]]
      false max_depth None (new_cataloger [["vol"; "skip"]]) in
  scan_outcome_paths (scan None)
  = Some ([["vol"; "b"; "w.txt"]; ["vol"; "skip"; "link.txt"]], [])
  ∧ is_relative_to ["vol"; "skip"; "link.txt"] ["vol"; "skip"] = true
  ∧ scan_outcome_paths (scan (Some 3%Z)) = Some ([["vol"; "b"; "w.txt"]], []).
Proof. by vm_compute. Qed.

Lemma excluded_by_resolved_path_witness :
  ∃ target,
    links_resolve ["vol"; "skip"; "link.txt"] = Some target
    ∧ is_relative_to target ["vol"; "skip"] = false.
Proof.
  destruct (Guarded.scan_multiple_volumes no_denied links_resolve fs_links
              [["vol"]] false None None (new_cataloger [["vol"; "skip"]]))
    as [st'|] eqn:Hscan; [|by vm_compute in Hscan].
  apply (excluded_by_resolved_path no_denied links_resolve fs_links [["vol"]]
           false None None [["vol"; "skip"]] st'
           {| fi_path := ["vol"; "skip"; "link.txt"];
              fi_name := "link.txt";
              fi_size := 1;
              fi_modified := 0;
              fi_created := 0;
              fi_extension := ".txt";
              fi_parent_dir := ["vol"; "skip"];
              fi_hash := None;
              fi_category := "documents" |}
           ["vol"; "skip"]).
  - exact Hscan.
  - vm_compute in Hscan. injection Hscan as <-. vm_compute.
    apply list_elem_of_In. simpl. tauto.
  - apply list_elem_of_In. simpl. tauto.
Defined.

Lemma depth_limit_restricts_unabandoned_witness :
  ∃ unbounded,
    Guarded.scan_multiple_volumes no_denied links_resolve fs_links [["vol"]]
      false None None (new_cataloger [["vol"; "skip"]]) = Some unbounded
    ∧ {| fi_path := ["vol"; "b"; "w.txt"];
         fi_name := "w.txt";
         fi_size := 4;
         fi_modified := 0;
         fi_created := 0;
         fi_extension := ".txt";
         fi_parent_dir := ["vol"; "b"];
         fi_hash := None;
         fi_category := "documents" |} ∈ cataloged unbounded.
Proof.
  destruct (Guarded.scan_multiple_volumes no_denied links_resolve fs_links
              [["vol"]] false (Some 3%Z) None (new_cataloger [["vol"; "skip"]]))
    as [limited|] eqn:Hscan; [|by vm_compute in Hscan].
  apply (depth_limit_restricts_unabandoned no_denied links_resolve fs_links
           [["vol"]] false 3%Z None [["vol"; "skip"]] limited).
  - intros root Hroot. apply list_elem_of_In in Hroot.
    destruct Hroot as [<-|[]]. by vm_compute.
  - exact Hscan.
  - vm_compute in Hscan. injection Hscan as <-. vm_compute.
    apply list_elem_of_In. simpl. tauto.
Defined.
